(** * mopidy-youtube: the future-backed entity cache of [youtube.py]

  A shallow embedding of [mopidy_youtube/youtube.py] (Python 2): the
  [Entry] / [Video] / [Playlist] classes with their per-field futures,
  [Entry.search], the batched [load_info] jobs, the paginated
  [Playlist.videos] job, the [audio_url] job, the memoising [Entry.get] and
  the self-shrinking [ThreadPool]; and, on top of them, the program that
  consumers and worker threads make together, as a step relation.

  Conventions of the embedding.
  - Raw API data is JSON ([json]); the Python operations the module applies
    to it (subscript, [.get], [.items()], iteration, truthiness, [min]) are
    embedded with the exceptions they raise.  JSON numbers are integers.
  - A [pykka.ThreadingFuture] is the content of its one-slot [_queue]:
    [None] while the queue is empty, [Some v] once [set(v)] has run; this
    is what the module tests ([_queue.empty()]) and writes ([set]).  The
    module itself never calls [get()] on a future: reading is left to its
    consumers.
  - Objects live in a heap indexed by references; an object's [__dict__]
    is a [gmap] from attribute names to futures.
  - The remote collaborator ([API] or [scrAPI], chosen by [api_enabled]) is
    an oracle indexed by the number of calls made before; every call is
    appended to a log.  The replacement policy of [repoze.lru] is a
    parameter as well.
  - [API] and [scrAPI] themselves are embedded over a [site]: the answers
    of the [requests] session and the matches of the patterns of [scrAPI]
    are parameters, and [site_world] makes the oracle above out of them.
  - A job runs to its end in one move of the program; the moves of
    consumers and workers interleave at that grain. *)

From Stdlib Require Import ZArith List String Ascii Bool Lia.
From stdpp Require Import base option list gmap strings pretty.

Set Warnings "-register-all".

Local Open Scope string_scope.
Local Open Scope list_scope.
Local Open Scope Z_scope.

(** ** Python values *)

Module Py.

(** Exceptions the module can meet; all of them derive from [Exception]. *)
Inductive exn :=
| KeyError
| TypeError
| AttributeError
| UnboundLocalError
| QueueFull
| RemoteError.

Inductive res (A : Type) :=
| Ok (a : A)
| Raise (e : exn).
Arguments Ok {A} a.
Arguments Raise {A} e.

Definition bind {A B} (r : res A) (k : A -> res B) : res B :=
  match r with
  | Ok a => k a
  | Raise e => Raise e
  end.

Inductive json :=
| JNull
| JBool (b : bool)
| JNum (n : Z)
| JStr (s : string)
| JArr (items : list json)
| JObj (members : list (string * json)).

(** [not x] is [negb (truthy x)]. *)
Definition truthy (j : json) : bool :=
  match j with
  | JNull => false
  | JBool b => b
  | JNum n => negb (n =? 0)
  | JStr s => negb (String.eqb s "")
  | JArr l => match l with [] => false | _ => true end
  | JObj l => match l with [] => false | _ => true end
  end.

(** The members of a [JObj] stand for a dict: a key occurs once. *)
Fixpoint assoc (k : string) (l : list (string * json)) : option json :=
  match l with
  | [] => None
  | (k', v) :: l' => if String.eqb k k' then Some v else assoc k l'
  end.

(** [j[k]] for a string key [k]. *)
Definition subscript (j : json) (k : string) : res json :=
  match j with
  | JObj l => match assoc k l with Some v => Ok v | None => Raise KeyError end
  | _ => Raise TypeError
  end.

(** [j.get(k)]. *)
Definition dict_get (j : json) (k : string) : res json :=
  match j with
  | JObj l => Ok (default JNull (assoc k l))
  | _ => Raise AttributeError
  end.

(** [j.items()]. *)
Definition dict_items (j : json) : res (list (string * json)) :=
  match j with
  | JObj l => Ok l
  | _ => Raise AttributeError
  end.

Fixpoint chars (s : string) : list json :=
  match s with
  | EmptyString => []
  | String c s' => JStr (String c EmptyString) :: chars s'
  end.

(** [for x in j]: a list yields its elements, a dict its keys, a string
    its characters; nothing else is iterable. *)
Definition iter (j : json) : res (list json) :=
  match j with
  | JArr l => Ok l
  | JObj l => Ok (map (fun kv => JStr (fst kv)) l)
  | JStr s => Ok (chars s)
  | _ => Raise TypeError
  end.

(** [x or None]. *)
Definition or_None (j : json) : json := if truthy j then j else JNull.

(** [max_videos < x] in Python 2, where [max_videos] is an int: [None]
    sorts below every number, booleans are the numbers 0 and 1, and
    every other type sorts above the numbers. *)
Definition int_lt (n : Z) (x : json) : bool :=
  match x with
  | JNull => false
  | JBool b => n <? (if b then 1 else 0)
  | JNum m => n <? m
  | _ => true
  end.

(** [min(x, n)]: the first argument unless the second is smaller. *)
Definition min_int (x : json) (n : Z) : json :=
  if int_lt n x then JNum n else x.

(** The numeric reading of a value, booleans included. *)
Definition num_of (j : json) : option Z :=
  match j with
  | JNum n => Some n
  | JBool b => Some (if b then 1 else 0)
  | _ => None
  end.

(** Hashable values, as they are used for ids: what [Entry.get] and a
    dict accept as a key.  Lists and dicts are unhashable. *)
Inductive pyid :=
| INone
| IBool (b : bool)
| IInt (n : Z)
| IStr (s : string).

Definition hashable (j : json) : res pyid :=
  match j with
  | JNull => Ok INone
  | JBool b => Ok (IBool b)
  | JNum n => Ok (IInt n)
  | JStr s => Ok (IStr s)
  | _ => Raise TypeError
  end.

(** Dict keys up to Python's [==] and [hash]: [True] is [1], [False] is
    [0]. *)
Definition hkey : Type := unit + (Z + string).

Definition key_of (i : pyid) : hkey :=
  match i with
  | INone => inl tt
  | IBool b => inr (inl (if b then 1 else 0))
  | IInt n => inr (inl n)
  | IStr s => inr (inr s)
  end.

End Py.
Export Py.

(** ** ThreadPool *)

Module ThreadPool.

Definition threads_max : Z := 2.

(** A worker thread is either at the top of its loop, about to take the
    lock, or outside the lock applying the job it popped. *)
Inductive thread (J : Type) :=
| AtLoop
| Applying (f : J).
Arguments AtLoop {J}.
Arguments Applying {J} f.

(** [threads_active] and [jobs] are the class attributes; [threads] are
    the worker threads that have been started and have not left [worker];
    [applied] records the jobs whose [apply(f, args)] has returned or
    raised, in that order (a ghost field). *)
Record pool (J : Type) := Pool {
  threads_active : Z;
  jobs : list J;
  threads : list (thread J);
  applied : list J
}.
Arguments Pool {J}.
Arguments threads_active {J}.
Arguments jobs {J}.
Arguments threads {J}.
Arguments applied {J}.

Definition init {J} : pool J := Pool 0 [] [] [].

(** [ThreadPool.run(f, args)]: the whole body runs under [lock]. *)
Definition run {J} (f : J) (p : pool J) : pool J :=
  let jobs' := jobs p ++ [f] in
  if threads_active p <? threads_max
  then Pool (threads_active p + 1) jobs' (threads p ++ [AtLoop]) (applied p)
  else Pool (threads_active p) jobs' (threads p) (applied p).

(** [jobs.pop()] takes the last element. *)
Definition pop {J} (l : list J) : option (list J * J) :=
  match last l with
  | Some f => Some (removelast l, f)
  | None => None
  end.

(** One pass of thread [i] through the locked section of [worker]:
    it pops a job and leaves the lock to apply it, or, finding no job,
    decrements [threads_active] and leaves the loop. *)
Definition worker_lock {J} (i : nat) (p : pool J) : option (pool J) :=
  match threads p !! i with
  | Some AtLoop =>
      match pop (jobs p) with
      | Some (rest, f) =>
          Some (Pool (threads_active p) rest
                     (<[i := Applying f]> (threads p)) (applied p))
      | None =>
          Some (Pool (threads_active p - 1) (jobs p)
                     (delete i (threads p)) (applied p))
      end
  | _ => None
  end.

(** [apply(f, args)] of thread [i] is over, by return or by an exception
    that [worker] logs; the thread is back at the top of its loop. *)
Definition worker_applied {J} (i : nat) (p : pool J) : option (pool J) :=
  match threads p !! i with
  | Some (Applying f) =>
      Some (Pool (threads_active p) (jobs p)
                 (<[i := AtLoop]> (threads p)) (applied p ++ [f]))
  | _ => None
  end.

(** The moves of the worker threads, and the moves of the whole pool:
    any thread, a worker applying a job included, may call [run]. *)
Inductive worker_step {J} : pool J -> pool J -> Prop :=
| step_lock i p p' : worker_lock i p = Some p' -> worker_step p p'
| step_applied i p p' : worker_applied i p = Some p' -> worker_step p p'.

Inductive step {J} : pool J -> pool J -> Prop :=
| step_run f p : step p (run f p)
| step_worker p p' : worker_step p p' -> step p p'.

Inductive reachable {J} : pool J -> Prop :=
| reach_init : reachable init
| reach_step p p' : reachable p -> step p p' -> reachable p'.

(** A scheduler that lets the first live worker move. *)
Definition schedule {J} (p : pool J) : option (pool J) :=
  match worker_lock 0 p with
  | Some p' => Some p'
  | None => worker_applied 0 p
  end.

Fixpoint drain {J} (fuel : nat) (p : pool J) : pool J :=
  match fuel with
  | O => p
  | S n => match schedule p with Some p' => drain n p' | None => p end
  end.

(** Worker moves still owed by a pool that receives no further job. *)
Definition owed {J} (t : thread J) : nat :=
  match t with AtLoop => 1 | Applying _ => 2 end.

Definition work {J} (p : pool J) : nat :=
  (3 * length (jobs p) + sum_list (map owed (threads p)))%nat.

(** Jobs a worker has popped and not finished applying. *)
Definition in_flight {J} (ts : list (thread J)) : list J :=
  omap (fun t => match t with Applying f => Some f | AtLoop => None end) ts.

(** Every job handed to [run] so far. *)
Definition submitted {J} (p : pool J) : list J :=
  applied p ++ in_flight (threads p) ++ jobs p.

(** No worker thread can move. *)
Definition idle {J} (p : pool J) : Prop := forall q, ~ worker_step p q.

(** [threads_active] counts the worker threads alive, never more than
    [threads_max] of them, and pending jobs are never left without one. *)
Definition pool_inv {J} (p : pool J) : Prop :=
  threads_active p = Z.of_nat (length (threads p))
  /\ threads_active p <= threads_max
  /\ (jobs p <> [] -> 0 < threads_active p).

End ThreadPool.

(** ** Objects, futures and the program state *)

Inductive cls := cVideo | cPlaylist.

#[global] Instance cls_eq_dec : EqDecision cls.
Proof. solve_decision. Defined.

#[global] Instance cls_countable : Countable cls :=
  inj_countable' (fun c => match c with cVideo => true | cPlaylist => false end)
                 (fun b => if b then cVideo else cPlaylist)
                 (fun c => match c with cVideo => eq_refl | cPlaylist => eq_refl end).

(** References to [Entry] instances: positions in the heap. *)
Definition ref : Type := nat.

(** What a future can hold: data taken from the API response ([None] is
    [VJson JNull], an int is [VJson (JNum _)], a list of URLs is
    [VJson (JArr _)]), or the list of [Video] instances of a playlist. *)
Inductive pyval :=
| VJson (j : json)
| VVideos (l : list ref).

Definition pyNone : pyval := VJson JNull.

(** An instance: its class, its [id] attribute and the futures of its
    [__dict__], keyed by attribute name ('_title', '_length', ...).  A
    future is [None] while unset and [Some v] once set to [v]. *)
Record obj := Obj {
  o_cls : cls;
  o_id : pyid;
  o_dict : gmap string (option pyval)
}.

(** The calls of the collaborator interface, and the one call of
    [youtube_dl] behind [audio_url]. *)
Inductive call :=
| search (q : string)
| list_videos (ids : list pyid)
| list_playlists (ids : list pyid)
| list_playlistitems (id : pyid) (page : json) (max_results : Z)
| extract_info (id : pyid).

(** The closures handed to [ThreadPool.run]. *)
Inductive job :=
| video_batch (sublist : list ref)
| playlist_batch (sublist : list ref)
| playlist_videos (self : ref)
| video_audio_url (self : ref).

(** What the module takes from outside: [Playlist.max_videos] (overridable
    by config), the answer of the remote collaborator to its [n]-th call,
    and the replacement choice of [repoze.lru] as a function of the keys
    looked up so far and of the resident entries. *)
Record world := World {
  max_videos : Z;
  remote : nat -> call -> res json;
  victim : list (cls * hkey) -> gmap (cls * hkey) ref -> cls * hkey
}.

Record state := State {
  heap : list obj;
  cache : gmap (cls * hkey) ref;
  lookups : list (cls * hkey);
  pool : ThreadPool.pool job;
  calls : list call
}.

Definition init_state : state := State [] ∅ [] ThreadPool.init [].

Definition with_heap (h : list obj) (st : state) : state :=
  State h (cache st) (lookups st) (pool st) (calls st).

Definition with_pool (p : ThreadPool.pool job) (st : state) : state :=
  State (heap st) (cache st) (lookups st) p (calls st).

(** Stateful code that may raise. *)
Definition M (A : Type) : Type := state -> state * res A.

#[global] Instance res_ret : MRet res := fun A a => Ok a.
#[global] Instance res_bind : MBind res := fun A B k r => Py.bind r k.
#[global] Instance res_fmap : FMap res :=
  fun A B f r => match r with Ok a => Ok (f a) | Raise e => Raise e end.

#[global] Instance M_ret : MRet M := fun A a st => (st, Ok a).
#[global] Instance M_bind : MBind M := fun A B k m st =>
  match m st with
  | (st', Ok a) => k a st'
  | (st', Raise e) => (st', Raise e)
  end.

#[global] Instance M_fmap : FMap M := fun A B f m st =>
  match m st with
  | (st', Ok a) => (st', Ok (f a))
  | (st', Raise e) => (st', Raise e)
  end.

Definition lift {A} (r : res A) : M A := fun st => (st, r).

(** [try: m except: h]. *)
Definition try_except {A} (m : M A) (h : M A) : M A := fun st =>
  match m st with
  | (st', Ok a) => (st', Ok a)
  | (st', Raise _) => h st'
  end.

(** ** The duration pattern

    ['PT((?P<hours>\d+)H)?((?P<minutes>\d+)M)?((?P<seconds>\d+)S)?'],
    used with [re.search]. *)

Definition is_digit (c : ascii) : bool :=
  (48 <=? nat_of_ascii c)%nat && (nat_of_ascii c <=? 57)%nat.

(** The longest run of digits at the head of [s], and what follows it. *)
Fixpoint span_digits (s : string) : string * string :=
  match s with
  | String c s' =>
      if is_digit c
      then let (ds, rest) := span_digits s' in (String c ds, rest)
      else (EmptyString, s)
  | EmptyString => (EmptyString, EmptyString)
  end.

(** One optional group [((?P<g>\d+)X)?] at the head of [s]: the greedy
    [\d+] takes the whole run of digits, and any shorter run is followed by
    a digit, not by [X]; so the group takes part exactly when a non-empty
    run of digits is followed by [X], and otherwise matches nothing. *)
Definition opt_group (X : ascii) (s : string) : option string * string :=
  match span_digits s with
  | (String d ds, String c rest) =>
      if Ascii.eqb c X then (Some (String d ds), rest) else (None, s)
  | _ => (None, s)
  end.

(** [re.search] tries the pattern at every position from the left; what
    follows ['PT'] in the pattern matches at any position, so the match is
    at the first occurrence of ['PT'].  The result is the text after it. *)
Fixpoint search_PT (s : string) : option string :=
  match s with
  | String c s' =>
      match s' with
      | String c' rest =>
          if Ascii.eqb c "P" && Ascii.eqb c' "T" then Some rest
          else search_PT s'
      | EmptyString => None
      end
  | EmptyString => None
  end.

(** [int(ds)] for a string of decimal digits. *)
Fixpoint int_digits (acc : Z) (ds : string) : Z :=
  match ds with
  | String c ds' => int_digits (10 * acc + (Z.of_nat (nat_of_ascii c) - 48)) ds'
  | EmptyString => acc
  end.

(** [int(m.group(g) or 0)]. *)
Definition int_group (g : option string) : Z :=
  match g with
  | Some ds => int_digits 0 ds
  | None => 0
  end.

(** The [length] branch of [_set_api_data] on the duration it finds:
    [m] is [None] when there is no match, and [m.group] then raises. *)
Definition duration_seconds (duration : json) : res Z :=
  match duration with
  | JStr s =>
      match search_PT s with
      | Some r =>
          let (hours, r1) := opt_group "H" r in
          let (minutes, r2) := opt_group "M" r1 in
          let (seconds, _) := opt_group "S" r2 in
          Ok (int_group hours * 3600 + int_group minutes * 60
              + int_group seconds)
      | None => Raise AttributeError
      end
  | _ => Raise TypeError
  end.

(** ** class Entry *)

Module Entry.

Definition cache_max_len : nat := 400.

(** [Entry.get], under [@classmethod @lru_cache(maxsize=cache_max_len)]:
    the cache is keyed by the arguments [(cls, id)], one cache for both
    subclasses.  A resident key gives back the cached instance; otherwise
    [cls()] is built, given its [id], and put in the cache, which first
    drops the entry picked by the replacement policy when it is full. *)
Definition get (W : world) (c : cls) (id : json) : M ref := fun st =>
  match hashable id with
  | Raise e => (st, Raise e)
  | Ok i =>
      let k := (c, key_of i) in
      match cache st !! k with
      | Some r =>
          (State (heap st) (cache st) (k :: lookups st) (pool st) (calls st),
           Ok r)
      | None =>
          let r := length (heap st) in
          let resident :=
            if decide (cache_max_len ≤ size (cache st))%nat
            then delete (victim W (lookups st) (cache st)) (cache st)
            else cache st in
          (State (heap st ++ [Obj c i ∅]) (<[k := r]> resident)
                 (k :: lookups st) (pool st) (calls st),
           Ok r)
      end
  end.

(** ['_' + k]. *)
Definition future_name (k : string) : string := String "_" k.

(** [add(obj)] of [_add_futures]: a fresh future for every field that has
    none; tells whether one was added. *)
Fixpoint add (fields : list string) (d : gmap string (option pyval))
  : gmap string (option pyval) * bool :=
  match fields with
  | [] => (d, false)
  | k :: fields' =>
      match d !! future_name k with
      | Some _ => add fields' d
      | None => let (d', _) := add fields' (<[future_name k := None]> d) in
                (d', true)
      end
  end.

(** [_add_futures(list, fields)]: [filter(add, list)], with the effect of
    [add] on every element in turn ([lst] is the source's [list]). *)
Fixpoint _add_futures (lst : list ref) (fields : list string)
    (h : list obj) : list ref * list obj :=
  match lst with
  | [] => ([], h)
  | r :: lst' =>
      match h !! r with
      | Some o =>
          let (d, added) := add fields (o_dict o) in
          let (kept, h') :=
            _add_futures lst' fields (<[r := Obj (o_cls o) (o_id o) d]> h) in
          (if added then r :: kept else kept, h')
      | None => _add_futures lst' fields h
      end
  end.

(** [self.max_videos]: a class attribute of [Playlist] only. *)
Definition self_max_videos (W : world) (c : cls) : res Z :=
  match c with
  | cPlaylist => Ok (max_videos W)
  | cVideo => Raise AttributeError
  end.

(** The list comprehension of the [thumbnails] branch, over
    [item['snippet']['thumbnails'].items()], taken in the order of the
    members (the order of a Python 2 dict is not specified). *)
Fixpoint thumbnail_urls (items : list (string * json)) : res (list json) :=
  match items with
  | [] => Ok []
  | (key, val) :: items' =>
      if String.eqb key "medium" || String.eqb key "high"
      then url ← subscript val "url";
           urls ← thumbnail_urls items';
           Ok (url :: urls)
      else thumbnail_urls items'
  end.

(** The [if not item: ... elif k == ...] chain that computes [val].  When
    no branch applies, [val] is the local variable as the previous rounds of
    the loop left it, or is unbound. *)
Definition field_value (W : world) (c : cls) (k : string) (item : json)
    (val : option pyval) : res pyval :=
  if negb (truthy item) then Ok pyNone
  else if String.eqb k "title" then
    snippet ← subscript item "snippet";
    VJson <$> subscript snippet "title"
  else if String.eqb k "channel" then
    snippet ← subscript item "snippet";
    VJson <$> subscript snippet "channelTitle"
  else if String.eqb k "length" then
    details ← subscript item "contentDetails";
    duration ← subscript details "duration";
    (fun n => VJson (JNum n)) <$> duration_seconds duration
  else if String.eqb k "video_count" then
    details ← subscript item "contentDetails";
    count ← subscript details "itemCount";
    limit ← self_max_videos W c;
    Ok (VJson (min_int count limit))
  else if String.eqb k "thumbnails" then
    snippet ← subscript item "snippet";
    thumbs ← subscript snippet "thumbnails";
    items ← dict_items thumbs;
    (fun urls => VJson (JArr urls)) <$> thumbnail_urls items
  else
    match val with
    | Some v => Ok v
    | None => Raise UnboundLocalError
    end.

(** The body of [for k in fields], on the [__dict__] and the local [val]. *)
Fixpoint set_fields (W : world) (c : cls) (item : json)
    (fields : list string) (d : gmap string (option pyval))
    (val : option pyval) : gmap string (option pyval) * res unit :=
  match fields with
  | [] => (d, Ok tt)
  | k :: fields' =>
      let _k := future_name k in
      (* future = self.__dict__.get(_k), created when missing *)
      let d1 := match d !! _k with
                | Some _ => d
                | None => <[_k := None]> d
                end in
      match d !! _k with
      | Some (Some _) =>
          (* not future._queue.empty(): continue *)
          set_fields W c item fields' d1 val
      | _ =>
          match field_value W c k item val with
          | Ok v => set_fields W c item fields' (<[_k := Some v]> d1) (Some v)
          | Raise e => (d1, Raise e)
          end
      end
  end.

(** [self._set_api_data(fields, item)]; an absent item is [JNull]. *)
Definition _set_api_data (W : world) (self : obj) (fields : list string)
    (item : json) : obj * res unit :=
  let (d, r) := set_fields W (o_cls self) item fields (o_dict self) None in
  (Obj (o_cls self) (o_id self) d, r).

(** The same on the instance behind a reference. *)
Definition set_api_data (W : world) (self : ref) (fields : list string)
    (item : json) : M unit := fun st =>
  match heap st !! self with
  | Some o =>
      let (o', r) := _set_api_data W o fields item in
      (with_heap (<[self := o']> (heap st)) st, r)
  | None => (st, Raise AttributeError)
  end.

(** One call of the collaborator, recorded in [calls]. *)
Definition ask (W : world) (c : call) : M json := fun st =>
  (State (heap st) (cache st) (lookups st) (pool st) (calls st ++ [c]),
   remote W (length (calls st)) c).

(** [create_object(item)] of [search]. *)
Definition create_object (W : world) (item : json) : M ref :=
  id ← lift (subscript item "id");
  kind ← lift (subscript id "kind");
  if kind is JStr "youtube#video" then
    videoId ← lift (subscript id "videoId");
    obj ← get W cVideo videoId;
    set_api_data W obj ["title"; "channel"] item;;
    mret obj
  else
    playlistId ← lift (subscript id "playlistId");
    obj ← get W cPlaylist playlistId;
    set_api_data W obj ["title"; "channel"; "thumbnails"] item;;
    mret obj.

(** [map(create_object, l)]. *)
Fixpoint map_create (W : world) (l : list json) : M (list ref) :=
  match l with
  | [] => mret []
  | item :: l' =>
      obj ← create_object W item;
      objs ← map_create W l';
      mret (obj :: objs)
  end.

(** [Entry.search(q)]: [None] when the call or the mapping raises. *)
Definition search (W : world) (q : string) : M (option (list ref)) :=
  data ← try_except (Some <$> ask W (search q)) (mret None);
  match data with
  | Some data =>
      try_except
        (items ← lift (subscript data "items" ≫= iter);
         Some <$> map_create W items)
        (mret None)
  | None => mret None
  end.

(** [range(0, n, 50)] and [list[i:i+50]]. *)
Definition range50 (n : nat) : list nat :=
  map (fun q => q * 50)%nat (seq 0 ((n + 49) / 50)).

Definition slice50 {A} (l : list A) (i : nat) : list A := take 50 (drop i l).

(** The loop that ends both [load_info]: one [ThreadPool.run] for every
    50 elements. *)
Definition run_sublists (mk : list ref -> job) (lst : list ref)
    (p : ThreadPool.pool job) : ThreadPool.pool job :=
  foldl (fun p i => ThreadPool.run (mk (slice50 lst i)) p) p
        (range50 (length lst)).

(** [{item['id']: item for item in data['items']}]: later items replace
    earlier ones with the same id. *)
Fixpoint items_by_id (items : list json) (d : gmap hkey json)
  : res (gmap hkey json) :=
  match items with
  | [] => Ok d
  | item :: items' =>
      id ← subscript item "id";
      i ← hashable id;
      items_by_id items' (<[key_of i := item]> d)
  end.

(** [[x.id for x in sublist]]. *)
Definition ids_of (h : list obj) (sublist : list ref) : list pyid :=
  omap (fun r => o_id <$> h !! r) sublist.

(** The [try: ... except: dict = {}] of both batch jobs: one call of the
    collaborator, recorded in [calls]. *)
Definition batch_dict (W : world) (c : call) : M (gmap hkey json) := fun st =>
  let st' := State (heap st) (cache st) (lookups st) (pool st)
                   (calls st ++ [c]) in
  match (data ← remote W (length (calls st)) c;
         items ← subscript data "items";
         l ← iter items;
         items_by_id l ∅) with
  | Ok d => (st', Ok d)
  | Raise _ => (st', Ok ∅)
  end.

(** [for x in sublist: x._set_api_data(fields, dict.get(x.id))]. *)
Fixpoint set_batch (W : world) (fields : list string) (d : gmap hkey json)
    (sublist : list ref) : M unit :=
  match sublist with
  | [] => mret tt
  | r :: sublist' => fun st =>
      match heap st !! r with
      | Some o =>
          (set_api_data W r fields (default JNull (d !! key_of (o_id o)));;
           set_batch W fields d sublist') st
      | None => (st, Raise AttributeError)
      end
  end.

End Entry.

(** ** Futures as attributes, and [async_property] *)

(** The attributes of the instance behind [self]. *)
Definition dict_of (self : ref) : M (gmap string (option pyval)) := fun st =>
  match heap st !! self with
  | Some o => (st, Ok (o_dict o))
  | None => (st, Raise AttributeError)
  end.

(** [self.<name> = pykka.ThreadingFuture()]. *)
Definition new_future (self : ref) (name : string) : M unit := fun st =>
  match heap st !! self with
  | Some o =>
      (with_heap (<[self := Obj (o_cls o) (o_id o)
                                (<[name := None]> (o_dict o))]> (heap st)) st,
       Ok tt)
  | None => (st, Raise AttributeError)
  end.

(** [self.<name>.set(v)]: [_queue.put(.., block=False)] on the one-slot
    queue raises [Full] when the future is set already. *)
Definition future_set (self : ref) (name : string) (v : pyval) : M unit :=
  fun st =>
  match heap st !! self with
  | Some o =>
      match o_dict o !! name with
      | Some None =>
          (with_heap (<[self := Obj (o_cls o) (o_id o)
                                    (<[name := Some v]> (o_dict o))]> (heap st))
                     st, Ok tt)
      | Some (Some _) => (st, Raise QueueFull)
      | None => (st, Raise AttributeError)
      end
  | None => (st, Raise AttributeError)
  end.

(** The [wrapper] of [async_property]: [func] runs only when the future
    is not among the attributes yet; the future is returned. *)
Definition async_property (name : string) (func : ref -> M unit)
    (self : ref) : M (option pyval) :=
  d ← dict_of self;
  (match d !! name with
   | Some _ => mret tt
   | None => func self
   end);;
  d' ← dict_of self;
  match d' !! name with
  | Some f => mret f
  | None => lift (Raise KeyError)
  end.

(** [ThreadPool.run(f, args)] on the pool of the program. *)
Definition submit (f : job) : M unit := fun st =>
  (with_pool (ThreadPool.run f (pool st)) st, Ok tt).

(** [str(id)], as ['%s' % id] formats it. *)
Definition str (i : pyid) : string :=
  match i with
  | INone => "None"
  | IBool b => if b then "True" else "False"
  | IInt n => pretty n
  | IStr s => s
  end.

(** ** class Video *)

Module Video.

Definition fields : list string := ["title"; "length"; "channel"].

(** [job(sublist)] of [load_info]. *)
Definition load_info_job (W : world) (sublist : list ref) : M unit := fun st =>
  (d ← Entry.batch_dict W (list_videos (Entry.ids_of (heap st) sublist));
   Entry.set_batch W fields d sublist) st.

Definition load_info (lst : list ref) : M unit := fun st =>
  let (lst', h) := Entry._add_futures lst fields (heap st) in
  (State h (cache st) (lookups st)
         (Entry.run_sublists video_batch lst' (pool st)) (calls st),
   Ok tt).

Definition title : ref -> M (option pyval) :=
  async_property "_title" (fun self => load_info [self]).

Definition channel : ref -> M (option pyval) :=
  async_property "_channel" (fun self => load_info [self]).

Definition length : ref -> M (option pyval) :=
  async_property "_length" (fun self => load_info [self]).

(** ['https://i.ytimg.com/vi/%s/%s.jpg' % (self.id, type)]. *)
Definition thumbnail_url (id : pyid) (type : string) : json :=
  JStr ("https://i.ytimg.com/vi/" +:+ str id +:+ "/" +:+ type +:+ ".jpg").

Definition thumbnails : ref -> M (option pyval) :=
  async_property "_thumbnails" (fun self st =>
    match heap st !! self with
    | Some o =>
        (new_future self "_thumbnails";;
         future_set self "_thumbnails"
           (VJson (JArr (map (thumbnail_url (o_id o))
                             ["mqdefault"; "hqdefault"])))) st
    | None => (st, Raise AttributeError)
    end).

(** [job()] of [audio_url]. *)
Definition audio_url_job (W : world) (self : ref) : M unit := fun st =>
  match heap st !! self with
  | Some o =>
      (info ← try_except (Some <$> Entry.ask W (extract_info (o_id o)))
                         (mret None);
       match info with
       | None => future_set self "_audio_url" pyNone
       | Some info =>
           url ← lift (subscript info "url");
           future_set self "_audio_url" (VJson url)
       end) st
  | None => (st, Raise AttributeError)
  end.

Definition audio_url : ref -> M (option pyval) :=
  async_property "_audio_url" (fun self =>
    new_future self "_audio_url";;
    submit (video_audio_url self)).

End Video.

(** ** class Playlist *)

Module Playlist.

Definition fields : list string :=
  ["title"; "video_count"; "thumbnails"; "channel"].

(** [job(sublist)] of [load_info]. *)
Definition load_info_job (W : world) (sublist : list ref) : M unit := fun st =>
  (d ← Entry.batch_dict W (list_playlists (Entry.ids_of (heap st) sublist));
   Entry.set_batch W fields d sublist) st.

Definition load_info (lst : list ref) : M unit := fun st =>
  let (lst', h) := Entry._add_futures lst fields (heap st) in
  (State h (cache st) (lookups st)
         (Entry.run_sublists playlist_batch lst' (pool st)) (calls st),
   Ok tt).

Definition title : ref -> M (option pyval) :=
  async_property "_title" (fun self => load_info [self]).

Definition channel : ref -> M (option pyval) :=
  async_property "_channel" (fun self => load_info [self]).

Definition video_count : ref -> M (option pyval) :=
  async_property "_video_count" (fun self => load_info [self]).

Definition thumbnails : ref -> M (option pyval) :=
  async_property "_thumbnails" (fun self => load_info [self]).

(** [for item in data['items']] of the [videos] job: the page's items
    become [Video] instances with their title set. *)
Fixpoint page_videos (W : world) (items : list json) (myvideos : list ref)
  : M (list ref) :=
  match items with
  | [] => mret myvideos
  | item :: items' =>
      id ← lift (snippet ← subscript item "snippet";
                 resource ← subscript snippet "resourceId";
                 subscript resource "videoId");
      video ← Entry.get W cVideo id;
      Entry.set_api_data W video ["title"] item;;
      page_videos W items' (myvideos ++ [video])
  end.

(** The [while] loop of the [videos] job; [None] when [fuel] rounds did
    not end it. *)
Fixpoint videos_loop (W : world) (fuel : nat) (self : ref)
    (all_videos : list ref) (page : json) : M (option (list ref)) :=
  match fuel with
  | O => mret None
  | S fuel' => fun st =>
      match heap st !! self with
      | None => (st, Raise AttributeError)
      | Some o =>
          let len := Z.of_nat (List.length all_videos) in
          (* while page is not None and len(all_videos) < self.max_videos *)
          if page is JNull then (st, Ok (Some all_videos)) else
          match Entry.self_max_videos W (o_cls o) with
          | Raise e => (st, Raise e)
          | Ok limit =>
              if len <? limit then
                (* try: max_results = ...; data = list_playlistitems(...) *)
                let max_results := Z.min (limit - len) 50 in
                let c := list_playlistitems (o_id o) page max_results in
                let st' := State (heap st) (cache st) (lookups st) (pool st)
                                 (calls st ++ [c]) in
                match remote W (List.length (calls st)) c with
                | Raise _ => (* except: break *) (st', Ok (Some all_videos))
                | Ok data =>
                    ((page' ← lift (or_None <$> dict_get data "nextPageToken");
                      items ← lift (subscript data "items" ≫= iter);
                      myvideos ← page_videos W items [];
                      Video.load_info myvideos;;
                      videos_loop W fuel' self (all_videos ++ myvideos) page')
                     : M (option (list ref))) st'
                end
              else (st, Ok (Some all_videos))
          end
      end
  end.

(** [job()] of [videos]. *)
Definition videos_job (W : world) (fuel : nat) (self : ref) : M (option unit) :=
  r ← videos_loop W fuel self [] (JStr "");
  match r with
  | Some all_videos =>
      future_set self "_videos" (VVideos all_videos);; mret (Some tt)
  | None => mret None
  end.

Definition videos : ref -> M (option pyval) :=
  async_property "_videos" (fun self =>
    new_future self "_videos";;
    submit (playlist_videos self)).

End Playlist.

(** [apply(f, args)] for the closures of the module. *)
Definition apply (W : world) (fuel : nat) (f : job) : M (option unit) :=
  match f with
  | video_batch sublist => Video.load_info_job W sublist;; mret (Some tt)
  | playlist_batch sublist => Playlist.load_info_job W sublist;; mret (Some tt)
  | playlist_videos self => Playlist.videos_job W fuel self
  | video_audio_url self => Video.audio_url_job W self;; mret (Some tt)
  end.

(** ** The program: consumers and workers *)

(** What a consumer of the module does: fetch an instance, search, or
    read one of the asynchronous properties of an instance. *)
Inductive request :=
| req_get (c : cls) (id : json)
| req_search (q : string)
| req_read (attr : string) (self : ref).

(** The asynchronous properties of each class. *)
Definition property (c : cls) (attr : string)
  : option (ref -> M (option pyval)) :=
  match c with
  | cVideo =>
      if String.eqb attr "title" then Some Video.title
      else if String.eqb attr "channel" then Some Video.channel
      else if String.eqb attr "length" then Some Video.length
      else if String.eqb attr "thumbnails" then Some Video.thumbnails
      else if String.eqb attr "audio_url" then Some Video.audio_url
      else None
  | cPlaylist =>
      if String.eqb attr "title" then Some Playlist.title
      else if String.eqb attr "channel" then Some Playlist.channel
      else if String.eqb attr "video_count" then Some Playlist.video_count
      else if String.eqb attr "thumbnails" then Some Playlist.thumbnails
      else if String.eqb attr "videos" then Some Playlist.videos
      else None
  end.

Definition serve (W : world) (q : request) : M unit :=
  match q with
  | req_get c id => Entry.get W c id;; mret tt
  | req_search q => Entry.search W q;; mret tt
  | req_read attr self => fun st =>
      match heap st !! self with
      | Some o =>
          match property (o_cls o) attr with
          | Some p => (p self;; mret tt) st
          | None => (st, Raise AttributeError)
          end
      | None => (st, Raise AttributeError)
      end
  end.

(** The moves of the program: a consumer is served; a worker goes through
    the locked section of its loop; a worker applies the job it popped,
    to its end. *)
Inductive prog_step (W : world) : state -> state -> Prop :=
| step_serve q st st' r :
    serve W q st = (st', r) -> prog_step W st st'
| step_lock i st p :
    ThreadPool.worker_lock i (pool st) = Some p ->
    prog_step W st (with_pool p st)
| step_apply i f fuel st st' r p :
    ThreadPool.threads (pool st) !! i = Some (ThreadPool.Applying f) ->
    apply W fuel f st = (st', r) -> r <> Ok None ->
    ThreadPool.worker_applied i (pool st') = Some p ->
    prog_step W st (with_pool p st').

Inductive prog_reachable (W : world) : state -> Prop :=
| prog_init : prog_reachable W init_state
| prog_next st st' :
    prog_reachable W st -> prog_step W st st' -> prog_reachable W st'.

(** ** Vocabulary of the properties *)

(** A non-empty string of decimal digits. *)
Fixpoint all_digits (s : string) : bool :=
  match s with
  | String c s' => is_digit c && all_digits s'
  | EmptyString => true
  end.

Definition numeral (ds : string) : Prop :=
  ds <> EmptyString /\ all_digits ds = true.

(** One component of a duration, [#X], when it is present. *)
Definition component (g : option string) (X : ascii) : string :=
  match g with
  | Some ds => ds +:+ String X EmptyString
  | None => EmptyString
  end.

(** The duration ['PT#H#M#S'] with the given components. *)
Definition duration_of (hours minutes seconds : option string) : string :=
  "PT" +:+ component hours "H" +:+ component minutes "M"
       +:+ component seconds "S".

(** An item of [list_videos] with the given [contentDetails]. *)
Definition video_item (id title channel : string)
    (details : list (string * json)) : json :=
  JObj [("id", JStr id);
        ("snippet", JObj [("title", JStr title);
                          ("channelTitle", JStr channel)]);
        ("contentDetails", JObj details)].

(** How a [__dict__] may change: every attribute keeps its future as it
    is, or had no future or an unset one, is one of the names in [P], and
    has a future afterwards. *)
Definition dict_grows (P : string -> Prop)
    (d d' : gmap string (option pyval)) : Prop :=
  forall name,
    d' !! name = d !! name
    \/ (P name /\ (d !! name = None \/ d !! name = Some None)
        /\ is_Some (d' !! name)).

(** The same for a heap: instances stay where they are, with their class
    and id. *)
Definition heap_grows (P : string -> Prop) (h h' : list obj) : Prop :=
  forall (r : ref) o, h !! r = Some o ->
    exists o', h' !! r = Some o' /\ o_cls o' = o_cls o /\ o_id o' = o_id o
               /\ dict_grows P (o_dict o) (o_dict o').

(** The value a field is left with by a batch whose item is absent. *)
Definition absent_fill (f : option (option pyval)) : option (option pyval) :=
  match f with
  | Some (Some v) => Some (Some v)
  | _ => Some (Some pyNone)
  end.

(** A computation under which the heap changes as [heap_grows P] allows. *)
Definition grows {A} (P : string -> Prop) (m : M A) : Prop :=
  forall st st' r, m st = (st', r) -> heap_grows P (heap st) (heap st').

(** Any attribute name. *)
Definition any_name : string -> Prop := fun _ => True.

(** The attribute names of the futures of a list of fields. *)
Definition futures_of (fields : list string) (name : string) : Prop :=
  name ∈ map Entry.future_name fields.

(** [d'] is [d] after a batch with no item for the instance: every
    future of [fields] is set, to [None] unless it was set before. *)
Definition filled (fields : list string)
    (d d' : gmap string (option pyval)) : Prop :=
  forall name,
    d' !! name = if decide (name ∈ map Entry.future_name fields)
                 then absent_fill (d !! name) else d !! name.

(** The future of instance [r] under the attribute [name]: [None] when
    there is none, [Some None] when it is unset, [Some (Some v)] when it is
    set to [v]. *)
Definition future_at (st : state) (r : ref) (name : string)
  : option (option pyval) :=
  o ← heap st !! r; o_dict o !! name.

(** The state a computation leaves. *)
Definition after {A} (m : M A) (st : state) : state := (m st).1.

(** Worlds for the examples: [max_videos] is the default 60, the cache
    drops its first resident key, and the collaborator either fails every
    call or answers its [n]-th call from a script. *)
Definition first_resident (log : list (cls * hkey))
    (c : gmap (cls * hkey) ref) : cls * hkey :=
  match map_to_list c with
  | (k, _) :: _ => k
  | [] => (cVideo, inl tt)
  end.

Definition failing_world : world :=
  World 60 (fun _ _ => Raise RemoteError) first_resident.

Definition scripted_world (answers : list (res json)) : world :=
  World 60 (fun n _ => default (Raise RemoteError) (answers !! n))
        first_resident.

(** An item of a [list_playlistitems] page. *)
Definition page_item (id title : string) : json :=
  JObj [("snippet", JObj [("title", JStr title);
                          ("resourceId", JObj [("videoId", JStr id)])])].

(** A video met on a playlist page: fetched, its title set from the page
    item, and handed to [Video.load_info], as the [videos] job does. *)
Definition paged_video (W : world) : state :=
  after (v ← Entry.get W cVideo (JStr "a");
         Entry.set_api_data W v ["title"] (page_item "a" "T");;
         Video.load_info [v]) init_state.

(** Two fresh videos handed to [Video.load_info] together. *)
Definition two_videos (W : world) : state :=
  after (a ← Entry.get W cVideo (JStr "a");
         b ← Entry.get W cVideo (JStr "b");
         Video.load_info [a; b]) init_state.

(** An answer of [list_videos] whose first item has no duration. *)
Definition answer_without_duration : res json :=
  Ok (JObj [("items",
             JArr [video_item "a" "A" "C" [];
                   video_item "b" "B" "C" [("duration", JStr "PT1M")]])]).

(** The sublists [load_info] hands to the pool, for the list that is left
    after [_add_futures]. *)
Definition batches (lst : list ref) : list (list ref) :=
  map (Entry.slice50 lst) (Entry.range50 (length lst)).



(** [n] fresh videos, with ids 0 .. n-1. *)
Fixpoint fresh_videos (W : world) (n : nat) : M (list ref) :=
  match n with
  | O => mret []
  | S n' =>
      vs ← fresh_videos W n';
      v ← Entry.get W cVideo (JNum (Z.of_nat n'));
      mret (vs ++ [v])
  end.

(** The sizes of the batch calls in a log. *)
Definition call_sizes (cs : list call) : list nat :=
  omap (fun c => match c with
                 | list_videos ids | list_playlists ids => Some (length ids)
                 | _ => None
                 end) cs.

(** A worker on its own: pop and apply until the queue is empty. *)
Fixpoint work_off (W : world) (n : nat) (st : state) : state :=
  match n with
  | O => st
  | S n' =>
      match ThreadPool.pop (ThreadPool.jobs (pool st)) with
      | Some (rest, f) =>
          let p := pool st in
          let st1 := with_pool (ThreadPool.Pool (ThreadPool.threads_active p)
                                  rest (ThreadPool.threads p)
                                  (ThreadPool.applied p)) st in
          work_off W n' (after (apply W 0 f) st1)
      | None => st
      end
  end.

(** An item of [list_playlists]. *)
Definition playlist_item (id title channel : string) (count : json) : json :=
  JObj [("id", JStr id);
        ("snippet", JObj [("title", JStr title);
                          ("channelTitle", JStr channel);
                          ("thumbnails", JObj [])]);
        ("contentDetails", JObj [("itemCount", count)])].

(** A page of [list_playlistitems]: the token of the next page and, for
    every item, its video id and title. *)
Definition page_json (next : string) (entries : list (string * string))
  : json :=
  JObj [("nextPageToken", JStr next);
        ("items", JArr (map (fun e => page_item e.1 e.2) entries))].

(** A collaborator that knows one playlist: it answers every call of
    [list_playlistitems] with the first [max_results] items, as [scrAPI]
    does, and fails every other call. *)
Definition one_playlist_world (entries : list (string * string)) : world :=
  World 60
    (fun _ c =>
       match c with
       | list_playlistitems _ _ max_results =>
           Ok (JObj [("nextPageToken", JNull);
                     ("items",
                      JArr (map (fun e => page_item e.1 e.2)
                                (take (Z.to_nat max_results) entries)))])
       | _ => Raise RemoteError
       end)
    first_resident.

(** Worker [i] goes through its locked section, and applies the job it
    holds, as moves on the state of the program. *)
Definition lock_move (i : nat) (st : state) : state :=
  match ThreadPool.worker_lock i (pool st) with
  | Some p => with_pool p st
  | None => st
  end.

Definition apply_move (W : world) (i fuel : nat) (st : state) : state :=
  match ThreadPool.threads (pool st) !! i with
  | Some (ThreadPool.Applying f) =>
      let st' := after (apply W fuel f) st in
      match ThreadPool.worker_applied i (pool st') with
      | Some p => with_pool p st'
      | None => st
      end
  | _ => st
  end.

(** A playlist is fetched, its [videos] are read, and a worker pops and
    applies the job. *)
Definition playlist_read (W : world) : state :=
  apply_move W 0 2
    (lock_move 0
       (after (serve W (req_read "videos" 0%nat))
          (after (serve W (req_get cPlaylist (JStr "PL"))) init_state))).

(** [r] is the [Video] instance for the page entry [e]. *)
Definition video_of (h : list obj) (r : ref) (e : string * string) : Prop :=
  exists o, h !! r = Some o /\ o_cls o = cVideo /\ o_id o = IStr e.1.

(** A playlist fetched and its [videos] read: the future is there, unset,
    and the job is in the queue. *)
Definition videos_requested (W : world) : state :=
  after (serve W (req_read "videos" 0%nat))
        (after (serve W (req_get cPlaylist (JStr "PL"))) init_state).

(** Three pages of which the collaborator fails the second. *)
Definition second_page_fails : world :=
  scripted_world [Ok (page_json "t2" [("a", "A"); ("b", "B")]);
                  Raise RemoteError;
                  Ok (page_json "" [("c", "C")])].

(** *** The invariant of the program *)

(** The value of [Video.thumbnails] for a video with the given id. *)
Definition thumbnails_of (id : pyid) : pyval :=
  VJson (JArr (map (Video.thumbnail_url id) ["mqdefault"; "hqdefault"])).

(** A resolved [video_count]: [None], or a number that is at most
    [max_videos]. *)
Definition count_ok (W : world) (v : pyval) : Prop :=
  v = pyNone
  \/ exists j n, v = VJson j /\ num_of j = Some n /\ n <= max_videos W.

(** A resolved [videos]: a list of at most [max_videos] instances. *)
Definition videos_ok (W : world) (v : pyval) : Prop :=
  exists l, v = VVideos l /\ Z.of_nat (length l) <= max_videos W.

(** The collaborator hands back at most as many playlist items as it was
    asked for. *)
Definition page_sized (W : world) : Prop :=
  forall n id page max_results data items,
    0 < max_results ->
    remote W n (list_playlistitems id page max_results) = Ok data ->
    subscript data "items" ≫= iter = Ok items ->
    Z.of_nat (length items) <= max_results.

(** What the program maintains of a future [f] found under [name] in an
    instance of class [c] with the given id. *)
Definition future_ok (W : world) (c : cls) (id : pyid) (name : string)
    (f : option pyval) : Prop :=
  (name = "_thumbnails" -> c = cVideo -> f = Some (thumbnails_of id))
  /\ (name = "_video_count" -> forall v, f = Some v -> count_ok W v)
  /\ (name = "_videos" -> forall v, f = Some v ->
      0 <= max_videos W -> page_sized W -> videos_ok W v).

Definition dict_ok (W : world) (c : cls) (id : pyid)
    (d : gmap string (option pyval)) : Prop :=
  forall name f, d !! name = Some f -> future_ok W c id name f.

Definition is_cls (h : list obj) (r : ref) (c : cls) : Prop :=
  exists o, h !! r = Some o /\ o_cls o = c.

(** Instances stay where they are, with their class and id. *)
Definition stable (h h' : list obj) : Prop :=
  forall (r : ref) o, h !! r = Some o ->
    exists o', h' !! r = Some o' /\ o_cls o' = o_cls o /\ o_id o' = o_id o.

(** A closure in the pool is applied to instances of its class. *)
Definition job_ok (h : list obj) (f : job) : Prop :=
  match f with
  | playlist_batch sublist => Forall (fun r => is_cls h r cPlaylist) sublist
  | _ => True
  end.

(** The jobs waiting in the queue or being applied. *)
Definition pending (p : ThreadPool.pool job) : list job :=
  ThreadPool.jobs p ++ ThreadPool.in_flight (ThreadPool.threads p).

(** The replacement policy picks a resident entry of a cache that is not
    empty. *)
Definition victim_resident (W : world) : Prop :=
  forall log (c : gmap (cls * hkey) ref),
    c <> ∅ -> is_Some (c !! victim W log c).

Record Inv (W : world) (st : state) : Prop := {
  inv_heap : forall (r : ref) o, heap st !! r = Some o ->
               dict_ok W (o_cls o) (o_id o) (o_dict o);
  inv_cache : forall c k (r : ref), cache st !! (c, k) = Some r ->
                exists o, heap st !! r = Some o /\ o_cls o = c
                          /\ key_of (o_id o) = k;
  inv_jobs : forall f, f ∈ pending (pool st) -> job_ok (heap st) f;
  inv_size : victim_resident W ->
             (size (cache st) <= Entry.cache_max_len)%nat
}.

(** A list that respects the bound of [videos]. *)
Definition within_max (W : world) (l : list ref) : Prop :=
  0 <= max_videos W -> page_sized W -> Z.of_nat (length l) <= max_videos W.

(** A computation that keeps the invariant, requires [Pre] of the heap
    and ensures [Post] of its result and the heap. *)
Definition keeps (W : world) {A} (Pre : list obj -> Prop) (m : M A)
    (Post : A -> list obj -> Prop) : Prop :=
  forall st st' r, Inv W st -> Pre (heap st) -> m st = (st', r) ->
    Inv W st' /\ forall a, r = Ok a -> Post a (heap st').

(** ** Vocabulary of the further properties *)

(** A computation that asks the collaborator nothing and hands no job to
    the pool. *)
Definition quiet {A} (m : M A) : Prop :=
  forall st st' r, m st = (st', r) ->
    calls st' = calls st /\ pool st' = pool st.

(** A future that is there and set. *)
Definition resolved (f : option (option pyval)) : Prop :=
  exists v, f = Some (Some v).

(** What an item of a [search] answer tells: whether it is a playlist, its
    id, its title, its channel and its thumbnails by size. *)
Record found := Found {
  f_playlist : bool;
  f_id : string;
  f_title : string;
  f_channel : string;
  f_thumbnails : list (string * string)
}.

(** The item, as the Data API gives it. *)
Definition search_item (e : found) : json :=
  JObj [("id",
         JObj (if f_playlist e
               then [("kind", JStr "youtube#playlist");
                     ("playlistId", JStr (f_id e))]
               else [("kind", JStr "youtube#video");
                     ("videoId", JStr (f_id e))]));
        ("snippet",
         JObj [("title", JStr (f_title e));
               ("thumbnails",
                JObj (map (fun t => (t.1, JObj [("url", JStr t.2)]))
                          (f_thumbnails e)));
               ("channelTitle", JStr (f_channel e))])].

Definition found_cls (e : found) : cls :=
  if f_playlist e then cPlaylist else cVideo.

(** [r] is the instance for the search item [e], with what [search] sets
    of it. *)
Definition entity_of (h : list obj) (r : ref) (e : found) : Prop :=
  exists o, h !! r = Some o
    /\ o_cls o = found_cls e /\ o_id o = IStr (f_id e)
    /\ resolved (o_dict o !! "_title")
    /\ resolved (o_dict o !! "_channel")
    /\ (f_playlist e = true -> resolved (o_dict o !! "_thumbnails")).

(** An answer to [search] with a video and a playlist. *)
Definition search_answer : list found :=
  [Found false "7uj0hOIm2kY" "A" "C" [("default", "u0"); ("high", "u1")];
   Found true "PL1" "B" "D" [("medium", "u2")]].

(** The fields a class loads in batches, and the closure it hands to the
    pool for a sublist. *)
Definition batch_fields (c : cls) : list string :=
  match c with
  | cVideo => Video.fields
  | cPlaylist => Playlist.fields
  end.

Definition batch_job (c : cls) : list ref -> job :=
  match c with
  | cVideo => video_batch
  | cPlaylist => playlist_batch
  end.

(** A video fetched by a consumer. *)
Definition one_video (W : world) : state :=
  after (serve W (req_get cVideo (JStr "7uj0hOIm2kY"))) init_state.

(** What the [audio_url] job leaves, given the outcome of [extract_info]:
    the result of the job and the future. *)
Definition audio_url_outcome (info : res json)
  : res unit * option (option pyval) :=
  match info with
  | Raise _ => (Ok tt, Some (Some pyNone))
  | Ok info =>
      match subscript info "url" with
      | Ok url => (Ok tt, Some (Some (VJson url)))
      | Raise e => (Raise e, Some None)
      end
  end.

(** The future a field is left with by [_set_api_data] when the value
    computed for it is [v]: the value it had if it was set, [v] otherwise. *)
Definition fill (v : pyval) (f : option (option pyval))
  : option (option pyval) :=
  match f with
  | Some (Some v0) => Some (Some v0)
  | _ => Some (Some v)
  end.

#[global] Instance pyid_eq_dec : EqDecision pyid.
Proof. solve_decision. Defined.

(** The entry of an answer that carries the id [i]. *)
Definition entry_of {A} (id_of : A -> string) (i : pyid) (entries : list A)
  : option A :=
  List.find (fun e => bool_decide (IStr (id_of e) = i)) entries.

(** What an item of a [list_videos] answer tells. *)
Record video_data := VideoData {
  v_id : string;
  v_title : string;
  v_channel : string;
  v_duration : string
}.

Definition video_json (e : video_data) : json :=
  video_item (v_id e) (v_title e) (v_channel e)
             [("duration", JStr (v_duration e))].

(** What an item of a [list_playlists] answer tells. *)
Record playlist_data := PlaylistData {
  p_id : string;
  p_title : string;
  p_channel : string;
  p_count : Z;
  p_thumbnails : list (string * string)
}.

Definition playlist_json (e : playlist_data) : json :=
  JObj [("id", JStr (p_id e));
        ("snippet",
         JObj [("title", JStr (p_title e));
               ("channelTitle", JStr (p_channel e));
               ("thumbnails",
                JObj (map (fun t => (t.1, JObj [("url", JStr t.2)]))
                          (p_thumbnails e)))]);
        ("contentDetails", JObj [("itemCount", JNum (p_count e))])].


(** An answer of a collaborator: a dict with the given items. *)
Definition answer (items : list json) : res json :=
  Ok (JObj [("items", JArr items)]).

(** The seconds of a duration, 0 when it has none. *)
Definition seconds_of (duration : string) : Z :=
  match duration_seconds (JStr duration) with
  | Ok n => n
  | Raise _ => 0
  end.

(** The value a [list_videos] answer holds for a field of the video with
    id [i]: taken from the entry with that id, [None] when there is none. *)
Definition video_value (entries : list video_data) (i : pyid) (k : string)
  : pyval :=
  match entry_of v_id i entries with
  | Some e =>
      if String.eqb k "title" then VJson (JStr (v_title e))
      else if String.eqb k "channel" then VJson (JStr (v_channel e))
      else VJson (JNum (seconds_of (v_duration e)))
  | None => pyNone
  end.


(** Two playlists handed to [Playlist.load_info] together. *)
Definition two_playlists (W : world) : state :=
  after (a ← Entry.get W cPlaylist (JStr "a");
         b ← Entry.get W cPlaylist (JStr "b");
         Playlist.load_info [a; b]) init_state.

(** An answer for the second of two videos only, and an answer for the
    second of two playlists only. *)
Definition answer_for_b : list video_data :=
  [VideoData "b" "B" "C" "PT1H2M10S"].

Definition answer_for_playlist_b : list playlist_data :=
  [PlaylistData "b" "B" "C" 85 [("default", "u0"); ("high", "u1")]].

(** The calls the [videos] job makes for a run of pages, given the token
    it starts with and the number of videos gathered before: each call
    carries the token of the page before it, and asks for what is missing
    to [limit], at most 50. *)
Fixpoint page_calls (limit : Z) (id : pyid) (tok : string) (len : nat)
    (pages : list (string * list (string * string))) : list call :=
  match pages with
  | [] => []
  | p :: pages' =>
      list_playlistitems id (JStr tok) (Z.min (limit - Z.of_nat len) 50)
      :: page_calls limit id p.1 (len + length p.2) pages'
  end.

(** [r] is the [Video] instance for the page entry [e], and its title is
    set. *)
Definition titled (h : list obj) (r : ref) (e : string * string) : Prop :=
  exists o, h !! r = Some o /\ o_cls o = cVideo /\ o_id o = IStr e.1
            /\ resolved (o_dict o !! "_title").

(** Two pages, the second without a token for a third. *)
Definition two_pages : world :=
  scripted_world [Ok (page_json "t2" [("a", "A"); ("b", "B")]);
                  Ok (page_json "" [("c", "C")])].

(** The collaborator never answers [list_playlistitems] with a token for a
    next page and no item at all. *)
Definition progressing (W : world) : Prop :=
  forall n id page max_results data,
    remote W n (list_playlistitems id page max_results) = Ok data ->
    subscript data "items" ≫= iter = Ok [] ->
    or_None <$> dict_get data "nextPageToken" = Ok JNull.

(** A collaborator that answers every call with an empty page and a token
    for the next. *)
Definition endless_world : world :=
  World 60 (fun _ _ => Ok (page_json "t" [])) first_resident.

(** ** The collaborators: [API] and [scrAPI]

    Both go through a [requests] session.  What the session and the
    pattern matcher give back is taken from outside: the patterns of
    [scrAPI] are not embedded, [re.finditer] is a parameter that gives the
    matches of a pattern in a text, each by the named groups that took part
    in it. *)

(** One [session.get(url, params=query)]. *)
Record http_get := HttpGet {
  url : string;
  params : list (string * json)
}.

Inductive pattern :=
| re_search
| re_list_videos
| re_list_playlists
| re_list_playlistitems.

Definition rmatch : Type := list (string * string).

(** [match.group(name)]: [None] for a group that took no part. *)
Fixpoint group (m : rmatch) (name : string) : option string :=
  match m with
  | [] => None
  | (k, v) :: m' => if String.eqb name k then Some v else group m' name
  end.

(** What the module is configured with and what surrounds it:
    [api_enabled], [API.key] and [API.search_results]; the answer of the
    session to the [k]-th request of the [n]-th call of a collaborator,
    read as JSON ([result.json()]) or as text ([result.text]);
    [re.finditer]; and [youtube_dl]'s [extract_info]. *)
Record site := Site {
  api_enabled : bool;
  api_key : string;
  api_search_results : Z;
  session_json : nat -> nat -> http_get -> res json;
  session_text : nat -> nat -> http_get -> res string;
  finditer : pattern -> string -> list rmatch;
  extract : nat -> pyid -> res json
}.

(** A value of Python as JSON: an id, and a group of a match. *)
Definition json_of_id (i : pyid) : json :=
  match i with
  | INone => JNull
  | IBool b => JBool b
  | IInt n => JNum n
  | IStr s => JStr s
  end.

Definition json_of_group (g : option string) : json :=
  match g with
  | Some s => JStr s
  | None => JNull
  end.

(** [a + g + b] for strings [a], [b] and a group [g]: a [None] cannot be
    concatenated. *)
Definition concat_group (a : string) (g : option string) (b : string)
  : res string :=
  match g with
  | Some s => Ok (a +:+ s +:+ b)
  | None => Raise TypeError
  end.

(** [map] with a function that may raise. *)
Fixpoint map_res {A B} (f : A -> res B) (l : list A) : res (list B) :=
  match l with
  | [] => Ok []
  | a :: l' => b ← f a; bs ← map_res f l'; Ok (b :: bs)
  end.

Module API.

Definition endpoint : string := "https://www.googleapis.com/youtube/v3/".

(** [','.join(ids)]: every element has to be a string. *)
Fixpoint str_join (sep : string) (ids : list pyid) : res string :=
  match ids with
  | [] => Ok ""
  | i :: ids' =>
      match i with
      | IStr s =>
          match ids' with
          | [] => Ok s
          | _ => rest ← str_join sep ids'; Ok (s +:+ sep +:+ rest)
          end
      | _ => Raise TypeError
      end
  end.

(** Each function gives the requests it has made and its result. *)
Definition search (Y : site) (n : nat) (q : string)
  : list http_get * res json :=
  let query :=
    [("part", JStr "id,snippet");
     ("fields", JStr "items(id,snippet(title,thumbnails,channelTitle))");
     ("maxResults", JNum (api_search_results Y));
     ("type", JStr "video,playlist");
     ("q", JStr q);
     ("key", JStr (api_key Y))] in
  let req := HttpGet (endpoint +:+ "search") query in
  ([req], session_json Y n 0 req).

Definition list_videos (Y : site) (n : nat) (ids : list pyid)
  : list http_get * res json :=
  match str_join "," ids with
  | Raise e => ([], Raise e)
  | Ok joined =>
      let query :=
        [("part", JStr "id,snippet,contentDetails");
         ("fields", JStr ("items(id,snippet(title,channelTitle),"
                          +:+ "contentDetails(duration))"));
         ("id", JStr joined);
         ("key", JStr (api_key Y))] in
      let req := HttpGet (endpoint +:+ "videos") query in
      ([req], session_json Y n 0 req)
  end.

Definition list_playlists (Y : site) (n : nat) (ids : list pyid)
  : list http_get * res json :=
  match str_join "," ids with
  | Raise e => ([], Raise e)
  | Ok joined =>
      let query :=
        [("part", JStr "id,snippet,contentDetails");
         ("fields", JStr ("items(id,snippet(title,thumbnails,channelTitle),"
                          +:+ "contentDetails(itemCount))"));
         ("id", JStr joined);
         ("key", JStr (api_key Y))] in
      let req := HttpGet (endpoint +:+ "playlists") query in
      ([req], session_json Y n 0 req)
  end.

Definition list_playlistitems (Y : site) (n : nat) (id : pyid) (page : json)
    (max_results : Z) : list http_get * res json :=
  let query :=
    [("part", JStr "id,snippet");
     ("fields", JStr ("nextPageToken,"
                      +:+ "items(snippet(title,resourceId(videoId)))"));
     ("maxResults", JNum max_results);
     ("playlistId", json_of_id id);
     ("key", JStr (api_key Y));
     ("pageToken", page)] in
  let req := HttpGet (endpoint +:+ "playlistItems") query in
  ([req], session_json Y n 0 req).

End API.

Module scrAPI.

Definition endpoint : string := "https://www.youtube.com/".

(** [q.replace(' ', '+')]. *)
Fixpoint replace_spaces (q : string) : string :=
  match q with
  | String c q' =>
      String (if Ascii.eqb c " " then "+"%char else c) (replace_spaces q')
  | EmptyString => EmptyString
  end.

(** [item.update({k: v})] on the members of a dict. *)
Fixpoint update (k : string) (v : json) (members : list (string * json))
  : list (string * json) :=
  match members with
  | [] => [(k, v)]
  | (k', v') :: rest =>
      if String.eqb k k' then (k, v) :: rest else (k', v') :: update k v rest
  end.

(** [duration += match.group(g) + X] when the group is not [None]. *)
Definition add_duration (duration : string) (g : option string) (X : string)
  : string :=
  match g with
  | Some s => duration +:+ (s +:+ X)
  | None => duration
  end.

(** The body of the loop of [search], for one match. *)
Definition search_match (m : rmatch) : res json :=
  let duration := "" in
  let duration := add_duration duration (group m "durationHours") "H" in
  let duration := add_duration duration (group m "durationMinutes") "M" in
  let duration := add_duration duration (group m "durationSeconds") "S" in
  let item :=
    match group m "playlist" with
    | Some playlist =>
        [("id", JObj [("kind", JStr "youtube#playlist");
                      ("playlistId", JStr playlist)])]
    | None =>
        [("id", JObj [("kind", JStr "youtube#video");
                      ("videoId", json_of_group (group m "id"))])]
    end in
  let item :=
    if String.eqb duration "" then item
    else update "contentDetails"
                (JObj [("duration", JStr ("PT" +:+ duration))]) item in
  let item :=
    match group m "itemCount" with
    | Some count =>
        update "contentDetails" (JObj [("itemCount", JStr count)]) item
    | None => item
    end in
  thumbnail ← concat_group "https://i.ytimg.com/vi/" (group m "id")
                           "/default.jpg";
  Ok (JObj (update "snippet"
              (JObj [("title", json_of_group (group m "title"));
                     ("thumbnails",
                      JObj [("default",
                             JObj [("url", JStr thumbnail);
                                   ("width", JNum 120);
                                   ("height", JNum 90)])]);
                     ("channelTitle", json_of_group (group m "uploader"))])
              item)).

(** [json.loads(json.dumps(d))] gives back the dict. *)
Definition search (Y : site) (n : nat) (q : string)
  : list http_get * res json :=
  let query := [("search_query", JStr (replace_spaces q))] in
  let req := HttpGet (endpoint +:+ "results") query in
  ([req],
   text ← session_text Y n 0 req;
   items ← map_res search_match (finditer Y re_search text);
   Ok (JObj [("items", JArr items)])).

(** The item of [list_videos] for one match on the page of [id]. *)
Definition video_match (id : pyid) (m : rmatch) : json :=
  JObj [("id", json_of_id id);
        ("snippet",
         JObj [("title", json_of_group (group m "title"));
               ("channelTitle", json_of_group (group m "channelTitle"))]);
        ("contentDetails",
         JObj [("duration", json_of_group (group m "duration"))])].

(** The loop over [ids] of [list_videos], from the [k]-th request on. *)
Fixpoint watch_pages (Y : site) (n k : nat) (ids : list pyid)
  : list http_get * res (list json) :=
  match ids with
  | [] => ([], Ok [])
  | id :: ids' =>
      let req := HttpGet (endpoint +:+ "watch") [("v", json_of_id id)] in
      match session_text Y n k req with
      | Raise e => ([req], Raise e)
      | Ok text =>
          let items := map (video_match id) (finditer Y re_list_videos text) in
          let (reqs, rest) := watch_pages Y n (S k) ids' in
          (req :: reqs, (fun rest => items ++ rest) <$> rest)
      end
  end.

Definition list_videos (Y : site) (n : nat) (ids : list pyid)
  : list http_get * res json :=
  let (reqs, items) := watch_pages Y n 0 ids in
  (reqs, (fun items => JObj [("items", JArr items)]) <$> items).

(** The item of [list_playlists] for one match on the page of [id]. *)
Definition playlist_match (id : pyid) (m : rmatch) : res json :=
  thumbnail ← concat_group "" (group m "thumbnail") "default.jpg";
  Ok (JObj [("id", json_of_id id);
            ("snippet",
             JObj [("title", json_of_group (group m "title"));
                   ("channelTitle", json_of_group (group m "channelTitle"));
                   ("thumbnails",
                    JObj [("default",
                           JObj [("url", JStr thumbnail);
                                 ("width", JNum 120);
                                 ("height", JNum 90)])])]);
            ("contentDetails",
             JObj [("itemCount", json_of_group (group m "itemCount"))])]).

Fixpoint playlist_pages (Y : site) (n k : nat) (ids : list pyid)
  : list http_get * res (list json) :=
  match ids with
  | [] => ([], Ok [])
  | id :: ids' =>
      let req := HttpGet (endpoint +:+ "playlist") [("list", json_of_id id)] in
      match session_text Y n k req with
      | Raise e => ([req], Raise e)
      | Ok text =>
          match map_res (playlist_match id)
                        (finditer Y re_list_playlists text) with
          | Raise e => ([req], Raise e)
          | Ok items =>
              let (reqs, rest) := playlist_pages Y n (S k) ids' in
              (req :: reqs, (fun rest => items ++ rest) <$> rest)
          end
      end
  end.

Definition list_playlists (Y : site) (n : nat) (ids : list pyid)
  : list http_get * res json :=
  let (reqs, items) := playlist_pages Y n 0 ids in
  (reqs, (fun items => JObj [("items", JArr items)]) <$> items).

(** [islice(it, stop)]: the first [stop] elements; a negative [stop] is
    refused ([ValueError], which stands here as an error of the
    collaborator). *)
Definition islice {A} (l : list A) (stop : Z) : res (list A) :=
  if stop <? 0 then Raise RemoteError else Ok (take (Z.to_nat stop) l).

Definition playlistitem_match (m : rmatch) : json :=
  JObj [("snippet",
         JObj [("resourceId",
                JObj [("videoId", json_of_group (group m "id"))]);
               ("title", json_of_group (group m "title"))])].

Definition list_playlistitems (Y : site) (n : nat) (id : pyid) (page : json)
    (max_results : Z) : list http_get * res json :=
  let req := HttpGet (endpoint +:+ "playlist") [("list", json_of_id id)] in
  ([req],
   text ← session_text Y n 0 req;
   ms ← islice (finditer Y re_list_playlistitems text) max_results;
   Ok (JObj [("nextPageToken", JNull);
             ("items", JArr (map playlistitem_match ms))])).

End scrAPI.

(** The requests and the result of a call of the collaborator that
    [api_enabled] selects, and of the extractor. *)
Definition perform (Y : site) (n : nat) (c : call)
  : list http_get * res json :=
  match c with
  | search q =>
      if api_enabled Y then API.search Y n q else scrAPI.search Y n q
  | list_videos ids =>
      if api_enabled Y then API.list_videos Y n ids
      else scrAPI.list_videos Y n ids
  | list_playlists ids =>
      if api_enabled Y then API.list_playlists Y n ids
      else scrAPI.list_playlists Y n ids
  | list_playlistitems id page max_results =>
      if api_enabled Y then API.list_playlistitems Y n id page max_results
      else scrAPI.list_playlistitems Y n id page max_results
  | extract_info id => ([], extract Y n id)
  end.

(** The world a site makes. *)
Definition site_world (max_videos : Z) (Y : site)
    (victim : list (cls * hkey) -> gmap (cls * hkey) ref -> cls * hkey)
  : world :=
  World max_videos (fun n c => (perform Y n c).2) victim.

(** Sites for the examples.  A scraped site: every page is fetched, and
    every pattern finds the given matches in it.  A site of the Data API:
    the [n]-th call is answered from a script. *)
Definition scraped_site (found : pattern -> list rmatch) : site :=
  Site false "none" 15
       (fun _ _ _ => Raise RemoteError)
       (fun _ _ _ => Ok "")
       (fun p _ => found p)
       (fun _ _ => Raise RemoteError).

Definition api_site (answers : list (res json)) : site :=
  Site true "none" 15
       (fun n _ _ => default (Raise RemoteError) (answers !! n))
       (fun _ _ _ => Raise RemoteError)
       (fun _ _ => [])
       (fun _ _ => Raise RemoteError).

(** A scraped playlist page with three videos, and a scraped page of a
    playlist with its header. *)
Definition three_items (p : pattern) : list rmatch :=
  match p with
  | re_list_playlistitems =>
      [[("title", "A"); ("id", "a")];
       [("title", "B"); ("id", "b")];
       [("title", "C"); ("id", "c")]]
  | re_list_playlists =>
      [[("thumbnail", "https://i.ytimg.com/vi/a/"); ("title", "P");
        ("channelTitle", "C"); ("itemCount", "12")]]
  | _ => []
  end.

(** The request of [API.list_videos] for ids that are joined already. *)
Definition videos_request (Y : site) (joined : string) : http_get :=
  HttpGet (API.endpoint +:+ "videos")
          [("part", JStr "id,snippet,contentDetails");
           ("fields", JStr ("items(id,snippet(title,channelTitle),"
                            +:+ "contentDetails(duration))"));
           ("id", JStr joined);
           ("key", JStr (api_key Y))].

(** The request of [scrAPI.list_videos] for one id. *)
Definition watch_request (id : pyid) : http_get :=
  HttpGet (scrAPI.endpoint +:+ "watch") [("v", json_of_id id)].

(** A video fetched under the id 42, and handed to [Video.load_info]. *)
Definition numbered_video (W : world) : state :=
  after (v ← Entry.get W cVideo (JNum 42); Video.load_info [v]) init_state.

(** The request of [scrAPI.search]. *)
Definition results_request (q : string) : http_get :=
  HttpGet (scrAPI.endpoint +:+ "results")
          [("search_query", JStr (scrAPI.replace_spaces q))].

(** The class and the id of the instance that [search] makes for a match
    of the results page. *)
Definition match_cls (m : rmatch) : cls :=
  if group m "playlist" is Some _ then cPlaylist else cVideo.

Definition match_id (m : rmatch) : string :=
  match group m "playlist" with
  | Some playlist => playlist
  | None => default "" (group m "id")
  end.

(** [r] is the instance for the match [m], with what [search] sets of
    it. *)
Definition scraped_entity (h : list obj) (r : ref) (m : rmatch) : Prop :=
  exists o, h !! r = Some o
    /\ o_cls o = match_cls m /\ o_id o = IStr (match_id m)
    /\ resolved (o_dict o !! "_title")
    /\ resolved (o_dict o !! "_channel")
    /\ (match_cls m = cPlaylist -> resolved (o_dict o !! "_thumbnails")).

(** A results page with a video and a playlist. *)
Definition two_results (p : pattern) : list rmatch :=
  match p with
  | re_search =>
      [[("id", "7uj0hOIm2kY"); ("title", "A"); ("durationMinutes", "4");
        ("durationSeconds", "13"); ("uploader", "C")];
       [("id", "cF9z1b5HL7M"); ("playlist", "PL1"); ("title", "B");
        ("itemCount", "12")]]
  | _ => []
  end.

(** [load_info] of a class. *)
Definition load_info_of (c : cls) : list ref -> M unit :=
  match c with
  | cVideo => Video.load_info
  | cPlaylist => Playlist.load_info
  end.

(** Every instance of [lst] has a future for every field. *)
Definition all_futures (fields : list string) (lst : list ref)
    (h : list obj) : Prop :=
  forall (r : ref) o k, r ∈ lst -> h !! r = Some o -> k ∈ fields ->
    is_Some (o_dict o !! Entry.future_name k).

(** * Properties *)

(** ** ThreadPool: the count of active workers *)

Module ThreadPoolFacts.
Import ThreadPool.

Section Facts.
Context {J : Type}.
Implicit Types (p q : pool J) (t : thread J) (ts : list (thread J)).

Lemma pop_nil_inv (l : list J) : pop l = None -> l = [].
Proof.
  unfold pop. destruct (last l) eqn:E; [discriminate|].
  intros _. by apply last_None in E.
Qed.

Lemma pop_snoc_inv (l rest : list J) f :
  pop l = Some (rest, f) -> l = rest ++ [f].
Proof.
  unfold pop. destruct (last l) as [x|] eqn:E; [|discriminate].
  intros [= <- <-]. apply last_Some in E as [l' ->].
  by rewrite removelast_last.
Qed.

Lemma pool_inv_init : pool_inv (@init J).
Proof. unfold pool_inv, init, threads_max; simpl. split_and!; [done|lia|done]. Qed.

Lemma pool_inv_run f p : pool_inv p -> pool_inv (run f p).
Proof.
  unfold pool_inv, run. intros (Hc & Hmax & Hjobs).
  destruct (Z.ltb_spec (threads_active p) threads_max); simpl.
  - rewrite length_app; simpl. split_and!; try lia.
  - split_and!; try lia. intros _. unfold threads_max in *. lia.
Qed.

Lemma pool_inv_worker p q : pool_inv p -> worker_step p q -> pool_inv q.
Proof.
  unfold pool_inv. intros (Hc & Hmax & Hjobs) Hs.
  inversion Hs as [i p0 p' H|i p0 p' H]; subst p0 p'.
  - unfold worker_lock in H.
    destruct (threads p !! i) as [[|f]|] eqn:Ei; try discriminate.
    destruct (pop (jobs p)) as [[rest f]|] eqn:Ep; inversion H; subst; simpl.
    + rewrite length_insert. apply pop_snoc_inv in Ep.
      split_and!; try lia. intros _. apply Hjobs. rewrite Ep.
      by destruct rest.
    + apply pop_nil_inv in Ep.
      rewrite length_delete by eauto. apply lookup_lt_Some in Ei.
      split_and!; try lia. by rewrite Ep.
  - unfold worker_applied in H.
    destruct (threads p !! i) as [[|f]|] eqn:Ei; try discriminate.
    inversion H; subst; simpl. rewrite length_insert. done.
Qed.

Lemma pool_inv_reachable p : reachable p -> pool_inv p.
Proof.
  induction 1 as [|p p' _ IH Hstep].
  - apply pool_inv_init.
  - inversion Hstep as [f p0|p0 p1 Hw]; subst.
    + by apply pool_inv_run.
    + by eapply pool_inv_worker.
Qed.

(** A live thread can always move: an idle pool has no thread left. *)
Lemma idle_no_thread p : idle p -> threads p = [].
Proof.
  intros Hidle. destruct (threads p) as [|t ts] eqn:Et; [done|].
  exfalso. destruct t as [|f].
  - destruct (worker_lock 0 p) as [q|] eqn:E.
    + eapply Hidle. by eapply (step_lock 0).
    + unfold worker_lock in E. rewrite Et in E. simpl in E.
      by destruct (pop (jobs p)) as [[??]|].
  - eapply Hidle. eapply (step_applied 0). unfold worker_applied.
    rewrite Et. simpl. done.
Qed.

Lemma idle_drained p :
  pool_inv p -> idle p -> threads_active p = 0 /\ jobs p = [].
Proof.
  intros (Hc & _ & Hjobs) Hidle. apply idle_no_thread in Hidle.
  rewrite Hidle in Hc. simpl in Hc. split; [done|].
  destruct (jobs p); [done|]. exfalso. assert (0 < threads_active p) by by apply Hjobs.
  lia.
Qed.

Lemma owed_insert ts i t t' :
  ts !! i = Some t ->
  (sum_list (map owed (<[i := t']> ts)) + owed t
   = sum_list (map owed ts) + owed t')%nat.
Proof.
  revert i. induction ts as [|a ts IH]; intros [|i] H; simpl in *; try done.
  - inversion H; subst. lia.
  - specialize (IH i H). lia.
Qed.

Lemma owed_delete ts i t :
  ts !! i = Some t ->
  (sum_list (map owed (delete i ts)) + owed t = sum_list (map owed ts))%nat.
Proof.
  revert i. induction ts as [|a ts IH]; intros [|i] H; simpl in *; try done.
  - inversion H; subst. lia.
  - specialize (IH i H). lia.
Qed.

(** Every move of a worker uses up some of the work owed. *)
Lemma worker_step_work p q : worker_step p q -> (work q < work p)%nat.
Proof.
  intros Hs. inversion Hs as [i p0 p' H|i p0 p' H]; subst p0 p'; unfold work.
  - unfold worker_lock in H.
    destruct (threads p !! i) as [[|f]|] eqn:Ei; try discriminate.
    destruct (pop (jobs p)) as [[rest f]|] eqn:Ep; inversion H; subst; simpl.
    + apply pop_snoc_inv in Ep. rewrite Ep, length_app. simpl.
      pose proof (owed_insert _ _ _ (Applying f) Ei). simpl in *. lia.
    + pose proof (owed_delete _ _ _ Ei). simpl in *. lia.
  - unfold worker_applied in H.
    destruct (threads p !! i) as [[|f]|] eqn:Ei; try discriminate.
    inversion H; subst; simpl.
    pose proof (owed_insert _ _ _ (@AtLoop J) Ei). simpl in *. lia.
Qed.

Lemma in_flight_insert_applying ts i f :
  ts !! i = Some AtLoop ->
  in_flight (<[i := Applying f]> ts) ≡ₚ f :: in_flight ts.
Proof.
  revert i. induction ts as [|a ts IH]; intros [|i] H; simpl in *; try done.
  - by inversion H; subst.
  - unfold in_flight in *. simpl. destruct a; simpl.
    + by apply IH.
    + rewrite (IH i H). apply Permutation_swap.
Qed.

Lemma in_flight_insert_atloop ts i f :
  ts !! i = Some (Applying f) ->
  f :: in_flight (<[i := AtLoop]> ts) ≡ₚ in_flight ts.
Proof.
  revert i. induction ts as [|a ts IH]; intros [|i] H; simpl in *; try done.
  - by inversion H; subst.
  - unfold in_flight in *. simpl. destruct a; simpl.
    + by apply IH.
    + rewrite <- (IH i H). apply Permutation_swap.
Qed.

Lemma in_flight_delete ts i :
  ts !! i = Some AtLoop -> in_flight (delete i ts) = in_flight ts.
Proof.
  revert i. induction ts as [|a ts IH]; intros [|i] H; simpl in *; try done.
  - by inversion H; subst.
  - unfold in_flight in *. simpl. by rewrite (IH i H).
Qed.

(** The workers lose no job and invent none. *)
Lemma worker_step_submitted p q :
  worker_step p q -> submitted q ≡ₚ submitted p.
Proof.
  intros Hs. inversion Hs as [i p0 p' H|i p0 p' H]; subst p0 p'; unfold submitted.
  - unfold worker_lock in H.
    destruct (threads p !! i) as [[|f]|] eqn:Ei; try discriminate.
    destruct (pop (jobs p)) as [[rest f]|] eqn:Ep; inversion H; subst; simpl.
    + apply pop_snoc_inv in Ep. rewrite Ep.
      rewrite (in_flight_insert_applying _ _ f Ei).
      apply Permutation_app_head. simpl.
      rewrite (Permutation_app_comm rest [f]). simpl.
      by rewrite Permutation_middle.
    + by rewrite (in_flight_delete _ _ Ei).
  - unfold worker_applied in H.
    destruct (threads p !! i) as [[|f]|] eqn:Ei; try discriminate.
    inversion H; subst; simpl.
    rewrite <- (in_flight_insert_atloop _ _ f Ei).
    rewrite <- !app_assoc. simpl. done.
Qed.

Lemma worker_steps_inv n p q :
  nsteps worker_step n p q ->
  pool_inv p ->
  pool_inv q /\ (n + work q <= work p)%nat /\ submitted q ≡ₚ submitted p.
Proof.
  induction 1 as [p|n p p' q Hs _ IH]; intros Hinv.
  - split_and!; [done|lia|done].
  - destruct (IH (pool_inv_worker _ _ Hinv Hs)) as (Hq & Hw & Hsub).
    apply worker_step_work in Hs as Hlt.
    split_and!; [done|lia|]. by rewrite Hsub, (worker_step_submitted _ _ Hs).
Qed.

Lemma schedule_step p q : schedule p = Some q -> worker_step p q.
Proof.
  unfold schedule. destruct (worker_lock 0 p) eqn:E.
  - intros [= <-]. by eapply step_lock.
  - intros H. by eapply step_applied.
Qed.

Lemma schedule_None_idle p : schedule p = None -> idle p.
Proof.
  unfold schedule. intros H q Hq.
  assert (threads p = []) as Hnil.
  { destruct (threads p) as [|t ts] eqn:Et; [done|]. exfalso.
    unfold worker_lock, worker_applied in H. rewrite Et in H. simpl in H.
    destruct t; [by destruct (pop (jobs p)) as [[??]|]|done]. }
  inversion Hq as [i p0 p' Hq'|i p0 p' Hq']; subst p0 p'.
  - unfold worker_lock in Hq'. by rewrite Hnil in Hq'.
  - unfold worker_applied in Hq'. by rewrite Hnil in Hq'.
Qed.

Lemma drain_steps fuel p :
  exists n, nsteps worker_step n p (drain fuel p).
Proof.
  revert p. induction fuel as [|fuel IH]; intros p; simpl.
  - exists 0%nat. constructor.
  - destruct (schedule p) as [q|] eqn:E.
    + destruct (IH q) as [n Hn]. exists (S n).
      econstructor; [by apply schedule_step|done].
    + exists 0%nat. constructor.
Qed.

Lemma drain_idle fuel p : (work p <= fuel)%nat -> idle (drain fuel p).
Proof.
  revert p. induction fuel as [|fuel IH]; intros p Hw; simpl.
  - destruct (schedule p) as [q|] eqn:E; [|by apply schedule_None_idle].
    apply schedule_step, worker_step_work in E. lia.
  - destruct (schedule p) as [q|] eqn:E; [|by apply schedule_None_idle].
    apply IH. apply schedule_step, worker_step_work in E. lia.
Qed.

(** Only the exit of a worker changes the count: a move of a worker either
    takes one off the count, removes that thread and found no job, or
    leaves count and threads as many as they were. *)
Lemma worker_step_count p q :
  worker_step p q ->
  (threads_active q = threads_active p - 1
   /\ S (length (threads q)) = length (threads p) /\ jobs p = [])
  \/ (threads_active q = threads_active p
      /\ length (threads q) = length (threads p)).
Proof.
  intros Hs. inversion Hs as [i p0 p' H|i p0 p' H]; subst p0 p'.
  - unfold worker_lock in H.
    destruct (threads p !! i) as [[|f]|] eqn:Ei; try discriminate.
    destruct (pop (jobs p)) as [[rest f]|] eqn:Ep; inversion H; subst; simpl.
    + right. by rewrite length_insert.
    + left. apply pop_nil_inv in Ep. rewrite length_delete by eauto.
      apply lookup_lt_Some in Ei. split_and!; [done|lia|done].
  - unfold worker_applied in H.
    destruct (threads p !! i) as [[|f]|] eqn:Ei; try discriminate.
    inversion H; subst; simpl. right. by rewrite length_insert.
Qed.

(** C9: in every reachable state of the pool the count of active workers
    lies between 0 and [threads_max] and is the number of worker threads
    alive; [run] starts a worker exactly when the count is below the
    maximum; a worker's move changes the count only by the one decrement of
    its exit on an empty queue; and once no more job is handed in, the
    workers stop after at most [work p] moves, in a pool whose count is 0,
    whose queue is empty and in which every submitted job has been
    applied. *)
Theorem threads_active_bounded p :
  reachable p ->
  0 <= threads_active p <= threads_max
  /\ threads_active p = Z.of_nat (length (threads p))
  /\ (forall f, threads (run f p)
                = if threads_active p <? threads_max
                  then threads p ++ [AtLoop] else threads p)
  /\ (forall q, worker_step p q ->
        (threads_active q = threads_active p - 1
         /\ S (length (threads q)) = length (threads p) /\ jobs p = [])
        \/ (threads_active q = threads_active p
            /\ length (threads q) = length (threads p)))
  /\ (forall n q, nsteps worker_step n p q ->
        (n <= work p)%nat
        /\ (idle q ->
            threads_active q = 0 /\ jobs q = []
            /\ applied q ≡ₚ submitted p))
  /\ (exists n, nsteps worker_step n p (drain (work p) p))
  /\ idle (drain (work p) p).
Proof.
  intros Hr. pose proof (pool_inv_reachable _ Hr) as Hinv.
  pose proof Hinv as (Hc & Hmax & Hjobs).
  split_and!.
  - lia.
  - done.
  - done.
  - intros f. unfold run. by destruct (threads_active p <? threads_max).
  - apply worker_step_count.
  - intros n q Hn. destruct (worker_steps_inv _ _ _ Hn Hinv) as (Hq & Hw & Hsub).
    split; [lia|]. intros Hidle.
    destruct (idle_drained _ Hq Hidle) as [H0 Hj].
    split_and!; [done..|]. rewrite <- Hsub. unfold submitted.
    rewrite (idle_no_thread _ Hidle), Hj. simpl. by rewrite app_nil_r.
  - apply drain_steps.
  - by apply drain_idle.
Qed.

End Facts.

(** Two jobs handed to a fresh pool. *)
Lemma threads_active_bounded_witness :
  0 <= threads_active (run 7%nat (run 5%nat init)) <= threads_max.
Proof.
  apply (threads_active_bounded (run 7%nat (run 5%nat init))).
  apply (reach_step (run 5%nat init)).
  - apply (reach_step init); [apply reach_init | apply step_run].
  - apply step_run.
Defined.

End ThreadPoolFacts.

(** ** The duration pattern *)

Section Duration.

Lemma append_String c s t : String c s +:+ t = String c (s +:+ t).
Proof. reflexivity. Qed.

Lemma append_nil_r s : s +:+ EmptyString = s.
Proof.
  induction s as [|c s IH]; [done|]. by rewrite append_String, IH.
Qed.

Lemma span_digits_numeral ds c rest :
  all_digits ds = true -> is_digit c = false ->
  span_digits (ds +:+ String c rest) = (ds, String c rest).
Proof.
  induction ds as [|d ds IH]; intros Hds Hc.
  - change (EmptyString +:+ String c rest) with (String c rest).
    simpl. by rewrite Hc.
  - rewrite append_String. simpl in *.
    apply andb_prop in Hds as [Hd Hds]. by rewrite Hd, IH.
Qed.

Lemma opt_group_present X ds rest :
  numeral ds -> is_digit X = false ->
  opt_group X (ds +:+ String X rest) = (Some ds, rest).
Proof.
  intros [Hne Hds] HX. unfold opt_group.
  rewrite span_digits_numeral by done.
  destruct ds; [done|]. by rewrite Ascii.eqb_refl.
Qed.

Lemma opt_group_other X Y ds rest :
  all_digits ds = true -> is_digit Y = false -> X <> Y ->
  opt_group X (ds +:+ String Y rest) = (None, ds +:+ String Y rest).
Proof.
  intros Hds HY Hne. unfold opt_group.
  rewrite span_digits_numeral by done.
  destruct ds; [done|].
  destruct (Ascii.eqb_spec Y X); [congruence|done].
Qed.

Lemma opt_group_empty X : opt_group X EmptyString = (None, EmptyString).
Proof. done. Qed.

Lemma append_String_assoc ds X rest :
  (ds +:+ String X EmptyString) +:+ rest = ds +:+ String X rest.
Proof.
  induction ds as [|d ds IH]; [done|]. by rewrite !append_String, IH.
Qed.

(** On ['PT#H#M#S'] with any of the three components left out, the
    pattern finds exactly the components that are there, and the seconds
    are their weighted sum. *)
Lemma duration_seconds_components hours minutes seconds :
  (forall ds, hours = Some ds -> numeral ds) ->
  (forall ds, minutes = Some ds -> numeral ds) ->
  (forall ds, seconds = Some ds -> numeral ds) ->
  duration_seconds (JStr (duration_of hours minutes seconds))
  = Ok (int_group hours * 3600 + int_group minutes * 60 + int_group seconds).
Proof.
  intros Hh Hm Hs. unfold duration_seconds, duration_of.
  change ("PT" +:+ ?r) with (String "P" (String "T" r)).
  change (search_PT (String "P" (String "T" ?r))) with (Some r).
  assert (forall X Y g rest, (forall ds, g = Some ds -> numeral ds) ->
            is_digit Y = false -> X <> Y ->
            opt_group X (component g Y +:+ rest)
            = (None, component g Y +:+ rest) \/ g = None) as Hskip.
  { intros X Y [ds|] rest Hg HY Hne; [left|by right]. simpl.
    rewrite append_String_assoc. apply opt_group_other; [|done..].
    by destruct (Hg ds eq_refl). }
  assert (forall X g rest, (forall ds, g = Some ds -> numeral ds) ->
            is_digit X = false ->
            (g = None -> opt_group X rest = (None, rest)) ->
            opt_group X (component g X +:+ rest) = (g, rest)) as Htake.
  { intros X [ds|] rest Hg HX Hrest; simpl.
    - rewrite append_String_assoc. apply opt_group_present; [|done].
      by apply Hg.
    - by apply Hrest. }
  assert (opt_group "S" (component seconds "S" +:+ EmptyString)
          = (seconds, EmptyString)) as HS.
  { apply Htake; [done..|]. intros _. apply opt_group_empty. }
  assert (forall X, X <> "S"%char ->
            opt_group X (component seconds "S")
            = (None, component seconds "S")) as HnoS.
  { intros X HX. destruct seconds as [ds|]; [|done]. simpl.
    apply opt_group_other; [|done..]. by destruct (Hs ds eq_refl). }
  assert (component seconds "S" +:+ EmptyString = component seconds "S")
    as Hnil.
  { apply append_nil_r. }
  rewrite Hnil in HS.
  assert (opt_group "M" (component minutes "M" +:+ component seconds "S")
          = (minutes, component seconds "S")) as HM.
  { apply Htake; [done..|]. intros _. by apply HnoS. }
  assert (opt_group "H" (component hours "H" +:+ component minutes "M"
                                            +:+ component seconds "S")
          = (hours, component minutes "M" +:+ component seconds "S")) as HH.
  { apply Htake; [done..|]. intros _.
    destruct (Hskip "H"%char "M"%char minutes (component seconds "S") Hm)
      as [E|E]; [done..|].
    subst minutes. simpl. by apply HnoS. }
  cbv beta iota. by rewrite HH, HM, HS.
Qed.

(** The three durations the specification names. *)
Example duration_PT1H2M10S : duration_seconds (JStr "PT1H2M10S") = Ok 3730.
Proof. reflexivity. Qed.

Example duration_PT5M : duration_seconds (JStr "PT5M") = Ok 300.
Proof. reflexivity. Qed.

Example duration_PT10S : duration_seconds (JStr "PT10S") = Ok 10.
Proof. reflexivity. Qed.

End Duration.

(** ** Futures under [_set_api_data] and [_add_futures] *)

Section Futures.
Context (W : world).
Implicit Types (d : gmap string (option pyval)) (P : string -> Prop).
Implicit Types (h : list obj) (o : obj) (st : state) (r : ref).

Lemma dict_grows_refl P d : dict_grows P d d.
Proof. intros name. by left. Qed.

Lemma dict_grows_trans P d1 d2 d3 :
  dict_grows P d1 d2 -> dict_grows P d2 d3 -> dict_grows P d1 d3.
Proof.
  intros H12 H23 name.
  destruct (H12 name) as [E12|(HP & Hold & Hnew)];
    destruct (H23 name) as [E23|(HP' & Hold' & Hnew')].
  - left. congruence.
  - right. rewrite <- E12. done.
  - right. rewrite E23. done.
  - right. done.
Qed.

Lemma dict_grows_weaken P Q d d' :
  (forall name, P name -> Q name) -> dict_grows P d d' -> dict_grows Q d d'.
Proof.
  intros HPQ H name. destruct (H name) as [E|(HP & Hold & Hnew)]; [by left|].
  right. split_and!; [by apply HPQ|done..].
Qed.

Lemma dict_grows_insert P d name f :
  P name -> d !! name = None \/ d !! name = Some None ->
  dict_grows P d (<[name := f]> d).
Proof.
  intros HP Hold name'. destruct (decide (name = name')) as [<-|Hne].
  - right. rewrite lookup_insert_eq. eauto.
  - left. by rewrite lookup_insert_ne.
Qed.

(** A future that is set keeps its value. *)
Lemma dict_grows_set P d d' name v :
  dict_grows P d d' -> d !! name = Some (Some v) -> d' !! name = Some (Some v).
Proof.
  intros H E. destruct (H name) as [E'|(_ & [Hold|Hold] & _)]; congruence.
Qed.

(** An attribute outside [P] is not touched. *)
Lemma dict_grows_frame P d d' name :
  dict_grows P d d' -> ~ P name -> d' !! name = d !! name.
Proof. intros H HP. by destruct (H name) as [E'|(? & _)]. Qed.

(** An attribute that has a future keeps having one. *)
Lemma dict_grows_present P d d' name :
  dict_grows P d d' -> is_Some (d !! name) -> is_Some (d' !! name).
Proof.
  intros H E. destruct (H name) as [E'|(_ & _ & ?)]; [by rewrite E'|done].
Qed.

Lemma heap_grows_refl P h : heap_grows P h h.
Proof. intros r o E. exists o. split_and!; try done. apply dict_grows_refl. Qed.

Lemma heap_grows_trans P h1 h2 h3 :
  heap_grows P h1 h2 -> heap_grows P h2 h3 -> heap_grows P h1 h3.
Proof.
  intros H12 H23 r o E.
  destruct (H12 r o E) as (o2 & E2 & Hc2 & Hi2 & Hd2).
  destruct (H23 r o2 E2) as (o3 & E3 & Hc3 & Hi3 & Hd3).
  exists o3. split_and!; [done|congruence|congruence|].
  by eapply dict_grows_trans.
Qed.

Lemma heap_grows_weaken P Q h h' :
  (forall name, P name -> Q name) -> heap_grows P h h' -> heap_grows Q h h'.
Proof.
  intros HPQ H r o E. destruct (H r o E) as (o' & ? & ? & ? & ?).
  exists o'. split_and!; try done. by eapply dict_grows_weaken.
Qed.

Lemma heap_grows_update P h r o d :
  h !! r = Some o -> dict_grows P (o_dict o) d ->
  heap_grows P h (<[r := Obj (o_cls o) (o_id o) d]> h).
Proof.
  intros E Hd r' o' E'. destruct (decide (r = r')) as [<-|Hne].
  - rewrite list_lookup_insert_eq by by eapply lookup_lt_Some.
    eexists. split; [done|]. simpl. by simplify_eq.
  - rewrite list_lookup_insert_ne by done. exists o'.
    split_and!; try done. apply dict_grows_refl.
Qed.

Lemma heap_grows_app P h h' : heap_grows P h (h ++ h').
Proof.
  intros r o E. exists o. split_and!; try done.
  - by apply lookup_app_l_Some.
  - apply dict_grows_refl.
Qed.

Lemma heap_grows_length P h h' :
  heap_grows P h h' -> (length h <= length h')%nat.
Proof.
  intros H. destruct (decide (length h = 0%nat)) as [->|Hn]; [lia|].
  destruct (lookup_lt_is_Some_2 h (length h - 1)) as [o E]; [lia|].
  destruct (H _ _ E) as (o' & E' & _). apply lookup_lt_Some in E'. lia.
Qed.

(** [_set_api_data] only gives a future to, or sets, the fields it is
    called with, and only where the future was missing or unset. *)
Lemma set_fields_grows c item fields d val :
  dict_grows (fun name => name ∈ map Entry.future_name fields) d
             (Entry.set_fields W c item fields d val).1.
Proof.
  revert d val. induction fields as [|k fields IH]; intros d val; simpl.
  - apply dict_grows_refl.
  - set (P := fun name => name ∈ Entry.future_name k
                                   :: map Entry.future_name fields).
    assert (forall d0 val0,
              dict_grows P d0 (Entry.set_fields W c item fields d0 val0).1)
      as IH'.
    { intros d0 val0. eapply dict_grows_weaken; [|apply IH].
      intros name Hin. unfold P. by apply list_elem_of_further. }
    assert (P (Entry.future_name k)) as HPk by apply list_elem_of_here.
    destruct (d !! Entry.future_name k) as [[v|]|] eqn:E.
    + apply IH'.
    + destruct (Entry.field_value W c k item val) as [v|e]; simpl.
      * eapply dict_grows_trans; [|apply IH'].
        apply dict_grows_insert; [done|by right].
      * apply dict_grows_refl.
    + destruct (Entry.field_value W c k item val) as [v|e]; simpl.
      * eapply dict_grows_trans; [|apply IH'].
        eapply dict_grows_trans;
          [apply (dict_grows_insert P d (Entry.future_name k) None);
           [done|by left]|].
        apply dict_grows_insert; [done|]. right. by rewrite lookup_insert_eq.
      * apply dict_grows_insert; [done|by left].
Qed.

Lemma set_api_data_obj_grows o fields item :
  dict_grows (fun name => name ∈ map Entry.future_name fields)
             (o_dict o) (o_dict (Entry._set_api_data W o fields item).1)
  /\ o_cls (Entry._set_api_data W o fields item).1 = o_cls o
  /\ o_id (Entry._set_api_data W o fields item).1 = o_id o.
Proof.
  unfold Entry._set_api_data.
  pose proof (set_fields_grows (o_cls o) item fields (o_dict o) None) as H.
  destruct (Entry.set_fields W (o_cls o) item fields (o_dict o) None)
    as [d r]. done.
Qed.

Lemma grows_ret {A} P (a : A) : grows P (mret a).
Proof. intros st st' r [= <- _]. apply heap_grows_refl. Qed.

Lemma grows_lift {A} P (x : res A) : grows P (lift x).
Proof. intros st st' r [= <- _]. apply heap_grows_refl. Qed.

Lemma grows_bind {A B} P (m : M A) (k : A -> M B) :
  grows P m -> (forall a, grows P (k a)) -> grows P (m ≫= k).
Proof.
  intros Hm Hk st st' r. unfold mbind, M_bind.
  destruct (m st) as [st1 [a|e]] eqn:E.
  - intros Hr. eapply heap_grows_trans; [by eapply Hm|by eapply Hk].
  - intros [= <- _]. by eapply Hm.
Qed.

Lemma grows_weaken {A} P Q (m : M A) :
  (forall name, P name -> Q name) -> grows P m -> grows Q m.
Proof.
  intros HPQ Hm st st' r E. eapply heap_grows_weaken; [done|by eapply Hm].
Qed.

Lemma set_api_data_grows self fields item :
  grows (futures_of fields) (Entry.set_api_data W self fields item).
Proof.
  intros st st' r. unfold Entry.set_api_data.
  destruct (heap st !! self) as [o|] eqn:E.
  - destruct (set_api_data_obj_grows o fields item) as (Hd & Hc & Hi).
    destruct (Entry._set_api_data W o fields item) as [o' r'] eqn:E'.
    intros [= <- _]. simpl in *.
    destruct o' as [c' i' d']; simpl in *; subst.
    by apply heap_grows_update.
  - intros [= <- _]. apply heap_grows_refl.
Qed.

Lemma add_grows fields d :
  dict_grows (futures_of fields) d (Entry.add fields d).1.
Proof.
  revert d. induction fields as [|k fields IH]; intros d; simpl.
  - apply dict_grows_refl.
  - assert (forall d0, dict_grows (futures_of (k :: fields)) d0
                                  (Entry.add fields d0).1) as IH'.
    { intros d0. eapply dict_grows_weaken; [|apply IH].
      intros name Hin. by apply list_elem_of_further. }
    destruct (d !! Entry.future_name k) eqn:E; [apply IH'|].
    specialize (IH' (<[Entry.future_name k := None]> d)).
    destruct (Entry.add fields (<[Entry.future_name k := None]> d))
      as [d' b]. simpl in *.
    eapply dict_grows_trans; [|done].
    apply dict_grows_insert; [apply list_elem_of_here|by left].
Qed.

Lemma add_futures_grows lst fields h :
  heap_grows (futures_of fields) h (Entry._add_futures lst fields h).2.
Proof.
  revert h. induction lst as [|r lst IH]; intros h; simpl.
  - apply heap_grows_refl.
  - destruct (h !! r) as [o|] eqn:E; [|apply IH].
    pose proof (add_grows fields (o_dict o)) as Hd.
    destruct (Entry.add fields (o_dict o)) as [d added]. simpl in Hd.
    specialize (IH (<[r := Obj (o_cls o) (o_id o) d]> h)).
    destruct (Entry._add_futures lst fields
                (<[r := Obj (o_cls o) (o_id o) d]> h)) as [kept h'].
    simpl in *. eapply heap_grows_trans; [|done].
    by apply heap_grows_update.
Qed.

Lemma get_grows P c id : grows P (Entry.get W c id).
Proof.
  intros st st' r. unfold Entry.get.
  destruct (hashable id) as [i|e]; [|intros [= <- _]; apply heap_grows_refl].
  destruct (cache st !! (c, key_of i)) as [r0|].
  - intros [= <- _]. apply heap_grows_refl.
  - intros [= <- _]. apply heap_grows_app.
Qed.

Lemma batch_dict_heap c st :
  heap (Entry.batch_dict W c st).1 = heap st
  /\ pool (Entry.batch_dict W c st).1 = pool st
  /\ calls (Entry.batch_dict W c st).1 = calls st ++ [c]
  /\ exists items, (Entry.batch_dict W c st).2 = Ok items.
Proof.
  unfold Entry.batch_dict.
  destruct (_ ≫= _) as [items|e]; simpl; eauto.
Qed.

Lemma batch_dict_grows P c : grows P (Entry.batch_dict W c).
Proof.
  intros st st' r E. destruct (batch_dict_heap c st) as (Hh & _).
  rewrite E in Hh. simpl in Hh. rewrite Hh. apply heap_grows_refl.
Qed.

Lemma set_batch_grows (fields : list string) (items : gmap hkey json)
    (sublist : list ref) :
  grows (futures_of fields) (Entry.set_batch W fields items sublist).
Proof.
  induction sublist as [|r sublist IH]; simpl.
  - apply grows_ret.
  - intros st st' res. destruct (heap st !! r) as [o|] eqn:E.
    + apply grows_bind; [apply set_api_data_grows|done].
    + intros [= <- _]. apply heap_grows_refl.
Qed.

Lemma video_load_info_grows lst :
  grows (futures_of Video.fields) (Video.load_info lst).
Proof.
  intros st st' r. unfold Video.load_info.
  pose proof (add_futures_grows lst Video.fields (heap st)) as H.
  destruct (Entry._add_futures lst Video.fields (heap st)) as [lst' h].
  by intros [= <- _].
Qed.




(** *** A batch without items *)

Lemma absent_fill_idem f : absent_fill (absent_fill f) = absent_fill f.
Proof. by destruct f as [[v|]|]. Qed.

Lemma filled_trans fields d1 d2 d3 :
  filled fields d1 d2 -> filled fields d2 d3 -> filled fields d1 d3.
Proof.
  intros H12 H23 name. rewrite H23, H12.
  destruct (decide _); [apply absent_fill_idem|done].
Qed.

Lemma field_value_falsy c k item val :
  truthy item = false -> Entry.field_value W c k item val = Ok pyNone.
Proof. intros H. unfold Entry.field_value. by rewrite H. Qed.

Lemma filled_cons k fields d d0 d' :
  d0 !! Entry.future_name k = absent_fill (d !! Entry.future_name k) ->
  (forall name, name <> Entry.future_name k -> d0 !! name = d !! name) ->
  filled fields d0 d' -> filled (k :: fields) d d'.
Proof.
  intros Hk Hother Hd' name. rewrite Hd'. simpl map.
  destruct (decide (name = Entry.future_name k)) as [->|Hne].
  - destruct (decide (Entry.future_name k ∈ Entry.future_name k :: _))
      as [_|Hn]; [|exfalso; apply Hn; constructor].
    destruct (decide _); rewrite Hk; [apply absent_fill_idem|done].
  - rewrite (Hother name Hne).
    destruct (decide (name ∈ map Entry.future_name fields)) as [Hin|Hin];
      destruct (decide (name ∈ _ :: _)) as [Hin'|Hin']; try done.
    + exfalso. apply Hin'. by apply list_elem_of_further.
    + exfalso. apply elem_of_cons in Hin' as [?|?]; done.
Qed.

Lemma set_fields_falsy c item fields d val :
  truthy item = false ->
  exists d', Entry.set_fields W c item fields d val = (d', Ok tt)
             /\ filled fields d d'.
Proof.
  intros Hitem. revert d val.
  induction fields as [|k fields IH]; intros d val; simpl.
  - exists d. split; [done|]. intros name.
    destruct (decide _) as [Hin|]; [by apply elem_of_nil in Hin|done].
  - rewrite field_value_falsy by done.
    destruct (d !! Entry.future_name k) as [[v|]|] eqn:E.
    + destruct (IH d val) as (d' & -> & Hd'). exists d'. split; [done|].
      eapply filled_cons; [|done..]. by rewrite E.
    + destruct (IH (<[Entry.future_name k := Some pyNone]> d) (Some pyNone))
        as (d' & -> & Hd'). exists d'. split; [done|].
      eapply filled_cons; [| |done].
      * by rewrite lookup_insert_eq, E.
      * intros name Hne. by rewrite lookup_insert_ne.
    + destruct (IH (<[Entry.future_name k := Some pyNone]>
                      (<[Entry.future_name k := None]> d)) (Some pyNone))
        as (d' & -> & Hd'). exists d'. split; [done|].
      eapply filled_cons; [| |done].
      * by rewrite lookup_insert_eq, E.
      * intros name Hne. by rewrite !lookup_insert_ne.
Qed.

Lemma set_batch_empty (fields : list string) (sublist : list ref) st :
  (forall r, r ∈ sublist -> is_Some (heap st !! r)) ->
  exists st',
    Entry.set_batch W fields ∅ sublist st = (st', Ok tt)
    /\ pool st' = pool st /\ calls st' = calls st /\ cache st' = cache st
    /\ forall (r : ref) o, heap st !! r = Some o ->
         exists o', heap st' !! r = Some o'
                    /\ o_cls o' = o_cls o /\ o_id o' = o_id o
                    /\ if decide (r ∈ sublist)
                       then filled fields (o_dict o) (o_dict o')
                       else o' = o.
Proof.
  revert st. induction sublist as [|r0 sublist IH]; intros st Hvalid; simpl.
  - exists st. split_and!; try done. intros r o E. exists o.
    split_and!; done.
  - destruct (Hvalid r0 (list_elem_of_here _ _)) as [o0 E0]. rewrite E0.
    rewrite lookup_empty. simpl.
    unfold mbind, M_bind, Entry.set_api_data, Entry._set_api_data.
    rewrite E0.
    destruct (set_fields_falsy (o_cls o0) JNull fields (o_dict o0) None
                eq_refl) as (d0 & -> & Hd0).
    set (st1 := with_heap _ st).
    destruct (IH st1) as (st' & -> & Hp & Hc & Hk & Hheap).
    { intros r Hr. unfold st1; simpl.
      destruct (Hvalid r (list_elem_of_further _ _ _ Hr)) as [o E].
      destruct (decide (r0 = r)) as [<-|Hne].
      - rewrite list_lookup_insert_eq by by eapply lookup_lt_Some. eauto.
      - rewrite list_lookup_insert_ne by done. eauto. }
    exists st'. split_and!; try done. intros r o E.
    destruct (decide (r0 = r)) as [<-|Hne].
    + destruct (Hheap r0 (Obj (o_cls o0) (o_id o0) d0)) as (o' & E' & ? & ? & Hf).
      { unfold st1; simpl.
        by rewrite list_lookup_insert_eq by by eapply lookup_lt_Some. }
      assert (Some o = Some o0) as [= ->] by exact (eq_trans (eq_sym E) E0).
      simpl in *.
      exists o'. split_and!; try done.
      rewrite decide_True by apply list_elem_of_here.
      case_decide; [by eapply filled_trans|subst o'; exact Hd0].
    + destruct (Hheap r o) as (o' & E' & ? & ? & Hf).
      { unfold st1; simpl. by rewrite list_lookup_insert_ne by done. }
      exists o'. split_and!; try done.
      destruct (decide (r ∈ sublist)) as [Hin|Hin].
      * by rewrite decide_True by by apply list_elem_of_further.
      * rewrite decide_False; [done|]. intros [?|?]%elem_of_cons; done.
Qed.

End Futures.

(** ** The batch jobs of [load_info] *)

Section BatchJobs.
Context (W : world).

Lemma future_at_filled st st' r o o' fields k :
  heap st !! r = Some o -> heap st' !! r = Some o' ->
  filled fields (o_dict o) (o_dict o') -> k ∈ fields ->
  future_at st' r (Entry.future_name k)
  = absent_fill (future_at st r (Entry.future_name k)).
Proof.
  intros E E' Hf Hk. unfold future_at. rewrite E, E'. simpl.
  rewrite Hf. rewrite decide_True; [done|].
  by apply (list_elem_of_fmap_2 Entry.future_name).
Qed.

Lemma failed_batch (c : call) fields sublist st e :
  (forall r, r ∈ sublist -> is_Some (heap st !! r)) ->
  remote W (length (calls st)) c = Raise e ->
  exists st',
    (Entry.batch_dict W c ≫= fun d => Entry.set_batch W fields d sublist) st
    = (st', Ok tt)
    /\ calls st' = calls st ++ [c]
    /\ pool st' = pool st
    /\ forall r k, r ∈ sublist -> k ∈ fields ->
         future_at st' r (Entry.future_name k)
         = absent_fill (future_at st r (Entry.future_name k)).
Proof.
  intros Hvalid Hfail. unfold mbind at 1. unfold M_bind, Entry.batch_dict.
  rewrite Hfail. simpl.
  set (st1 := State _ _ _ _ _).
  destruct (set_batch_empty W fields sublist st1 Hvalid)
    as (st' & -> & Hp & Hc & _ & Hheap).
  exists st'. split_and!; try done. intros r k Hr Hk.
  destruct (Hvalid r Hr) as [o E].
  destruct (Hheap r o E) as (o' & E' & _ & _ & Hf).
  rewrite decide_True in Hf by done.
  by eapply (future_at_filled st1 st').
Qed.

(** C1, as amended: when the batch call of a [load_info] job raises, the
    job still returns, and every requested field future of every entity of
    the batch is set afterwards: to [None] if it had no value yet, to the
    value it had if it was set before. *)
Theorem failed_batch_resolves_every_future st sublist e :
  (forall r, r ∈ sublist -> is_Some (heap st !! r)) ->
  (remote W (length (calls st))
          (list_videos (Entry.ids_of (heap st) sublist)) = Raise e ->
   exists st',
     Video.load_info_job W sublist st = (st', Ok tt)
     /\ forall r k, r ∈ sublist -> k ∈ Video.fields ->
          future_at st' r (Entry.future_name k)
          = absent_fill (future_at st r (Entry.future_name k)))
  /\ (remote W (length (calls st))
             (list_playlists (Entry.ids_of (heap st) sublist)) = Raise e ->
      exists st',
        Playlist.load_info_job W sublist st = (st', Ok tt)
        /\ forall r k, r ∈ sublist -> k ∈ Playlist.fields ->
             future_at st' r (Entry.future_name k)
             = absent_fill (future_at st r (Entry.future_name k))).
Proof.
  intros Hvalid. split; intros Hfail.
  - destruct (failed_batch _ Video.fields sublist st e Hvalid Hfail)
      as (st' & E & _ & _ & H).
    exists st'. split; [exact E|exact H].
  - destruct (failed_batch _ Playlist.fields sublist st e Hvalid Hfail)
      as (st' & E & _ & _ & H).
    exists st'. split; [exact E|exact H].
Qed.

End BatchJobs.

(** A fresh video whose batch fails has its length resolved to [None]. *)
Lemma failed_batch_resolves_every_future_witness :
  exists st',
    Video.load_info_job failing_world [0%nat] (paged_video failing_world)
    = (st', Ok tt)
    /\ future_at st' 0%nat "_length" = Some (Some pyNone).
Proof.
  destruct (failed_batch_resolves_every_future failing_world
              (paged_video failing_world) [0%nat] RemoteError) as [HV _].
  { intros r ->%list_elem_of_singleton. vm_compute. eauto. }
  destruct (HV eq_refl) as (st' & E & H).
  exists st'. split; [exact E|].
  transitivity (absent_fill (future_at (paged_video failing_world) 0%nat
                                      (Entry.future_name "length"))).
  - apply (H 0%nat "length").
    + apply list_elem_of_here.
    + apply list_elem_of_further, list_elem_of_here.
  - vm_compute. reflexivity.
Defined.

(** C1 as stated fails: a video whose title was set from a playlist page
    keeps that title, not [None], when its batch call raises. *)
Lemma failed_batch_keeps_page_title :
  let W := failing_world in
  let st := paged_video W in
  let st' := after (Video.load_info_job W [0%nat]) st in
  ThreadPool.jobs (pool st) = [video_batch [0%nat]]
  /\ remote W (length (calls st)) (list_videos (Entry.ids_of (heap st) [0%nat]))
     = Raise RemoteError
  /\ future_at st' 0%nat "_title" = Some (Some (VJson (JStr "T")))
  /\ future_at st' 0%nat "_title" <> Some (Some pyNone).
Proof. vm_compute. split_and!; done. Qed.

(** C2: a batch whose first item lacks [contentDetails]: [_set_api_data]
    raises [KeyError] out of the job at the [length] of the first video;
    that future, the [channel] of the same video and every future of the
    second video stay unset. *)
Theorem missing_subfield_aborts_batch :
  let W := scripted_world [answer_without_duration] in
  let st := two_videos W in
  let st' := after (Video.load_info_job W [0%nat; 1%nat]) st in
  ThreadPool.jobs (pool st) = [video_batch [0%nat; 1%nat]]
  /\ (Video.load_info_job W [0%nat; 1%nat] st).2 = Raise KeyError
  /\ future_at st' 0%nat "_title" = Some (Some (VJson (JStr "A")))
  /\ future_at st' 0%nat "_length" = Some None
  /\ future_at st' 0%nat "_channel" = Some None
  /\ future_at st' 1%nat "_title" = Some None
  /\ future_at st' 1%nat "_length" = Some None
  /\ future_at st' 1%nat "_channel" = Some None.
Proof. vm_compute. split_and!; done. Qed.

(** C5: an item that is there but carries no duration: the [length]
    branch raises [KeyError] and the future is left unset, where the claim
    has the absent marker. *)
Theorem absent_duration_raises :
  let W := failing_world in
  let item := video_item "a" "A" "C" [] in
  let o := Obj cVideo (IStr "a") {["_length" := None]} in
  Entry.field_value W cVideo "length" item None = Raise KeyError
  /\ (Entry._set_api_data W o ["length"] item).2 = Raise KeyError
  /\ o_dict (Entry._set_api_data W o ["length"] item).1 !! "_length"
     = Some None.
Proof. vm_compute. split_and!; done. Qed.

(** ** Every operation only adds and sets futures *)

Section Monotone.
Context (W : world).
Implicit Types (P : string -> Prop) (st : state).

Lemma grows_any {A} P (m : M A) : grows P m -> grows any_name m.
Proof. apply grows_weaken. done. Qed.

Lemma grows_fmap {A B} P (f : A -> B) (m : M A) : grows P m -> grows P (f <$> m).
Proof.
  intros Hm st st' r. unfold fmap, M_fmap.
  destruct (m st) as [st1 [a|e]] eqn:E; intros [= <- _]; by eapply Hm.
Qed.


Lemma grows_fun {A} P (m : M A) :
  (forall st st' r, m st = (st', r) -> heap st' = heap st) -> grows P m.
Proof. intros H st st' r E. rewrite (H _ _ _ E). apply heap_grows_refl. Qed.

Lemma ask_grows P c : grows P (Entry.ask W c).
Proof. apply grows_fun. by intros st st' r [= <- _]. Qed.

Lemma submit_grows P f : grows P (submit f).
Proof. apply grows_fun. by intros st st' r [= <- _]. Qed.

Lemma dict_of_grows P self : grows P (dict_of self).
Proof.
  apply grows_fun. intros st st' r. unfold dict_of.
  by destruct (heap st !! self); intros [= <- _].
Qed.



(** [async_property] hands out the future that is there, and runs [func]
    only on an instance without one. *)
Lemma async_property_spec name func self st o :
  heap st !! self = Some o ->
  match o_dict o !! name with
  | Some f => async_property name func self st = (st, Ok f)
  | None => (async_property name func self st).1 = (func self st).1
  end.
Proof.
  intros E. unfold async_property, mbind, M_bind, dict_of. rewrite E.
  destruct (o_dict o !! name) as [f|] eqn:E'.
  - simpl. unfold mret, M_ret. rewrite E, E'. done.
  - destruct (func self st) as [st1 [[]|e]]; [|done].
    destruct (heap st1 !! self) as [o1|]; [|done].
    by destruct (o_dict o1 !! name).
Qed.






Lemma create_object_grows item : grows any_name (Entry.create_object W item).
Proof.
  unfold Entry.create_object.
  apply grows_bind; [apply grows_lift|]. intros id.
  apply grows_bind; [apply grows_lift|]. intros kind.
  assert (forall c f fields, grows any_name
            (x ← lift (subscript id f);
             obj ← Entry.get W c x;
             Entry.set_api_data W obj fields item;; mret obj)) as H.
  { intros c f fields.
    apply grows_bind; [apply grows_lift|]. intros x.
    apply grows_bind; [apply get_grows|]. intros obj.
    apply grows_bind; [|intros; apply grows_ret].
    eapply grows_any, set_api_data_grows. }
  repeat case_match; apply H.
Qed.

Lemma map_create_grows l : grows any_name (Entry.map_create W l).
Proof.
  induction l as [|item l IH]; simpl; [apply grows_ret|].
  apply grows_bind; [apply create_object_grows|]. intros obj.
  apply grows_bind; [done|]. intros objs. apply grows_ret.
Qed.


Lemma page_videos_grows items myvideos :
  grows (futures_of Video.fields) (Playlist.page_videos W items myvideos).
Proof.
  revert myvideos. induction items as [|item items IH]; intros myvideos; simpl.
  - apply grows_ret.
  - apply grows_bind; [apply grows_lift|]. intros id.
    apply grows_bind; [apply get_grows|]. intros video.
    apply grows_bind; [|intros _; apply IH].
    eapply grows_weaken; [|apply set_api_data_grows].
    intros name ->%list_elem_of_singleton. apply list_elem_of_here.
Qed.

Lemma videos_loop_grows fuel self all_videos page :
  grows (futures_of Video.fields)
        (Playlist.videos_loop W fuel self all_videos page).
Proof.
  revert all_videos page.
  induction fuel as [|fuel IH]; intros all_videos page; simpl.
  - apply grows_ret.
  - intros st st' r. destruct (heap st !! self) as [o|];
      [|intros [= <- _]; apply heap_grows_refl].
    destruct page; try (intros [= <- _]; apply heap_grows_refl).
    all: destruct (Entry.self_max_videos W (o_cls o)) as [limit|e];
      [|intros [= <- _]; apply heap_grows_refl].
    all: destruct (_ <? limit); [|intros [= <- _]; apply heap_grows_refl].
    all: destruct (remote W _ _) as [data|e];
      [|intros [= <- _]; apply heap_grows_refl].
    all: match goal with
         | |- ?m ?s = _ -> _ =>
             intros E; change (heap st) with (heap s);
             revert E; generalize s; clear st; intros st E;
             revert st st' r E; fold (grows (futures_of Video.fields) m)
         end.
    all: apply grows_bind; [apply grows_lift|]; intros page'.
    all: apply grows_bind; [apply grows_lift|]; intros its.
    all: apply grows_bind; [apply page_videos_grows|]; intros myvideos.
    all: apply grows_bind; [apply video_load_info_grows|]; intros _.
    all: apply IH.
Qed.






Lemma heap_grows_future P h h' st st' r name v :
  heap st = h -> heap st' = h' -> heap_grows P h h' ->
  future_at st r name = Some (Some v) -> future_at st' r name = Some (Some v).
Proof.
  intros <- <- Hg. unfold future_at.
  destruct (heap st !! r) as [o|] eqn:E; [|done]. simpl. intros Hv.
  destruct (Hg r o E) as (o' & E' & _ & _ & Hd). rewrite E'. simpl.
  by eapply dict_grows_set.
Qed.


End Monotone.


(** ** Batches of 50 *)

Section Batches.
Context (W : world).
Implicit Types (lst : list ref) (h : list obj) (r : ref).

Lemma div_up n : (n <= (n + 49) / 50 * 50 < n + 50)%nat.
Proof.
  pose proof (Nat.div_mod_eq (n + 49) 50).
  pose proof (Nat.mod_upper_bound (n + 49) 50). lia.
Qed.

Lemma concat_slices lst n :
  concat (map (Entry.slice50 lst) (map (fun q => q * 50)%nat (seq 0 n)))
  = take (n * 50) lst.
Proof.
  induction n as [|n IH]; [done|].
  rewrite seq_S, !map_app, concat_app, IH. simpl.
  rewrite app_nil_r. unfold Entry.slice50.
  rewrite take_take_drop. f_equal. lia.
Qed.

Lemma batches_concat lst : concat (batches lst) = lst.
Proof.
  unfold batches, Entry.range50. rewrite concat_slices.
  apply take_ge. pose proof (div_up (length lst)). lia.
Qed.






Lemma run_jobs (f : job) p :
  ThreadPool.jobs (ThreadPool.run f p) = ThreadPool.jobs p ++ [f].
Proof. unfold ThreadPool.run. by destruct (_ <? _). Qed.


Lemma add_added fields (d : gmap string (option pyval)) :
  (Entry.add fields d).2
  = existsb (fun k => bool_decide (d !! Entry.future_name k = None)) fields.
Proof.
  revert d. induction fields as [|k fields IH]; intros d; simpl; [done|].
  destruct (d !! Entry.future_name k) eqn:E.
  - rewrite bool_decide_eq_false_2 by done. apply IH.
  - rewrite bool_decide_eq_true_2 by done.
    by destruct (Entry.add fields _).
Qed.

Lemma add_futures_sublist lst fields h :
  (Entry._add_futures lst fields h).1 `sublist_of` lst.
Proof.
  revert h. induction lst as [|r lst IH]; intros h; simpl; [done|].
  destruct (h !! r) as [o|].
  - destruct (Entry.add fields (o_dict o)) as [d added].
    specialize (IH (<[r := Obj (o_cls o) (o_id o) d]> h)).
    destruct (Entry._add_futures lst fields _) as [kept h']. simpl in *.
    destruct added; [by apply sublist_skip|by apply sublist_cons].
  - by apply sublist_cons.
Qed.





End Batches.


(** 120 fresh videos: three jobs, and three calls once they have run (the
    last submitted first), of 50, 50 and 20 ids. *)
Example load_info_120 :
  let W := failing_world in
  let st := after (vs ← fresh_videos W 120; Video.load_info vs) init_state in
  map (fun f => match f with video_batch l => length l | _ => 0%nat end)
      (ThreadPool.jobs (pool st)) = [50; 50; 20]%nat
  /\ calls st = []
  /\ call_sizes (calls (work_off W 3 st)) = [20; 50; 50]%nat.
Proof. vm_compute. done. Qed.

(** ** The invariant of the program *)

Section Invariant.
Context (W : world).
Implicit Types (st : state) (o : obj) (r self : ref) (h : list obj).
Implicit Types (d : gmap string (option pyval)) (c : cls) (id : pyid).

Lemma future_name_inj k k' :
  Entry.future_name k = Entry.future_name k' -> k = k'.
Proof. by intros [= ->]. Qed.

Lemma min_int_ok count : count_ok W (VJson (min_int count (max_videos W))).
Proof.
  unfold min_int, int_lt.
  destruct count as [|b|m|s|l|l]; try (right; eexists _, _; split_and!; [done..|lia]).
  - by left.
  - destruct (Z.ltb_spec (max_videos W) (if b then 1 else 0));
      right; eexists _, _; (split_and!; [done..|lia]).
  - destruct (Z.ltb_spec (max_videos W) m);
      right; eexists _, _; (split_and!; [done..|lia]).
Qed.

Lemma field_value_count c item val v :
  Entry.field_value W c "video_count" item val = Ok v -> count_ok W v.
Proof.
  unfold Entry.field_value. destruct (truthy item); simpl.
  - destruct (subscript item "contentDetails") as [details|]; [|done]. simpl.
    destruct (subscript details "itemCount") as [count|]; [|done]. simpl.
    destruct c; simpl; [done|]. intros [= <-]. apply min_int_ok.
  - intros [= <-]. by left.
Qed.

Lemma future_ok_unset c id k :
  (k = "thumbnails" -> c = cPlaylist) ->
  future_ok W c id (Entry.future_name k) None.
Proof.
  intros Hk. split_and!; try done.
  intros [= ->] ->. by specialize (Hk eq_refl).
Qed.

Lemma future_ok_set c id k v :
  (k = "thumbnails" -> c = cPlaylist) ->
  (k = "video_count" -> count_ok W v) ->
  k <> "videos" ->
  future_ok W c id (Entry.future_name k) (Some v).
Proof.
  intros Hk Hcount Hvideos. split_and!.
  - intros [= ->] ->. by specialize (Hk eq_refl).
  - intros [= ->] v' [= <-]. by apply Hcount.
  - by intros [= ->].
Qed.

Lemma dict_ok_insert c id d name f :
  dict_ok W c id d -> future_ok W c id name f ->
  dict_ok W c id (<[name := f]> d).
Proof.
  intros Hd Hf name' f'. destruct (decide (name = name')) as [<-|Hne].
  - rewrite lookup_insert_eq. by intros [= <-].
  - rewrite lookup_insert_ne by done. apply Hd.
Qed.

Lemma set_fields_ok c id item fields d val :
  dict_ok W c id d ->
  ("thumbnails" ∈ fields -> c = cPlaylist) -> "videos" ∉ fields ->
  dict_ok W c id (Entry.set_fields W c item fields d val).1.
Proof.
  revert d val. induction fields as [|k fields IH]; intros d val Hd Ht Hv;
    simpl; [done|].
  assert ("thumbnails" ∈ fields -> c = cPlaylist) as Ht'
    by (intros ?; by apply Ht, list_elem_of_further).
  assert ("videos" ∉ fields) as Hv'
    by (intros ?; by apply Hv, list_elem_of_further).
  assert (k = "thumbnails" -> c = cPlaylist) as Hk
    by (intros ->; apply Ht, list_elem_of_here).
  assert (k <> "videos") as Hk'
    by (intros ->; apply Hv, list_elem_of_here).
  assert (forall v, Entry.field_value W c k item val = Ok v ->
            future_ok W c id (Entry.future_name k) (Some v)) as Hset.
  { intros v Hval. apply future_ok_set; [done| |done].
    intros ->. by eapply field_value_count. }
  destruct (d !! Entry.future_name k) as [[v|]|] eqn:E.
  - by apply IH.
  - destruct (Entry.field_value W c k item val) as [v|e] eqn:Ev; simpl.
    + apply IH; [|done..]. apply dict_ok_insert; [done|by apply Hset].
    + done.
  - destruct (Entry.field_value W c k item val) as [v|e] eqn:Ev; simpl.
    + apply IH; [|done..]. apply dict_ok_insert; [|by apply Hset].
      apply dict_ok_insert; [done|by apply future_ok_unset].
    + apply dict_ok_insert; [done|by apply future_ok_unset].
Qed.

Lemma add_ok c id fields d :
  dict_ok W c id d -> ("thumbnails" ∈ fields -> c = cPlaylist) ->
  dict_ok W c id (Entry.add fields d).1.
Proof.
  revert d. induction fields as [|k fields IH]; intros d Hd Ht; simpl;
    [done|].
  assert ("thumbnails" ∈ fields -> c = cPlaylist) as Ht'
    by (intros ?; by apply Ht, list_elem_of_further).
  destruct (d !! Entry.future_name k) eqn:E; [by apply IH|].
  specialize (IH (<[Entry.future_name k := None]> d)).
  destruct (Entry.add fields _) as [d' b]. simpl in *.
  apply IH; [|done]. apply dict_ok_insert; [done|].
  apply future_ok_unset. intros ->. apply Ht, list_elem_of_here.
Qed.

(** *** Classes are stable *)

Lemma heap_grows_stable P h h' : heap_grows P h h' -> stable h h'.
Proof.
  intros Hg r o E. destruct (Hg r o E) as (o' & E' & Hc' & Hi' & _). eauto.
Qed.

Lemma stable_refl h : stable h h.
Proof. intros r o E. eauto. Qed.

Lemma stable_trans h1 h2 h3 : stable h1 h2 -> stable h2 h3 -> stable h1 h3.
Proof.
  intros H12 H23 r o E. destruct (H12 r o E) as (o2 & E2 & Hc2 & Hi2).
  destruct (H23 r o2 E2) as (o3 & E3 & Hc3 & Hi3).
  exists o3. split_and!; [done|congruence..].
Qed.

Lemma stable_update h r o d :
  h !! r = Some o -> stable h (<[r := Obj (o_cls o) (o_id o) d]> h).
Proof.
  intros E r' o' E'. destruct (decide (r = r')) as [<-|Hne].
  - rewrite list_lookup_insert_eq by by eapply lookup_lt_Some.
    eexists. split; [done|]. simpl.
    assert (Some o = Some o') as [= ->] by exact (eq_trans (eq_sym E) E').
    done.
  - rewrite list_lookup_insert_ne by done. eauto.
Qed.

Lemma is_cls_stable h h' r c : stable h h' -> is_cls h r c -> is_cls h' r c.
Proof.
  intros Hg (o & E & Hc). destruct (Hg r o E) as (o' & E' & Hc' & _).
  exists o'. split; [done|congruence].
Qed.

Lemma job_ok_stable h h' f : stable h h' -> job_ok h f -> job_ok h' f.
Proof.
  intros Hg. destruct f as [l|l|self|self]; simpl; try done.
  intros Hl. eapply Forall_impl; [done|].
  intros r. by apply is_cls_stable.
Qed.

Lemma Inv_init : Inv W init_state.
Proof.
  split; simpl; try done.
  - intros f Hf. by apply elem_of_nil in Hf.
  - intros _. rewrite map_size_empty. unfold Entry.cache_max_len. lia.
Qed.

(** The invariant after a change of the heap alone. *)
Lemma Inv_heap st h' :
  Inv W st -> stable (heap st) h' ->
  (forall r o, h' !! r = Some o -> dict_ok W (o_cls o) (o_id o) (o_dict o)) ->
  Inv W (with_heap h' st).
Proof.
  intros [Hh Hc Hj Hs] Hg Hok. split; simpl.
  - done.
  - intros c k r E. destruct (Hc c k r E) as (o & Eo & <- & <-).
    destruct (Hg r o Eo) as (o' & E' & Hc' & Hi').
    exists o'. by rewrite Hc', Hi'.
  - intros f Hf. eapply job_ok_stable; [done|]. by apply Hj.
  - done.
Qed.

Lemma Inv_update st r o d :
  Inv W st -> heap st !! r = Some o -> dict_ok W (o_cls o) (o_id o) d ->
  Inv W (with_heap (<[r := Obj (o_cls o) (o_id o) d]> (heap st)) st).
Proof.
  intros HI E Hd. apply Inv_heap; [done|by apply stable_update|].
  intros r' o'. destruct (decide (r = r')) as [<-|Hne].
  - rewrite list_lookup_insert_eq by by eapply lookup_lt_Some.
    by intros [= <-].
  - rewrite list_lookup_insert_ne by done. by apply HI.
Qed.

(** The invariant after a change of the pool: every pending job is fit. *)
Lemma Inv_pool st p :
  Inv W st -> (forall f, f ∈ pending p -> job_ok (heap st) f) ->
  Inv W (with_pool p st).
Proof. intros [Hh Hc Hj Hs] Hp. by split. Qed.

Lemma pending_run (f : job) p g :
  g ∈ pending (ThreadPool.run f p) -> g = f \/ g ∈ pending p.
Proof.
  unfold pending, ThreadPool.run, ThreadPool.in_flight.
  destruct (_ <? _); simpl; rewrite ?omap_app; simpl;
    rewrite ?app_nil_r, !elem_of_app, list_elem_of_singleton; tauto.
Qed.

(** *** Rules for [keeps] *)

Lemma keeps_ret {A} (Pre : list obj -> Prop) (a : A) Post :
  (forall h, Pre h -> Post a h) -> keeps W Pre (mret a) Post.
Proof. intros H st st' r HI HP [= <- <-]. split; [done|]. intros ? [= <-]. auto. Qed.

Lemma keeps_lift {A} (Pre : list obj -> Prop) (x : res A) Post :
  (forall h a, Pre h -> x = Ok a -> Post a h) -> keeps W Pre (lift x) Post.
Proof. intros H st st' r HI HP [= <- <-]. split; [done|]. intros a ->. eauto. Qed.

Lemma keeps_bind {A B} Pre Mid Post (m : M A) (k : A -> M B) :
  keeps W Pre m Mid -> (forall a, keeps W (Mid a) (k a) Post) ->
  keeps W Pre (m ≫= k) Post.
Proof.
  intros Hm Hk st st' r HI HP. unfold mbind, M_bind.
  destruct (m st) as [st1 [a|e]] eqn:E.
  - destruct (Hm _ _ _ HI HP E) as [HI1 HM]. intros E'.
    by eapply Hk; [|apply HM|].
  - intros [= <- <-]. destruct (Hm _ _ _ HI HP E) as [HI1 _].
    split; [done|]. by intros.
Qed.

Lemma keeps_weaken {A} (Pre Pre' : list obj -> Prop) (m : M A)
    (Post Post' : A -> list obj -> Prop) :
  keeps W Pre m Post -> (forall h, Pre' h -> Pre h) ->
  (forall a h, Post a h -> Post' a h) -> keeps W Pre' m Post'.
Proof.
  intros Hm HPre HPost st st' r HI HP E.
  destruct (Hm _ _ _ HI (HPre _ HP) E) as [HI1 HM]. split; [done|].
  intros a Ha. by apply HPost, HM.
Qed.

(** A fact that no change of the heap undoes can be carried along. *)
Lemma keeps_frame {A} P (F : list obj -> Prop) Pre (m : M A) Post :
  grows P m -> (forall h h', stable h h' -> F h -> F h') ->
  keeps W Pre m Post ->
  keeps W (fun h => Pre h /\ F h) m (fun a h => Post a h /\ F h).
Proof.
  intros Hg HF Hm st st' r HI [HP HFh] E.
  destruct (Hm _ _ _ HI HP E) as [HI1 HM]. split; [done|].
  intros a Ha. split; [by apply HM|].
  eapply HF; [|done]. eapply heap_grows_stable. by eapply Hg.
Qed.

Lemma keeps_fmap {A B} Pre (f : A -> B) (m : M A) Post :
  keeps W Pre m (fun a h => Post (f a) h) -> keeps W Pre (f <$> m) Post.
Proof.
  intros Hm st st' r HI HP. unfold fmap, M_fmap.
  destruct (m st) as [st1 [a|e]] eqn:E; intros [= <- <-];
    destruct (Hm _ _ _ HI HP E) as [HI1 HM]; (split; [done|]).
  - intros ? [= <-]. by apply HM.
  - by intros.
Qed.

Lemma keeps_try {A} P Pre (m h : M A) Post :
  grows P m -> (forall h h', stable h h' -> Pre h -> Pre h') ->
  keeps W Pre m Post -> keeps W Pre h Post ->
  keeps W Pre (try_except m h) Post.
Proof.
  intros Hg HPre Hm Hh st st' r HI HP. unfold try_except.
  destruct (m st) as [st1 [a|e]] eqn:E.
  - intros [= <- <-]. by eapply Hm.
  - intros E'. destruct (Hm _ _ _ HI HP E) as [HI1 _].
    eapply Hh; [done| |done]. eapply HPre; [|done].
    eapply heap_grows_stable. by eapply Hg.
Qed.

(** The invariant does not look at the logs. *)
Lemma Inv_same st st' :
  heap st' = heap st -> cache st' = cache st -> pool st' = pool st ->
  Inv W st -> Inv W st'.
Proof.
  intros Hh Hc Hp [H1 H2 H3 H4]. split; rewrite ?Hh, ?Hc, ?Hp; done.
Qed.

(** *** The operations *)

Lemma keeps_ask (q : call) :
  keeps W (fun _ => True) (Entry.ask W q) (fun _ _ => True).
Proof.
  intros st st' r HI _ [= <- <-]. split; [|done]. by apply (Inv_same st).
Qed.

Lemma keeps_set_api_data self fields item :
  "videos" ∉ fields ->
  keeps W (fun h => "thumbnails" ∈ fields -> is_cls h self cPlaylist)
        (Entry.set_api_data W self fields item) (fun _ _ => True).
Proof.
  intros Hv st st' r HI HP. unfold Entry.set_api_data, Entry._set_api_data.
  destruct (heap st !! self) as [o|] eqn:E; [|by intros [= <- <-]].
  pose proof (set_fields_ok (o_cls o) (o_id o) item fields (o_dict o) None)
    as Hok.
  destruct (Entry.set_fields W _ _ _ _ _) as [d' r']. intros [= <- <-].
  split; [|done]. apply Inv_update; [done..|]. apply Hok; [| |done].
  - by eapply inv_heap.
  - intros Ht. destruct (HP Ht) as (o' & E' & Hc).
    assert (Some o = Some o') as [= ->] by exact (eq_trans (eq_sym E) E').
    done.
Qed.

Lemma keeps_get c (x : json) :
  keeps W (fun _ => True) (Entry.get W c x) (fun r h => is_cls h r c).
Proof.
  intros st st' r HI _. unfold Entry.get.
  destruct (hashable x) as [i|e]; [|by intros [= <- <-]].
  destruct (cache st !! (c, key_of i)) as [r0|] eqn:E.
  - intros [= <- <-]. split; [by apply (Inv_same st)|].
    intros ? [= <-]. simpl.
    destruct (inv_cache _ _ HI _ _ _ E) as (o & Eo & Hc & _). by exists o.
  - intros [= <- <-].
    assert (stable (heap st) (heap st ++ [Obj c i ∅])) as Hst.
    { intros r o Er. exists o. split; [by apply lookup_app_l_Some|done]. }
    assert ((heap st ++ [Obj c i ∅]) !! length (heap st) = Some (Obj c i ∅))
      as Hnew.
    { rewrite lookup_app_r by done. by rewrite Nat.sub_diag. }
    split; [|intros ? [= <-]; by eexists].
    destruct HI as [Hh Hc Hj Hs]. split; simpl.
    + intros r o Er. apply lookup_app_Some in Er as [Er|[_ Er]].
      * by eapply Hh.
      * apply list_lookup_singleton_Some in Er as [_ <-]. by intros name f.
    + intros c' k' r Er.
      destruct (decide ((c, key_of i) = (c', k'))) as [[= <- <-]|Hne].
      * rewrite lookup_insert_eq in Er. injection Er as <-. by eexists.
      * rewrite lookup_insert_ne in Er by done.
        assert (cache st !! (c', k') = Some r) as Er'.
        { case_decide; [|done].
          by apply lookup_delete_Some in Er as [_ Er]. }
        destruct (Hc _ _ _ Er') as (o & Eo & ? & ?).
        exists o. split; [by apply lookup_app_l_Some|done].
    + intros f Hf. eapply job_ok_stable; [done|]. by apply Hj.
    + intros Hv. specialize (Hs Hv). case_decide as Hfull.
      * assert (cache st <> ∅) as Hne.
        { intros Hempty. rewrite Hempty, map_size_empty in Hfull.
          unfold Entry.cache_max_len in Hfull. lia. }
        destruct (Hv (lookups st) (cache st) Hne) as [old Hold].
        rewrite map_size_insert_None.
        -- rewrite map_size_delete_Some by eauto.
           assert (size (cache st) <> 0%nat)
             by by apply map_size_non_empty_iff.
           lia.
        -- apply lookup_delete_None. by right.
      * rewrite map_size_insert_None by done. lia.
Qed.

Lemma keeps_submit f :
  keeps W (fun h => job_ok h f) (submit f) (fun _ _ => True).
Proof.
  intros st st' r HI HP [= <- <-]. split; [|done].
  apply Inv_pool; [done|]. intros g [->|Hg]%pending_run; [done|].
  by eapply inv_jobs.
Qed.

Lemma add_futures_ok lst fields h :
  (forall r o, h !! r = Some o -> dict_ok W (o_cls o) (o_id o) (o_dict o)) ->
  ("thumbnails" ∈ fields -> Forall (fun r => is_cls h r cPlaylist) lst) ->
  forall r o, (Entry._add_futures lst fields h).2 !! r = Some o ->
    dict_ok W (o_cls o) (o_id o) (o_dict o).
Proof.
  revert h. induction lst as [|r0 lst IH]; intros h Hh Ht; simpl; [done|].
  destruct (h !! r0) as [o0|] eqn:E0.
  - pose proof (add_ok (o_cls o0) (o_id o0) fields (o_dict o0)) as Hadd.
    destruct (Entry.add fields (o_dict o0)) as [d added]. simpl in Hadd.
    specialize (IH (<[r0 := Obj (o_cls o0) (o_id o0) d]> h)).
    destruct (Entry._add_futures lst fields _) as [kept h']. simpl in *.
    apply IH.
    + intros r o. destruct (decide (r0 = r)) as [<-|Hne].
      * rewrite list_lookup_insert_eq by by eapply lookup_lt_Some.
        intros [= <-]. simpl. apply Hadd; [by eapply Hh|].
        intros Hin. apply Ht in Hin. apply Forall_cons in Hin as [Hc _].
        destruct Hc as (o' & E' & Hc).
        assert (Some o0 = Some o') as [= ->]
          by exact (eq_trans (eq_sym E0) E'). done.
      * rewrite list_lookup_insert_ne by done. apply Hh.
    + intros Hin. apply Ht in Hin. apply Forall_cons in Hin as [_ Hl].
      eapply Forall_impl; [done|]. intros r.
      apply is_cls_stable. by apply stable_update.
  - apply IH; [done|]. intros Hin. apply Ht in Hin.
    by apply Forall_cons in Hin as [_ Hl].
Qed.

Lemma pending_run_sublists mk lst (p : ThreadPool.pool job) g :
  g ∈ pending (Entry.run_sublists mk lst p) ->
  g ∈ pending p \/ exists b, b ∈ batches lst /\ g = mk b.
Proof.
  unfold Entry.run_sublists, batches.
  generalize (Entry.range50 (length lst)). intros l. revert p.
  induction l as [|i l IH]; intros p; simpl; [by left|].
  intros [Hg|(b & Hb & ->)]%IH.
  - apply pending_run in Hg as [->|Hg]; [|by left].
    right. eexists. split; [apply list_elem_of_here|done].
  - right. exists b. split; [by apply list_elem_of_further|done].
Qed.

Lemma batches_elem lst b r : b ∈ batches lst -> r ∈ b -> r ∈ lst.
Proof.
  intros Hb Hr. rewrite <- (batches_concat lst).
  apply list_elem_of_In, in_concat. exists b.
  split; by apply list_elem_of_In.
Qed.

Lemma keeps_load_info fields mk lst st :
  Inv W st ->
  ("thumbnails" ∈ fields ->
   Forall (fun r => is_cls (heap st) r cPlaylist) lst) ->
  (forall b h, Forall (fun r => is_cls h r cPlaylist) b \/
               "thumbnails" ∉ fields -> job_ok h (mk b)) ->
  Inv W (let (lst', h) := Entry._add_futures lst fields (heap st) in
         State h (cache st) (lookups st)
               (Entry.run_sublists mk lst' (pool st)) (calls st)).
Proof.
  intros HI Ht Hmk.
  pose proof (add_futures_ok lst fields (heap st) (inv_heap _ _ HI) Ht) as Hok.
  pose proof (add_futures_grows lst fields (heap st)) as Hg.
  pose proof (add_futures_sublist lst fields (heap st)) as Hsub.
  destruct (Entry._add_futures lst fields (heap st)) as [lst' h].
  simpl in *. apply heap_grows_stable in Hg.
  apply (Inv_pool (with_heap h st)); [by apply Inv_heap|].
  simpl. intros g [Hg'|(b & Hb & ->)]%pending_run_sublists.
  - eapply job_ok_stable; [done|]. by eapply inv_jobs.
  - apply Hmk. destruct (decide ("thumbnails" ∈ fields)) as [Hin|Hin];
      [left|by right].
    apply Forall_forall. intros r Hr.
    eapply is_cls_stable; [done|].
    eapply (proj1 (Forall_forall _ _) (Ht Hin)).
    eapply elem_of_sublist; [|done]. by eapply batches_elem.
Qed.

Lemma keeps_video_load_info lst :
  keeps W (fun _ => True) (Video.load_info lst) (fun _ _ => True).
Proof.
  intros st st' r HI _. unfold Video.load_info.
  pose proof (keeps_load_info Video.fields video_batch lst st HI) as H.
  destruct (Entry._add_futures lst Video.fields (heap st)) as [lst' h].
  intros [= <- <-]. split; [|done]. apply H; [|done].
  intros Hin. exfalso. unfold Video.fields in Hin.
  repeat (apply elem_of_cons in Hin as [Hin|Hin]; [discriminate|]).
  by apply elem_of_nil in Hin.
Qed.

Lemma keeps_playlist_load_info lst :
  keeps W (fun h => Forall (fun r => is_cls h r cPlaylist) lst)
        (Playlist.load_info lst) (fun _ _ => True).
Proof.
  intros st st' r HI HP. unfold Playlist.load_info.
  pose proof (keeps_load_info Playlist.fields playlist_batch lst st HI) as H.
  destruct (Entry._add_futures lst Playlist.fields (heap st)) as [lst' h].
  intros [= <- <-]. split; [|done]. apply H; [done|].
  intros b h' [Hb|Hn]; [done|]. exfalso. apply Hn. unfold Playlist.fields.
  rewrite !elem_of_cons. tauto.
Qed.

Lemma keeps_batch_dict (q : call) :
  keeps W (fun _ => True) (Entry.batch_dict W q) (fun _ _ => True).
Proof.
  intros st st' r HI _ E. split; [|done].
  destruct (batch_dict_heap W q st) as (Hh & Hp & _).
  rewrite E in Hh, Hp. simpl in *. unfold Entry.batch_dict in E.
  apply (Inv_same st); [done| |done..].
  by destruct (_ ≫= _); injection E as <- _.
Qed.

Lemma keeps_set_batch (fields : list string) (items : gmap hkey json)
    (sublist : list ref) :
  "videos" ∉ fields ->
  keeps W (fun h => "thumbnails" ∈ fields ->
                    Forall (fun r => is_cls h r cPlaylist) sublist)
        (Entry.set_batch W fields items sublist) (fun _ _ => True).
Proof.
  intros Hv. induction sublist as [|r sublist IH]; simpl.
  - by apply keeps_ret.
  - intros st st' res HI HP. destruct (heap st !! r) as [o|] eqn:E;
      [|by intros [= <- <-]].
    clear E. revert st st' res HI HP.
    change (keeps W (fun h => "thumbnails" ∈ fields ->
                       Forall (fun r => is_cls h r cPlaylist) (r :: sublist))
              (Entry.set_api_data W r fields
                 (default JNull (items !! key_of (o_id o)));;
               Entry.set_batch W fields items sublist) (fun _ _ => True)).
    eapply (keeps_bind _ (fun _ h => "thumbnails" ∈ fields ->
              Forall (fun r => is_cls h r cPlaylist) sublist));
      [|intros ?; apply IH].
    eapply keeps_weaken;
      [apply (keeps_frame (futures_of fields)
                (fun h => "thumbnails" ∈ fields ->
                   Forall (fun r => is_cls h r cPlaylist) sublist));
       [apply set_api_data_grows| |by apply keeps_set_api_data]| |].
    + intros h h' Hst HF Hin. eapply Forall_impl; [by apply HF|].
      intros r'. by apply is_cls_stable.
    + intros h HP. split; intros Hin; apply HP in Hin;
        by apply Forall_cons in Hin as [??].
    + by intros _ h [_ ?].
Qed.

Lemma not_in_video_fields k :
  k ∈ Video.fields -> k <> "thumbnails" /\ k <> "videos".
Proof.
  unfold Video.fields. intros Hin.
  repeat (apply elem_of_cons in Hin as [->|Hin]; [done|]).
  by apply elem_of_nil in Hin.
Qed.

Lemma not_in_playlist_fields : "videos" ∉ Playlist.fields.
Proof.
  unfold Playlist.fields. intros Hin.
  repeat (apply elem_of_cons in Hin as [Hin|Hin]; [discriminate|]).
  by apply elem_of_nil in Hin.
Qed.

Lemma keeps_video_batch (q : call) sublist :
  keeps W (fun _ => True)
        (Entry.batch_dict W q
         ≫= fun x => Entry.set_batch W Video.fields x sublist)
        (fun _ _ => True).
Proof.
  eapply keeps_bind; [apply keeps_batch_dict|]. intros items.
  eapply keeps_weaken; [apply keeps_set_batch| |done].
  - intros Hin. by destruct (not_in_video_fields _ Hin).
  - intros h _ Hin. by destruct (not_in_video_fields _ Hin).
Qed.

Lemma keeps_video_job sublist :
  keeps W (fun _ => True) (Video.load_info_job W sublist) (fun _ _ => True).
Proof.
  intros st st' r HI HP E. by eapply keeps_video_batch.
Qed.

Lemma keeps_playlist_batch (q : call) sublist :
  keeps W (fun h => Forall (fun r => is_cls h r cPlaylist) sublist)
        (Entry.batch_dict W q
         ≫= fun x => Entry.set_batch W Playlist.fields x sublist)
        (fun _ _ => True).
Proof.
  eapply (keeps_bind _ (fun _ h =>
            Forall (fun r => is_cls h r cPlaylist) sublist)).
  - eapply keeps_weaken;
      [apply (keeps_frame any_name
                (fun h => Forall (fun r => is_cls h r cPlaylist) sublist));
       [apply batch_dict_grows| |apply keeps_batch_dict]| |].
    + intros h h' Hst HF. eapply Forall_impl; [done|].
      intros r'. by apply is_cls_stable.
    + done.
    + by intros _ h [_ ?].
  - intros items. eapply keeps_weaken;
      [apply keeps_set_batch, not_in_playlist_fields
      |intros h H _; exact H|done].
Qed.

Lemma keeps_playlist_job sublist :
  keeps W (fun h => Forall (fun r => is_cls h r cPlaylist) sublist)
        (Playlist.load_info_job W sublist) (fun _ _ => True).
Proof.
  intros st st' r HI HP E. by eapply keeps_playlist_batch.
Qed.

Lemma keeps_future_set self name v :
  keeps W (fun h => forall o, h !! self = Some o ->
                      future_ok W (o_cls o) (o_id o) name (Some v))
        (future_set self name v) (fun _ _ => True).
Proof.
  intros st st' r HI HP. unfold future_set.
  destruct (heap st !! self) as [o|] eqn:E; [|by intros [= <- <-]].
  destruct (o_dict o !! name) as [[v'|]|] eqn:E';
    intros [= <- <-]; (split; [|done]); try done.
  apply Inv_update; [done..|]. apply dict_ok_insert; [|by apply HP].
  by eapply inv_heap.
Qed.

Lemma keeps_new_future self name :
  keeps W (fun h => forall o, h !! self = Some o ->
                      future_ok W (o_cls o) (o_id o) name None)
        (new_future self name) (fun _ _ => True).
Proof.
  intros st st' r HI HP. unfold new_future.
  destruct (heap st !! self) as [o|] eqn:E; [|by intros [= <- <-]].
  intros [= <- <-]; (split; [|done]).
  apply Inv_update; [done..|]. apply dict_ok_insert; [|by apply HP].
  by eapply inv_heap.
Qed.

Lemma keeps_dict_of Pre self :
  keeps W Pre (dict_of self) (fun _ h => Pre h).
Proof.
  intros st st' r HI HP. unfold dict_of.
  destruct (heap st !! self); intros [= <- <-]; (split; [done|]); by intros.
Qed.

Lemma keeps_async Pre name func self :
  keeps W Pre (func self) (fun _ _ => True) ->
  keeps W Pre (async_property name func self) (fun _ _ => True).
Proof.
  intros Hfunc. unfold async_property.
  eapply keeps_bind; [apply keeps_dict_of|]. intros d.
  eapply (keeps_bind _ (fun _ _ => True)).
  - destruct (d !! name); [by apply keeps_ret|done].
  - intros _. eapply keeps_bind; [apply keeps_dict_of|]. intros d'.
    destruct (d' !! name); [by apply keeps_ret|by apply keeps_lift].
Qed.

(** [new_future] then [future_set], in one go. *)
Lemma new_then_set self name v st o :
  heap st !! self = Some o ->
  (new_future self name;; future_set self name v) st
  = (with_heap (<[self := Obj (o_cls o) (o_id o)
                              (<[name := Some v]> (o_dict o))]> (heap st)) st,
     Ok tt).
Proof.
  intros E. unfold mbind, M_bind, new_future, future_set. rewrite E. simpl.
  rewrite list_lookup_insert_eq by by eapply lookup_lt_Some. simpl.
  rewrite lookup_insert_eq. unfold with_heap. simpl.
  by rewrite list_insert_insert_eq, insert_insert_eq.
Qed.

Lemma keeps_video_thumbnails self :
  keeps W (fun h => is_cls h self cVideo) (Video.thumbnails self)
        (fun _ _ => True).
Proof.
  apply keeps_async. intros st st' r HI (o & E & Hc). rewrite E.
  rewrite (new_then_set _ _ _ _ _ E). intros [= <- <-]. split; [|done].
  apply Inv_update; [done..|]. apply dict_ok_insert; [by eapply inv_heap|].
  split_and!; try done.
Qed.

Lemma keeps_new_submit name f self :
  name <> "_thumbnails" ->
  (forall h, job_ok h (f self)) ->
  keeps W (fun _ => True)
        (async_property name
           (fun self => new_future self name;; submit (f self)) self)
        (fun _ _ => True).
Proof.
  intros Hname Hjob. apply keeps_async.
  eapply (keeps_bind _ (fun _ _ => True)).
  - eapply keeps_weaken; [apply keeps_new_future| |done].
    intros h _ o E. split_and!; try done.
  - intros _. eapply keeps_weaken;
      [apply keeps_submit|intros h _; apply Hjob|done].
Qed.

Lemma keeps_property c attr p self :
  property c attr = Some p ->
  keeps W (fun h => is_cls h self c) (p self) (fun _ _ => True).
Proof.
  unfold property. destruct c; repeat case_match; intros [= <-];
    try apply keeps_video_thumbnails;
    try (eapply keeps_weaken; [by apply keeps_new_submit|done..]);
    apply keeps_async.
  1-3: eapply keeps_weaken; [apply keeps_video_load_info|done..].
  all: eapply keeps_weaken; [apply keeps_playlist_load_info| |done].
  all: intros h Hc; by apply Forall_singleton.
Qed.

Lemma keeps_create_object item :
  keeps W (fun _ => True) (Entry.create_object W item) (fun _ _ => True).
Proof.
  unfold Entry.create_object.
  eapply (keeps_bind _ (fun _ _ => True)); [by apply keeps_lift|]. intros x.
  eapply (keeps_bind _ (fun _ _ => True)); [by apply keeps_lift|]. intros kind.
  assert (forall c f fields,
            "videos" ∉ fields -> ("thumbnails" ∈ fields -> c = cPlaylist) ->
            keeps W (fun _ => True)
              (y ← lift (subscript x f);
               obj ← Entry.get W c y;
               Entry.set_api_data W obj fields item;; mret obj)
              (fun _ _ => True)) as H.
  { intros c f fields Hv Ht.
    eapply (keeps_bind _ (fun _ _ => True)); [by apply keeps_lift|]. intros y.
    eapply keeps_bind; [apply keeps_get|]. intros obj.
    eapply (keeps_bind _ (fun _ _ => True)); [|intros; by apply keeps_ret].
    eapply keeps_weaken; [by apply keeps_set_api_data| |done].
    intros h Hc Hin. by rewrite <- (Ht Hin). }
  assert ("videos" ∉ ["title"; "channel"]) as H1.
  { intros Hin. repeat (apply elem_of_cons in Hin as [Hin|Hin];
                        [discriminate|]). by apply elem_of_nil in Hin. }
  assert ("videos" ∉ ["title"; "channel"; "thumbnails"]) as H2.
  { intros Hin. repeat (apply elem_of_cons in Hin as [Hin|Hin];
                        [discriminate|]). by apply elem_of_nil in Hin. }
  assert ("thumbnails" ∈ ["title"; "channel"] -> cVideo = cPlaylist) as H3.
  { intros Hin. repeat (apply elem_of_cons in Hin as [Hin|Hin];
                        [discriminate|]). by apply elem_of_nil in Hin. }
  repeat case_match; by apply H.
Qed.

Lemma keeps_map_create l :
  keeps W (fun _ => True) (Entry.map_create W l) (fun _ _ => True).
Proof.
  induction l as [|item l IH]; simpl; [by apply keeps_ret|].
  eapply (keeps_bind _ (fun _ _ => True)); [apply keeps_create_object|].
  intros obj. eapply (keeps_bind _ (fun _ _ => True)); [done|].
  intros objs. by apply keeps_ret.
Qed.

Lemma keeps_search q :
  keeps W (fun _ => True) (Entry.search W q) (fun _ _ => True).
Proof.
  unfold Entry.search. eapply (keeps_bind _ (fun _ _ => True)).
  - eapply (keeps_try any_name); [apply grows_fmap, ask_grows|done| |].
    + apply keeps_fmap, keeps_ask.
    + by apply keeps_ret.
  - intros [data|]; [|by apply keeps_ret].
    eapply (keeps_try any_name); [|done| |by apply keeps_ret].
    + apply grows_bind; [apply grows_lift|]. intros items.
      apply grows_fmap, map_create_grows.
    + eapply (keeps_bind _ (fun _ _ => True)); [by apply keeps_lift|].
      intros items. apply keeps_fmap, keeps_map_create.
Qed.

Lemma keeps_page_videos items myvideos :
  keeps W (fun _ => True) (Playlist.page_videos W items myvideos)
        (fun vs _ => length vs = (length myvideos + length items)%nat).
Proof.
  revert myvideos. induction items as [|item items IH]; intros myvideos;
    simpl.
  - apply keeps_ret. intros. lia.
  - eapply (keeps_bind _ (fun _ _ => True)); [by apply keeps_lift|].
    intros x.
    eapply (keeps_bind _ (fun _ _ => True));
      [eapply keeps_weaken; [apply keeps_get|done..]|].
    intros video.
    eapply (keeps_bind _ (fun _ _ => True)).
    + eapply keeps_weaken; [apply keeps_set_api_data| |done].
      * intros Hin. apply list_elem_of_singleton in Hin. discriminate.
      * intros h _ Hin. apply list_elem_of_singleton in Hin. discriminate.
    + intros _. eapply keeps_weaken; [apply IH|done|].
      intros vs _ ->. rewrite length_app. simpl. lia.
Qed.

Lemma self_max_videos_Ok c limit :
  Entry.self_max_videos W c = Ok limit -> limit = max_videos W.
Proof. destruct c; [done|]. by intros [= <-]. Qed.

Lemma keeps_videos_loop fuel self all_videos page :
  within_max W all_videos ->
  keeps W (fun _ => True) (Playlist.videos_loop W fuel self all_videos page)
        (fun res _ => forall l, res = Some l -> within_max W l).
Proof.
  revert all_videos page.
  induction fuel as [|fuel IH]; intros all_videos page Hb; simpl.
  - by apply keeps_ret.
  - intros st st' r HI _.
    assert (forall st1, heap st1 = heap st -> cache st1 = cache st ->
              pool st1 = pool st ->
              (st1, Ok (Some all_videos)) = (st', r) ->
              Inv W st' /\
              (forall a, r = Ok a -> forall l, a = Some l -> within_max W l))
      as Hexit.
    { intros st1 ? ? ? [= <- <-]. split; [by apply (Inv_same st)|].
      by intros ? [= <-] ? [= <-]. }
    destruct (heap st !! self) as [o|]; [|by intros [= <- <-]].
    destruct page; try (by apply Hexit).
    all: destruct (Entry.self_max_videos W (o_cls o)) as [limit|e] eqn:El;
      [apply self_max_videos_Ok in El as ->|by intros [= <- <-]].
    all: destruct (Z.ltb_spec (Z.of_nat (length all_videos)) (max_videos W))
      as [Hlt|]; [|by apply Hexit].
    all: generalize (List.length (calls st)); intros ncalls.
    all: destruct (remote W _ _) as [data|e] eqn:Er; [|by apply Hexit].
    all: match goal with
         | |- ?m ?s = _ -> _ => intros E; assert (Inv W s) as HI'
             by (by apply (Inv_same st)); revert E; generalize HI' I;
             generalize s; clear st HI HI' Hexit; intros st HI HP E;
             revert st st' r HI HP E
         end.
    all: refine (_ : keeps W (fun _ => True) _
                   (fun res _ => forall l, res = Some l -> within_max W l)).
    all: eapply (keeps_bind _ (fun _ _ => True)); [by apply keeps_lift|];
      intros page'.
    all: eapply (keeps_bind _ (fun its _ =>
                   subscript data "items" ≫= iter = Ok its));
      [apply keeps_lift; by intros ? ? _ ->|]; intros its.
    all: eapply (keeps_bind _ (fun vs _ =>
                   subscript data "items" ≫= iter = Ok its
                   /\ length vs = length its)).
    all: try (intros st st' r HI Hits E;
              destruct (keeps_page_videos its [] _ _ _ HI I E) as [HI' Hl];
              split; [done|]; intros vs ->; split; [done|];
              by apply Hl).
    all: intros vs.
    all: eapply (keeps_bind _ (fun _ _ =>
                   subscript data "items" ≫= iter = Ok its
                   /\ length vs = length its)).
    all: try (intros st st' r HI Hits E;
              destruct (keeps_video_load_info vs _ _ _ HI I E) as [HI' _];
              split; [done|]; by intros).
    all: intros _ st st' r HI [Hits Hlen] E.
    all: eapply (IH (all_videos ++ vs)); [|done|done|done].
    all: intros Hmax Hps; rewrite length_app, Hlen.
    all: assert (0 < (max_videos W - Z.of_nat (length all_videos)) `min` 50)
      as Hpos by lia.
    all: pose proof (Hps _ _ _ _ _ _ Hpos Er Hits); lia.
Qed.

Lemma keeps_videos_job fuel self :
  keeps W (fun _ => True) (Playlist.videos_job W fuel self) (fun _ _ => True).
Proof.
  unfold Playlist.videos_job.
  eapply (keeps_bind _ (fun res _ =>
            forall l, res = Some l -> within_max W l));
    [apply keeps_videos_loop; intros ? ?; simpl; lia|].
  intros [all_videos|]; [|by apply keeps_ret].
  eapply (keeps_bind _ (fun _ _ => True)); [|intros; by apply keeps_ret].
  eapply keeps_weaken; [apply keeps_future_set| |done].
  intros h Hb o E. split_and!; try done.
  intros _ v [= <-] Hmax Hps. exists all_videos. split; [done|].
  by apply (Hb _ eq_refl).
Qed.

Lemma keeps_audio_url_job self :
  keeps W (fun _ => True) (Video.audio_url_job W self) (fun _ _ => True).
Proof.
  intros st st' r HI _. unfold Video.audio_url_job.
  destruct (heap st !! self) as [o|]; [|by intros [= <- <-]].
  generalize I. revert st st' r HI.
  refine (_ : keeps W (fun _ => True) _ (fun _ _ => True)).
  assert (forall v, keeps W (fun _ => True) (future_set self "_audio_url" v)
                          (fun _ _ => True)) as Hset.
  { intros v. eapply keeps_weaken; [apply keeps_future_set| |done].
    intros h _ o' E. split_and!; done. }
  eapply (keeps_bind _ (fun _ _ => True)).
  - eapply (keeps_try any_name); [apply grows_fmap, ask_grows|done| |].
    + apply keeps_fmap, keeps_ask.
    + by apply keeps_ret.
  - intros [info|]; [|done].
    eapply (keeps_bind _ (fun _ _ => True)); [by apply keeps_lift|].
    intros url. done.
Qed.

Lemma keeps_apply fuel f :
  keeps W (fun h => job_ok h f) (apply W fuel f) (fun _ _ => True).
Proof.
  destruct f as [sublist|sublist|self|self]; simpl.
  - eapply (keeps_bind _ (fun _ _ => True)); [|intros; by apply keeps_ret].
    eapply keeps_weaken; [apply keeps_video_job|done..].
  - eapply (keeps_bind _ (fun _ _ => True)); [|intros; by apply keeps_ret].
    apply keeps_playlist_job.
  - eapply keeps_weaken; [apply keeps_videos_job|done..].
  - eapply (keeps_bind _ (fun _ _ => True)); [|intros; by apply keeps_ret].
    eapply keeps_weaken; [apply keeps_audio_url_job|done..].
Qed.

Lemma keeps_serve q :
  keeps W (fun _ => True) (serve W q) (fun _ _ => True).
Proof.
  destruct q as [c x|q|attr self]; simpl.
  - eapply (keeps_bind _ (fun _ _ => True)); [|intros; by apply keeps_ret].
    eapply keeps_weaken; [apply keeps_get|done..].
  - eapply (keeps_bind _ (fun _ _ => True)); [|intros; by apply keeps_ret].
    apply keeps_search.
  - intros st st' r HI _. destruct (heap st !! self) as [o|] eqn:E;
      [|by intros [= <- <-]].
    destruct (property (o_cls o) attr) as [p|] eqn:Ep;
      [|by intros [= <- <-]].
    intros Es.
    assert (keeps W (fun h => is_cls h self (o_cls o)) (p self;; mret ())
                  (fun _ _ => True)) as H.
    { eapply (keeps_bind _ (fun _ _ => True)); [|intros; by apply keeps_ret].
      by eapply keeps_property. }
    eapply H; [done| |done]. by exists o.
Qed.

Lemma pending_worker_lock i (p q : ThreadPool.pool job) g :
  ThreadPool.worker_lock i p = Some q -> g ∈ pending q -> g ∈ pending p.
Proof.
  unfold ThreadPool.worker_lock, pending.
  destruct (ThreadPool.threads p !! i) as [[|f]|] eqn:Ei; try discriminate.
  destruct (ThreadPool.pop (ThreadPool.jobs p)) as [[rest f]|] eqn:Ep;
    intros [= <-]; simpl.
  - apply ThreadPoolFacts.pop_snoc_inv in Ep. rewrite Ep.
    rewrite (ThreadPoolFacts.in_flight_insert_applying _ _ f Ei).
    rewrite !elem_of_app, elem_of_cons, list_elem_of_singleton. tauto.
  - by rewrite (ThreadPoolFacts.in_flight_delete _ _ Ei).
Qed.

Lemma pending_worker_applied i (p q : ThreadPool.pool job) g :
  ThreadPool.worker_applied i p = Some q -> g ∈ pending q -> g ∈ pending p.
Proof.
  unfold ThreadPool.worker_applied, pending.
  destruct (ThreadPool.threads p !! i) as [[|f]|] eqn:Ei; try discriminate.
  intros [= <-]; simpl.
  rewrite <- (ThreadPoolFacts.in_flight_insert_atloop _ _ f Ei).
  rewrite !elem_of_app, elem_of_cons. tauto.
Qed.

Lemma in_flight_applying (ts : list (ThreadPool.thread job)) i f :
  ts !! i = Some (ThreadPool.Applying f) -> f ∈ ThreadPool.in_flight ts.
Proof.
  intros E. unfold ThreadPool.in_flight. apply list_elem_of_omap.
  exists (ThreadPool.Applying f). split; [|done].
  by eapply list_elem_of_lookup_2.
Qed.

(** Every move of the program keeps the invariant. *)
Lemma Inv_step st st' : Inv W st -> prog_step W st st' -> Inv W st'.
Proof.
  intros HI Hs.
  inversion Hs as [q st0 st1 r E|i st0 p E|i f fuel st0 st1 r p Ei E _ Ea];
    subst.
  - by eapply keeps_serve.
  - apply Inv_pool; [done|]. intros g Hg. eapply inv_jobs; [done|].
    by eapply pending_worker_lock.
  - assert (job_ok (heap st) f) as Hf.
    { eapply inv_jobs; [done|]. unfold pending. apply elem_of_app. right.
      by eapply in_flight_applying. }
    destruct (keeps_apply fuel f _ _ _ HI Hf E) as [HI1 _].
    apply Inv_pool; [done|]. intros g Hg. eapply inv_jobs; [done|].
    by eapply pending_worker_applied.
Qed.

Lemma Inv_reachable st : prog_reachable W st -> Inv W st.
Proof.
  induction 1 as [|st st' _ IH Hstep]; [apply Inv_init|by eapply Inv_step].
Qed.

End Invariant.

(** ** [Video.thumbnails] *)

Section Thumbnails.
Context (W : world).

(** C10: in every reachable state, reading [thumbnails] of a video makes
    no call of the collaborator and submits no job, and returns a future
    that is set to the list of the two URLs built from the id of the
    video, [mqdefault] first. *)
Theorem video_thumbnails_ready st self o :
  prog_reachable W st -> heap st !! self = Some o -> o_cls o = cVideo ->
  exists st',
    Video.thumbnails self st
    = (st', Ok (Some (VJson (JArr
         [JStr ("https://i.ytimg.com/vi/" +:+ str (o_id o)
                +:+ "/mqdefault.jpg");
          JStr ("https://i.ytimg.com/vi/" +:+ str (o_id o)
                +:+ "/hqdefault.jpg")]))))
    /\ calls st' = calls st /\ pool st' = pool st.
Proof.
  intros Hr E Hc. apply Inv_reachable in Hr.
  destruct (o_dict o !! "_thumbnails") as [f|] eqn:Ef.
  - destruct (inv_heap _ _ Hr _ _ E _ _ Ef) as [Ht _].
    rewrite (Ht eq_refl Hc) in Ef.
    pose proof (async_property_spec "_thumbnails"
      (fun self st0 =>
         match heap st0 !! self with
         | Some o0 =>
             (new_future self "_thumbnails";;
              future_set self "_thumbnails" (thumbnails_of (o_id o0))) st0
         | None => (st0, Raise AttributeError)
         end) self st o E) as H.
    rewrite Ef in H. exists st. split; [exact H|done].
  - eexists. split.
    + unfold Video.thumbnails, async_property.
      unfold mbind at 1. unfold M_bind at 1. unfold dict_of at 1.
      rewrite E. simpl. rewrite Ef.
      unfold mbind at 1. unfold M_bind at 1. rewrite E.
      rewrite (new_then_set _ _ _ _ _ E).
      unfold mbind, M_bind, dict_of. simpl.
      rewrite list_lookup_insert_eq by by eapply lookup_lt_Some. simpl.
      rewrite lookup_insert_eq. reflexivity.
    + done.
Qed.

End Thumbnails.

(** A video fetched by its id. *)
Lemma video_thumbnails_ready_witness :
  exists st',
    Video.thumbnails 0%nat
      (after (serve failing_world (req_get cVideo (JStr "7uj0hOIm2kY")))
             init_state)
    = (st', Ok (Some (VJson (JArr
         [JStr "https://i.ytimg.com/vi/7uj0hOIm2kY/mqdefault.jpg";
          JStr "https://i.ytimg.com/vi/7uj0hOIm2kY/hqdefault.jpg"]))))
    /\ calls st' = [] /\ pool st' = ThreadPool.init.
Proof.
  apply (video_thumbnails_ready failing_world
           (after (serve failing_world (req_get cVideo (JStr "7uj0hOIm2kY")))
                  init_state)
           0%nat (Obj cVideo (IStr "7uj0hOIm2kY") ∅)).
  - eapply prog_next; [apply prog_init|].
    eapply (step_serve _ (req_get cVideo (JStr "7uj0hOIm2kY"))).
    reflexivity.
  - reflexivity.
  - reflexivity.
Defined.

(** ** [video_count] and [videos] stay within [max_videos] *)

Section Bounds.
Context (W : world).

Lemma future_at_ok st (r : ref) name f :
  Inv W st -> future_at st r name = Some f ->
  exists o, heap st !! r = Some o
            /\ future_ok W (o_cls o) (o_id o) name f.
Proof.
  intros HI. unfold future_at.
  destruct (heap st !! r) as [o|] eqn:E; [|done]. simpl. intros Ef.
  exists o. split; [done|]. by eapply inv_heap.
Qed.

(** C7: the count that [_set_api_data] resolves for an item count [n] is
    the smaller of [n] and [max_videos] (60 for 85 and a maximum of 60);
    and, when [max_videos] is not negative and every page has at most the
    requested number of items, in every reachable state a resolved
    [video_count] is [None] or a number that is at most [max_videos], and
    a resolved [videos] is a list of at most [max_videos] videos. *)
Theorem video_count_and_videos_within_max st (r : ref) :
  0 <= max_videos W -> page_sized W -> prog_reachable W st ->
  (forall id title channel n val,
     Entry.field_value W cPlaylist "video_count"
       (playlist_item id title channel (JNum n)) val
     = Ok (VJson (JNum (Z.min n (max_videos W)))))
  /\ (max_videos W = 60 -> min_int (JNum 85) (max_videos W) = JNum 60)
  /\ (forall v, future_at st r "_video_count" = Some (Some v) ->
        count_ok W v)
  /\ (forall v, future_at st r "_videos" = Some (Some v) ->
        exists l, v = VVideos l /\ Z.of_nat (length l) <= max_videos W).
Proof.
  intros Hmax Hps Hr. apply Inv_reachable in Hr. split_and!.
  - intros id title channel n val. unfold Entry.field_value. simpl.
    unfold min_int, int_lt. f_equal. f_equal.
    destruct (Z.ltb_spec (max_videos W) n); f_equal; lia.
  - by intros ->.
  - intros v Hv. destruct (future_at_ok _ _ _ _ Hr Hv) as (o & _ & _ & Hc & _).
    by apply (Hc eq_refl).
  - intros v Hv. destruct (future_at_ok _ _ _ _ Hr Hv) as (o & _ & _ & _ & Hl).
    by apply (Hl eq_refl).
Qed.

End Bounds.

Lemma one_playlist_world_sized entries :
  page_sized (one_playlist_world entries).
Proof.
  intros n id page max_results data items Hpos. simpl.
  intros [= <-]. simpl. intros [= <-].
  rewrite length_map, length_take. lia.
Qed.

Lemma serve_move W q st : prog_step W st (after (serve W q) st).
Proof. eapply (step_serve _ q). apply surjective_pairing. Qed.

Lemma lock_move_step W i st :
  is_Some (ThreadPool.worker_lock i (pool st)) ->
  prog_step W st (lock_move i st).
Proof.
  intros [p E]. unfold lock_move. rewrite E. by apply (step_lock _ i).
Qed.

Lemma apply_move_step W i fuel st f :
  ThreadPool.threads (pool st) !! i = Some (ThreadPool.Applying f) ->
  (apply W fuel f st).2 <> Ok None ->
  is_Some (ThreadPool.worker_applied i (pool (after (apply W fuel f) st))) ->
  prog_step W st (apply_move W i fuel st).
Proof.
  intros Ei Hr [p Ep]. unfold apply_move. rewrite Ei. cbv zeta.
  rewrite Ep. eapply (step_apply _ i f fuel); [done| |done..].
  apply surjective_pairing.
Qed.

(** A playlist of three videos, read to its end. *)
Lemma video_count_and_videos_within_max_witness :
  exists l, VVideos [1; 2; 3]%nat = VVideos l
            /\ Z.of_nat (length l)
               <= max_videos (one_playlist_world
                                [("a", "A"); ("b", "B"); ("c", "C")]).
Proof.
  set (W := one_playlist_world [("a", "A"); ("b", "B"); ("c", "C")]).
  set (st1 := after (serve W (req_get cPlaylist (JStr "PL"))) init_state).
  set (st2 := after (serve W (req_read "videos" 0%nat)) st1).
  apply (video_count_and_videos_within_max W (playlist_read W) 0%nat).
  - simpl. lia.
  - apply one_playlist_world_sized.
  - apply (prog_next _ (lock_move 0 st2)).
    + apply (prog_next _ st2).
      * apply (prog_next _ st1).
        -- apply (prog_next _ init_state); [apply prog_init|].
           apply serve_move.
        -- apply serve_move.
      * apply lock_move_step. vm_compute. eauto.
    + apply (apply_move_step _ _ _ _ (playlist_videos 0%nat)).
      * vm_compute. reflexivity.
      * vm_compute. discriminate.
      * vm_compute. eauto.
  - vm_compute. reflexivity.
Defined.

(** ** [Entry.get] and its cache *)

Section Cache.
Context (W : world).

(** C8: in every reachable state, [get] on a key that is resident returns
    the cached instance, an instance of the class asked for, and builds
    nothing; what [get] returns is resident afterwards, so that a second
    call returns the same instance; and the cache, one for both classes,
    never holds more than [cache_max_len] = 400 entries when the
    replacement policy evicts a resident entry. *)
Theorem get_returns_cached_instance st c (x : json) :
  prog_reachable W st ->
  (forall i (r : ref),
     hashable x = Ok i -> cache st !! (c, key_of i) = Some r ->
     exists st',
       Entry.get W c x st = (st', Ok r)
       /\ heap st' = heap st /\ cache st' = cache st
       /\ is_cls (heap st) r c)
  /\ (forall st1 (r : ref),
        Entry.get W c x st = (st1, Ok r) ->
        (exists i, hashable x = Ok i /\ cache st1 !! (c, key_of i) = Some r)
        /\ exists st2, Entry.get W c x st1 = (st2, Ok r)
                       /\ heap st2 = heap st1)
  /\ (victim_resident W -> (size (cache st) <= 400)%nat).
Proof.
  intros Hr. apply Inv_reachable in Hr. split_and!.
  - intros i r Hi E. unfold Entry.get. rewrite Hi, E.
    eexists. split_and!; try done.
    destruct (inv_cache _ _ Hr _ _ _ E) as (o & Eo & Hc & _). by exists o.
  - intros st1 r. unfold Entry.get.
    destruct (hashable x) as [i|e] eqn:Hi; [|by intros [= _ ?]].
    destruct (cache st !! (c, key_of i)) as [r0|] eqn:E.
    + intros [= <- <-]. simpl. rewrite E.
      split; [exists i; split; [reflexivity|exact E]|].
      eexists. split; reflexivity.
    + intros [= <- <-]. simpl. rewrite lookup_insert_eq.
      split; [exists i; split; [reflexivity|apply lookup_insert_eq]|].
      eexists. split; reflexivity.
  - apply (inv_size _ _ Hr).
Qed.

End Cache.

Lemma first_resident_resident : victim_resident failing_world.
Proof.
  intros log c Hne. simpl. unfold first_resident.
  destruct (map_to_list c) as [|[k v] l] eqn:E.
  - by apply map_to_list_empty_iff in E.
  - exists v. apply elem_of_map_to_list. rewrite E. apply list_elem_of_here.
Qed.

(** The id of the source's own example, fetched twice. *)
Lemma get_returns_cached_instance_witness :
  let st1 := after (Entry.get failing_world cVideo (JStr "7uj0hOIm2kY"))
                   init_state in
  (exists st2, Entry.get failing_world cVideo (JStr "7uj0hOIm2kY") st1
               = (st2, Ok 0%nat)
               /\ heap st2 = heap st1)
  /\ (size (cache init_state) <= 400)%nat.
Proof.
  intros st1.
  destruct (get_returns_cached_instance failing_world init_state cVideo
              (JStr "7uj0hOIm2kY") (prog_init _)) as (_ & Hagain & Hsize).
  split.
  - apply (Hagain st1 0%nat). reflexivity.
  - apply Hsize, first_resident_resident.
Defined.

(** ** A page of [list_playlistitems] that fails *)

Section Pagination.
Context (W : world).
Implicit Types (st : state) (r self : ref) (h : list obj).

Lemma video_of_stable h h' r e :
  stable h h' -> video_of h r e -> video_of h' r e.
Proof.
  intros Hst (o & E & Hc & Hi). destruct (Hst r o E) as (o' & E' & Hc' & Hi').
  exists o'. split_and!; [done|congruence..].
Qed.

Lemma key_of_IStr i s : key_of i = key_of (IStr s) -> i = IStr s.
Proof. destruct i as [|[]|n|s']; simpl; try discriminate. by intros [= ->]. Qed.

(** [Video.get] on a string id returns the video with that id. *)
Lemma get_video id title st :
  Inv W st ->
  exists st1 r,
    Entry.get W cVideo (JStr id) st = (st1, Ok r)
    /\ Inv W st1 /\ calls st1 = calls st
    /\ video_of (heap st1) r (id, title).
Proof.
  intros HI.
  destruct (Entry.get W cVideo (JStr id) st) as [st1 res] eqn:E.
  destruct (keeps_get W cVideo (JStr id) _ _ _ HI I E) as [HI1 _].
  revert E. unfold Entry.get. simpl hashable. cbv iota beta.
  destruct (cache st !! (cVideo, key_of (IStr id))) as [r0|] eqn:Ec.
  - intros [= <- <-]. eexists _, r0. split_and!; try done.
    destruct (inv_cache _ _ HI _ _ _ Ec) as (o & Eo & Hc & Hk).
    exists o. split_and!; try done. by apply key_of_IStr.
  - intros [= <- <-]. eexists _, _. split_and!; try done.
    exists (Obj cVideo (IStr id) ∅). split_and!; [|done..]. simpl.
    rewrite lookup_app_r by done. by rewrite Nat.sub_diag.
Qed.

(** [_set_api_data(['title'], item)] on an item of a page does not
    raise. *)
Lemma set_title r id title st :
  is_Some (heap st !! r) ->
  exists st2,
    Entry.set_api_data W r ["title"] (page_item id title) st = (st2, Ok tt)
    /\ calls st2 = calls st.
Proof.
  intros [o E]. unfold Entry.set_api_data, Entry._set_api_data. rewrite E.
  simpl.
  destruct (o_dict o !! Entry.future_name "title") as [[v|]|]; simpl; eauto.
Qed.

Lemma load_info_ok lst st :
  exists st', Video.load_info lst st = (st', Ok tt) /\ calls st' = calls st.
Proof.
  unfold Video.load_info.
  destruct (Entry._add_futures lst Video.fields (heap st)) as [lst' h].
  eauto.
Qed.

Lemma page_videos_ok entries : forall st acc,
  Inv W st ->
  exists st' vs,
    Playlist.page_videos W (map (fun e => page_item e.1 e.2) entries) acc st
    = (st', Ok (acc ++ vs))
    /\ Inv W st' /\ calls st' = calls st
    /\ Forall2 (video_of (heap st')) vs entries.
Proof.
  induction entries as [|[id title] entries IH]; intros st acc HI.
  - exists st, []. rewrite app_nil_r. by split_and!.
  - simpl. unfold mbind at 1. unfold M_bind at 1. unfold lift at 1.
    simpl. unfold mbind at 1. unfold M_bind at 1.
    destruct (get_video id title st HI) as (st1 & r & -> & HI1 & Hc1 & Hv).
    unfold mbind at 1. unfold M_bind at 1.
    destruct (set_title r id title st1) as (st2 & E2 & Hc2).
    { destruct Hv as (o & E & _). eauto. }
    rewrite E2.
    destruct (keeps_set_api_data W r ["title"] (page_item id title))
      with (st := st1) (st' := st2) (r := Ok tt) as [HI2 _]; try done.
    { intros Hin. apply list_elem_of_singleton in Hin. discriminate. }
    { intros Hin. apply list_elem_of_singleton in Hin. discriminate. }
    destruct (IH st2 (acc ++ [r]) HI2) as (st' & vs & E' & HI' & Hc' & Hvs).
    rewrite E'. exists st', (r :: vs). split_and!.
    + by rewrite <- app_assoc.
    + done.
    + congruence.
    + constructor; [|done].
      eapply video_of_stable; [|done].
      eapply stable_trans.
      * eapply heap_grows_stable. eapply set_api_data_grows. exact E2.
      * eapply heap_grows_stable. eapply page_videos_grows. exact E'.
Qed.

Lemma videos_loop_pages self : forall pages fuel st all tok,
  Inv W st -> is_cls (heap st) self cPlaylist ->
  Forall (fun p : string * list (string * string) => p.1 <> "") pages ->
  Z.of_nat (length all + length (concat (map snd pages))) < max_videos W ->
  (forall k p c, pages !! k = Some p ->
     remote W (length (calls st) + k) c = Ok (page_json p.1 p.2)) ->
  (forall c, exists e,
     remote W (length (calls st) + length pages) c = Raise e) ->
  (length pages < fuel)%nat ->
  exists st' vs,
    Playlist.videos_loop W fuel self all (JStr tok) st
    = (st', Ok (Some (all ++ vs)))
    /\ Forall2 (video_of (heap st')) vs (concat (map snd pages)).
Proof.
  induction pages as [|[next entries] pages IH];
    intros fuel st all tok HI (o & Eo & Hc) Hne Hlt Hok Hfail Hfuel.
  - destruct fuel as [|fuel]; [simpl in Hfuel; lia|].
    simpl. rewrite Eo, Hc. simpl.
    destruct (Z.ltb_spec (Z.of_nat (length all)) (max_videos W)) as [_|Hge];
      [|simpl in Hlt; lia].
    match goal with
    | |- context [remote W ?n ?c] => destruct (Hfail c) as [e He]
    end.
    simpl in He. rewrite Nat.add_0_r in He. rewrite He.
    eexists _, []. rewrite app_nil_r. split; [done|constructor].
  - destruct fuel as [|fuel]; [simpl in Hfuel; lia|].
    simpl. rewrite Eo, Hc. simpl.
    destruct (Z.ltb_spec (Z.of_nat (length all)) (max_videos W)) as [_|Hge];
      [|simpl in Hlt; lia].
    match goal with
    | |- context [remote W ?n ?c] =>
        pose proof (Hok 0%nat (next, entries) c eq_refl) as He
    end.
    rewrite Nat.add_0_r in He. rewrite He. simpl.
    set (st0 := State _ _ _ _ _).
    assert (Inv W st0) as HI0 by (by apply (Inv_same W st)).
    apply Forall_cons in Hne as [Hnext Hne]. simpl in Hnext.
    assert (or_None (JStr next) = JStr next) as ->.
    { unfold or_None. simpl. by destruct (String.eqb_spec next ""). }
    unfold mbind at 1. unfold M_bind at 1. unfold lift at 1.
    unfold mbind at 1. unfold M_bind at 1. unfold lift at 1.
    unfold mbind at 1. unfold M_bind at 1.
    destruct (page_videos_ok entries st0 [] HI0)
      as (st1 & vs1 & E1 & HI1 & Hc1 & Hv1).
    simpl in E1. rewrite E1.
    unfold mbind at 1. unfold M_bind at 1.
    destruct (load_info_ok vs1 st1) as (st2 & E2 & Hc2). rewrite E2.
    destruct (keeps_video_load_info W vs1 _ _ _ HI1 I E2) as [HI2 _].
    pose proof (heap_grows_stable _ _ _ (page_videos_grows W _ _ _ _ _ E1))
      as Hs1.
    pose proof (heap_grows_stable _ _ _ (video_load_info_grows _ _ _ _ E2))
      as Hs2.
    pose proof (Forall2_length _ _ _ Hv1) as Hlen.
    destruct (IH fuel st2 (all ++ vs1) next HI2) as (st' & vs' & E' & Hv').
    + eapply is_cls_stable; [exact Hs2|].
      eapply is_cls_stable; [exact Hs1|]. by exists o.
    + done.
    + rewrite length_app, Hlen. simpl in Hlt. rewrite length_app in Hlt. lia.
    + intros k p c Hp. rewrite Hc2, Hc1. unfold st0. simpl.
      rewrite length_app. simpl.
      replace (length (calls st) + 1 + k)%nat
        with (length (calls st) + S k)%nat by lia.
      by apply Hok.
    + intros c. rewrite Hc2, Hc1. unfold st0. simpl.
      rewrite length_app. simpl.
      replace (length (calls st) + 1 + length pages)%nat
        with (length (calls st) + S (length pages))%nat by lia.
      apply Hfail.
    + simpl in Hfuel. lia.
    + rewrite E'. exists st', (vs1 ++ vs'). split; [by rewrite app_assoc|].
      apply Forall2_app; [|done].
      eapply Forall2_impl; [exact Hv1|]. intros r e.
      apply video_of_stable. eapply stable_trans; [exact Hs2|].
      eapply heap_grows_stable. eapply videos_loop_grows. exact E'.
Qed.

Lemma not_videos_future : ~ futures_of Video.fields "_videos".
Proof.
  unfold futures_of, Video.fields. simpl. intros Hin.
  repeat (apply elem_of_cons in Hin as [Hin|Hin]; [discriminate|]).
  by apply elem_of_nil in Hin.
Qed.

(** C3: the [videos] job of a playlist whose pages come in with a next
    token, while fewer than [max_videos] items are gathered, until one call
    of [list_playlistitems] raises: the job returns, and the [videos]
    future is set, to the list of the [Video] instances of the items of
    the pages fetched before the failure, in their order.  (With no page
    before the failure the list is empty.) *)
Theorem videos_partial_after_failed_page fuel self st o
    (pages : list (string * list (string * string))) :
  prog_reachable W st ->
  heap st !! self = Some o -> o_cls o = cPlaylist ->
  o_dict o !! "_videos" = Some None ->
  Forall (fun p => p.1 <> "") pages ->
  Z.of_nat (length (concat (map snd pages))) < max_videos W ->
  (forall k p c, pages !! k = Some p ->
     remote W (length (calls st) + k) c = Ok (page_json p.1 p.2)) ->
  (forall c, exists e,
     remote W (length (calls st) + length pages) c = Raise e) ->
  (length pages < fuel)%nat ->
  exists st' vids,
    Playlist.videos_job W fuel self st = (st', Ok (Some tt))
    /\ future_at st' self "_videos" = Some (Some (VVideos vids))
    /\ Forall2 (video_of (heap st')) vids (concat (map snd pages)).
Proof.
  intros Hr Eo Hc Hv Hne Hlt Hok Hfail Hfuel. apply Inv_reachable in Hr.
  destruct (videos_loop_pages self pages fuel st [] "" Hr)
    as (st1 & vids & E1 & Hvids); try done.
  { by exists o. }
  simpl in E1.
  pose proof (videos_loop_grows W _ _ _ _ _ _ _ E1) as Hg.
  destruct (Hg self o Eo) as (o1 & Eo1 & Hc1 & Hi1 & Hd).
  pose proof (dict_grows_frame _ _ _ _ Hd not_videos_future) as Hv1.
  rewrite Hv in Hv1.
  unfold Playlist.videos_job, mbind, M_bind. rewrite E1.
  unfold future_set. rewrite Eo1, Hv1. simpl.
  eexists _, vids. split_and!; [done| |].
  - unfold future_at. simpl.
    rewrite list_lookup_insert_eq by by eapply lookup_lt_Some.
    simpl. by rewrite lookup_insert_eq.
  - simpl. eapply Forall2_impl; [exact Hvids|]. intros r e.
    apply video_of_stable. by apply stable_update.
Qed.

End Pagination.

(** One page, then a failure: the two videos of the page. *)
Lemma videos_partial_after_failed_page_witness :
  exists st' vids,
    Playlist.videos_job second_page_fails 2 0%nat
                        (videos_requested second_page_fails)
    = (st', Ok (Some tt))
    /\ future_at st' 0%nat "_videos" = Some (Some (VVideos vids))
    /\ Forall2 (video_of (heap st')) vids [("a", "A"); ("b", "B")].
Proof.
  apply (videos_partial_after_failed_page second_page_fails 2 0%nat
           (videos_requested second_page_fails)
           (Obj cPlaylist (IStr "PL") {["_videos" := None]})
           [("t2", [("a", "A"); ("b", "B")])]).
  - unfold videos_requested.
    eapply prog_next; [eapply prog_next; [apply prog_init|]|];
      apply serve_move.
  - vm_compute. reflexivity.
  - reflexivity.
  - vm_compute. reflexivity.
  - by repeat constructor.
  - simpl. lia.
  - intros [|k] p c; [|done]. by intros [= <-].
  - intros c. by exists RemoteError.
  - simpl. lia.
Defined.

(** The collaborator raises on the second of three pages: [videos] holds
    the items of the first page only. *)
Example videos_second_page_fails :
  let st := videos_requested second_page_fails in
  let st' := after (Playlist.videos_job second_page_fails 3 0%nat) st in
  future_at st 0%nat "_videos" = Some None
  /\ future_at st' 0%nat "_videos" = Some (Some (VVideos [1; 2]%nat))
  /\ Entry.ids_of (heap st') [1; 2]%nat = [IStr "a"; IStr "b"]
  /\ call_sizes (calls st') = []
  /\ length (calls st') = 2%nat.
Proof. vm_compute. done. Qed.

(** * Further properties *)

(** Membership in a list of literals. *)
Ltac not_in_list H :=
  repeat (apply elem_of_cons in H as [H|H]; [discriminate H|]);
  by apply elem_of_nil in H.

Ltac in_list :=
  solve [repeat first [apply list_elem_of_here | apply list_elem_of_further]].

Section Search.
Context (W : world).
Implicit Types (st : state) (r self : ref) (h : list obj).

Lemma quiet_ret {A} (a : A) : quiet (mret a).
Proof. by intros st st' r [= <- _]. Qed.

Lemma quiet_lift {A} (x : res A) : quiet (lift x).
Proof. by intros st st' r [= <- _]. Qed.

Lemma quiet_bind {A B} (m : M A) (k : A -> M B) :
  quiet m -> (forall a, quiet (k a)) -> quiet (m ≫= k).
Proof.
  intros Hm Hk st st' r. unfold mbind, M_bind.
  destruct (m st) as [st1 [a|e]] eqn:E.
  - intros Hr. destruct (Hm _ _ _ E) as [Hc Hp].
    destruct (Hk a _ _ _ Hr) as [Hc' Hp']. split; congruence.
  - intros [= <- _]. by eapply Hm.
Qed.

Lemma quiet_fmap {A B} (f : A -> B) (m : M A) : quiet m -> quiet (f <$> m).
Proof.
  intros Hm st st' r. unfold fmap, M_fmap.
  destruct (m st) as [st1 [a|e]] eqn:E; intros [= <- _]; by eapply Hm.
Qed.

Lemma quiet_get c (x : json) : quiet (Entry.get W c x).
Proof.
  intros st st' r. unfold Entry.get.
  destruct (hashable x) as [i|e]; [|by intros [= <- _]].
  destruct (cache st !! (c, key_of i)); by intros [= <- _].
Qed.

Lemma quiet_set_api_data self fields item :
  quiet (Entry.set_api_data W self fields item).
Proof.
  intros st st' r. unfold Entry.set_api_data.
  destruct (heap st !! self) as [o|]; [|by intros [= <- _]].
  destruct (Entry._set_api_data W o fields item). by intros [= <- _].
Qed.

Lemma quiet_create_object item : quiet (Entry.create_object W item).
Proof.
  unfold Entry.create_object.
  apply quiet_bind; [apply quiet_lift|]. intros id.
  apply quiet_bind; [apply quiet_lift|]. intros kind.
  assert (forall c f fields, quiet
            (x ← lift (subscript id f);
             obj ← Entry.get W c x;
             Entry.set_api_data W obj fields item;; mret obj)) as H.
  { intros c f fields.
    apply quiet_bind; [apply quiet_lift|]. intros x.
    apply quiet_bind; [apply quiet_get|]. intros obj.
    apply quiet_bind; [apply quiet_set_api_data|intros; apply quiet_ret]. }
  repeat case_match; apply H.
Qed.

Lemma quiet_map_create l : quiet (Entry.map_create W l).
Proof.
  induction l as [|item l IH]; simpl; [apply quiet_ret|].
  apply quiet_bind; [apply quiet_create_object|]. intros obj.
  apply quiet_bind; [done|]. intros objs. apply quiet_ret.
Qed.

(** X1. [Entry.search] never raises: it returns a list or [None], after
    exactly one call of the collaborator and without handing any job to the
    pool; when that call raises, the result is [None] and no instance is
    created or changed. *)
Theorem search_never_raises q st :
  exists st' res,
    Entry.search W q st = (st', Ok res)
    /\ calls st' = calls st ++ [search q]
    /\ pool st' = pool st
    /\ (forall e, remote W (length (calls st)) (search q) = Raise e ->
          res = None /\ heap st' = heap st /\ cache st' = cache st).
Proof.
  unfold Entry.search, mbind, M_bind, try_except, fmap, M_fmap, Entry.ask.
  destruct (remote W (length (calls st)) (search q)) as [data|e] eqn:E; simpl.
  - unfold lift.
    destruct (res_bind _ _ iter (subscript data "items")) as [items|e] eqn:Ei;
      simpl.
    + match goal with
      | |- context [Entry.map_create W items ?s] =>
          destruct (Entry.map_create W items s) as [st1 [objs|e]] eqn:Em
      end;
        destruct (quiet_map_create _ _ _ _ Em) as [Hc Hp]; simpl in *;
        eexists _, _; split_and!; done.
    + eexists _, _; split_and!; done.
  - eexists _, _; split_and!; done.
Qed.

End Search.

Section SearchItems.
Context (W : world).
Implicit Types (st : state) (r self : ref) (h : list obj) (o : obj).
Implicit Types (d : gmap string (option pyval)).

(** When every field can be computed from the item, [_set_api_data] does
    not raise and leaves every field set. *)
Lemma set_fields_resolved c item fields d val :
  (forall k val', k ∈ fields ->
     exists v, Entry.field_value W c k item val' = Ok v) ->
  exists d', Entry.set_fields W c item fields d val = (d', Ok tt)
    /\ forall k, k ∈ fields -> resolved (d' !! Entry.future_name k).
Proof.
  revert d val. induction fields as [|k fields IH]; intros d val Hok.
  - exists d. split; [done|]. intros k Hk. by apply elem_of_nil in Hk.
  - assert (forall k' val', k' ∈ fields ->
              exists v, Entry.field_value W c k' item val' = Ok v) as Hok'.
    { intros k' val' Hk'. apply Hok. by apply list_elem_of_further. }
    assert (forall d0 val0 v0,
              d0 !! Entry.future_name k = Some (Some v0) ->
              exists d', Entry.set_fields W c item fields d0 val0 = (d', Ok tt)
                /\ forall k', k' ∈ k :: fields ->
                     resolved (d' !! Entry.future_name k')) as Hrest.
    { intros d0 val0 v0 E0.
      destruct (IH d0 val0 Hok') as (d' & E' & Hres).
      exists d'. split; [done|]. intros k' [->|Hk']%elem_of_cons; [|by apply Hres].
      exists v0.
      pose proof (set_fields_grows W c item fields d0 val0) as Hg.
      rewrite E' in Hg. by eapply dict_grows_set. }
    simpl. destruct (d !! Entry.future_name k) as [[v0|]|] eqn:E.
    + by eapply Hrest.
    + destruct (Hok k val) as [v ->]; [apply list_elem_of_here|].
      eapply Hrest. apply lookup_insert_eq.
    + destruct (Hok k val) as [v ->]; [apply list_elem_of_here|].
      eapply Hrest. apply lookup_insert_eq.
Qed.

Lemma set_api_data_resolved self fields item st o :
  heap st !! self = Some o ->
  (forall k val', k ∈ fields ->
     exists v, Entry.field_value W (o_cls o) k item val' = Ok v) ->
  exists st2 o2,
    Entry.set_api_data W self fields item st = (st2, Ok tt)
    /\ heap st2 !! self = Some o2
    /\ o_cls o2 = o_cls o /\ o_id o2 = o_id o
    /\ forall k, k ∈ fields -> resolved (o_dict o2 !! Entry.future_name k).
Proof.
  intros E Hok. unfold Entry.set_api_data, Entry._set_api_data. rewrite E.
  destruct (set_fields_resolved (o_cls o) item fields (o_dict o) None Hok)
    as (d' & -> & Hres).
  eexists _, (Obj (o_cls o) (o_id o) d'). split_and!; [done| |done..]. simpl.
  apply list_lookup_insert_eq. by eapply lookup_lt_Some.
Qed.

(** [cls.get] on a string id returns the instance of that class and id. *)
Lemma get_entity c id st :
  Inv W st ->
  exists st1 r o,
    Entry.get W c (JStr id) st = (st1, Ok r)
    /\ Inv W st1
    /\ heap st1 !! r = Some o /\ o_cls o = c /\ o_id o = IStr id.
Proof.
  intros HI.
  destruct (Entry.get W c (JStr id) st) as [st1 res] eqn:E.
  destruct (keeps_get W c (JStr id) _ _ _ HI I E) as [HI1 _].
  revert E. unfold Entry.get. simpl hashable. cbv iota beta.
  destruct (cache st !! (c, key_of (IStr id))) as [r0|] eqn:Ec.
  - intros [= <- <-].
    destruct (inv_cache _ _ HI _ _ _ Ec) as (o & Eo & Hc & Hk).
    eexists _, r0, o. split_and!; try done. by apply key_of_IStr.
  - intros [= <- <-]. eexists _, _, (Obj c (IStr id) ∅).
    split_and!; try done. simpl.
    rewrite lookup_app_r by done. by rewrite Nat.sub_diag.
Qed.

Lemma thumbnail_urls_Ok (ts : list (string * string)) :
  exists urls,
    Entry.thumbnail_urls (map (fun t => (t.1, JObj [("url", JStr t.2)])) ts)
    = Ok urls.
Proof.
  induction ts as [|[key url] ts [urls IH]]; simpl; [by eexists|].
  destruct (_ || _); [|by eexists].
  unfold mbind, res_bind. simpl. rewrite IH. by eexists.
Qed.

Lemma search_item_fields e k val :
  k ∈ (if f_playlist e then ["title"; "channel"; "thumbnails"]
       else ["title"; "channel"]) ->
  exists v, Entry.field_value W (found_cls e) k (search_item e) val = Ok v.
Proof.
  assert (exists v, Entry.field_value W (found_cls e) "thumbnails"
                      (search_item e) val = Ok v) as Ht.
  { unfold Entry.field_value. simpl.
    destruct (thumbnail_urls_Ok (f_thumbnails e)) as [urls E].
    unfold mbind, res_bind, fmap, res_fmap. simpl. rewrite E. by eexists. }
  destruct (f_playlist e); intros Hk;
    repeat (apply elem_of_cons in Hk as [->|Hk]; [try (by eexists); done|]);
    by apply elem_of_nil in Hk.
Qed.

Lemma entity_of_grows P h h' r e :
  heap_grows P h h' -> entity_of h r e -> entity_of h' r e.
Proof.
  intros Hg (o & E & Hc & Hi & Ht & Hch & Hth).
  destruct (Hg r o E) as (o' & E' & Hc' & Hi' & Hd).
  assert (forall name, resolved (o_dict o !! name) ->
                       resolved (o_dict o' !! name)) as Hres.
  { intros name [v Hv]. exists v. by eapply dict_grows_set. }
  exists o'. split_and!; [done|congruence|congruence|eauto..].
Qed.

Lemma create_object_found e st :
  Inv W st ->
  exists st1 r,
    Entry.create_object W (search_item e) st = (st1, Ok r)
    /\ Inv W st1 /\ entity_of (heap st1) r e.
Proof.
  intros HI.
  destruct (get_entity (found_cls e) (f_id e) st HI)
    as (st0 & r & o & Eg & HI0 & Eo & Hc & Hi).
  set (fields := if f_playlist e then ["title"; "channel"; "thumbnails"]
                 else ["title"; "channel"]).
  destruct (set_api_data_resolved r fields (search_item e) st0 o Eo)
    as (st2 & o2 & E2 & Eo2 & Hc2 & Hi2 & Hres).
  { intros k val' Hk. rewrite Hc. by apply search_item_fields. }
  assert (Entry.create_object W (search_item e) st = (st2, Ok r)) as E.
  { revert Eg E2. unfold Entry.create_object, search_item, found_cls, fields.
    destruct (f_playlist e); simpl; intros Eg E2;
      unfold mbind, M_bind, lift; simpl; by rewrite Eg, E2. }
  exists st2, r. split; [done|]. split.
  - by destruct (keeps_create_object W _ _ _ _ HI I E).
  - assert (forall k, k ∈ ["title"; "channel"] -> k ∈ fields) as Hin.
    { intros k Hk. unfold fields. destruct (f_playlist e); [|done].
      apply elem_of_cons in Hk as [->|Hk]; [apply list_elem_of_here|].
      apply list_elem_of_further.
      apply elem_of_cons in Hk as [->|Hk]; [apply list_elem_of_here|].
      by apply elem_of_nil in Hk. }
    exists o2. split_and!; [done|congruence|congruence|..].
    + apply (Hres "title"), Hin, list_elem_of_here.
    + apply (Hres "channel"), Hin, list_elem_of_further, list_elem_of_here.
    + intros Ep. apply (Hres "thumbnails"). unfold fields. rewrite Ep.
      do 2 apply list_elem_of_further. apply list_elem_of_here.
Qed.

Lemma map_create_found entries : forall st,
  Inv W st ->
  exists st' rs,
    Entry.map_create W (map search_item entries) st = (st', Ok rs)
    /\ Inv W st' /\ Forall2 (entity_of (heap st')) rs entries.
Proof.
  induction entries as [|e entries IH]; intros st HI.
  - exists st, []. by split_and!.
  - simpl. unfold mbind at 1. unfold M_bind at 1.
    destruct (create_object_found e st HI) as (st1 & r & -> & HI1 & He).
    unfold mbind at 1. unfold M_bind at 1.
    destruct (IH st1 HI1) as (st' & rs & E' & HI' & Hrs). rewrite E'.
    exists st', (r :: rs). split_and!; [done..|].
    constructor; [|done].
    eapply entity_of_grows; [|done]. eapply map_create_grows. exact E'.
Qed.

(** X2. When the collaborator answers a search with well-formed items,
    [Entry.search] returns one instance per item, in the order of the
    answer: a [Video] for an item of kind [youtube#video] and a [Playlist]
    otherwise, with the id of the item, and with its title and channel (and,
    for a playlist, its thumbnails) set. *)
Theorem search_one_entity_per_item q st entries :
  prog_reachable W st ->
  remote W (length (calls st)) (search q)
  = Ok (JObj [("items", JArr (map search_item entries))]) ->
  exists st' rs,
    Entry.search W q st = (st', Ok (Some rs))
    /\ Forall2 (entity_of (heap st')) rs entries.
Proof.
  intros Hr Ha. apply Inv_reachable in Hr.
  unfold Entry.search, mbind, M_bind, try_except, fmap, M_fmap, Entry.ask.
  rewrite Ha. unfold lift. simpl.
  match goal with
  | |- context [Entry.map_create W _ ?s] =>
      destruct (map_create_found entries s) as (st' & rs & -> & _ & Hrs)
  end.
  - destruct Hr as [Hh Hc Hj Hs]. by split.
  - by exists st', rs.
Qed.

End SearchItems.

(** A video and a playlist found by the first search of a program. *)
Lemma search_one_entity_per_item_witness :
  let W := scripted_world
             [Ok (JObj [("items", JArr (map search_item search_answer))])] in
  exists st' rs,
    Entry.search W "q" init_state = (st', Ok (Some rs))
    /\ Forall2 (entity_of (heap st')) rs search_answer.
Proof.
  intros W. apply (search_one_entity_per_item W "q" init_state search_answer).
  - apply prog_init.
  - reflexivity.
Defined.

Section Reads.
Implicit Types (st : state) (r self : ref) (h : list obj) (o : obj).
Implicit Types (d : gmap string (option pyval)).

Lemma async_property_read name func self st o :
  heap st !! self = Some o ->
  (o_dict o !! name = None ->
   exists st1 o1 f,
     func self st = (st1, Ok tt) /\ calls st1 = calls st
     /\ heap st1 !! self = Some o1 /\ o_dict o1 !! name = Some f) ->
  exists st' f,
    async_property name func self st = (st', Ok f)
    /\ calls st' = calls st
    /\ (is_Some (o_dict o !! name) -> st' = st)
    /\ async_property name func self st' = (st', Ok f).
Proof.
  intros E Hfunc.
  pose proof (async_property_spec name func self st o E) as H.
  destruct (o_dict o !! name) as [f|] eqn:E'.
  - exists st, f. by rewrite H.
  - destruct (Hfunc eq_refl) as (st1 & o1 & f & E1 & Hc & Eo1 & Ef).
    pose proof (async_property_spec name func self st1 o1 Eo1) as H1.
    rewrite Ef in H1. exists st1, f. split_and!; [|done| |done].
    + unfold async_property, mbind, M_bind, dict_of. rewrite E, E'.
      rewrite E1, Eo1, Ef. done.
    + by intros [? [=]].
Qed.

Lemma add_present fields d k :
  k ∈ fields -> is_Some ((Entry.add fields d).1 !! Entry.future_name k).
Proof.
  revert d. induction fields as [|k' fields IH]; intros d Hk.
  - by apply elem_of_nil in Hk.
  - simpl. apply elem_of_cons in Hk as [->|Hk].
    + pose proof (add_grows fields) as Hg.
      destruct (d !! Entry.future_name k') as [f|] eqn:E.
      * eapply dict_grows_present; [apply Hg|]. by rewrite E.
      * specialize (Hg (<[Entry.future_name k' := None]> d)).
        destruct (Entry.add fields _) as [d' b]. simpl in *.
        eapply dict_grows_present; [apply Hg|].
        by rewrite lookup_insert_eq.
    + destruct (d !! Entry.future_name k') as [f|] eqn:E; [by apply IH|].
      specialize (IH (<[Entry.future_name k' := None]> d) Hk).
      by destruct (Entry.add fields _) as [d' b].
Qed.

Lemma load_info_self fields mk self st o k
    (load_info : list ref -> M unit) :
  (forall lst st,
     load_info lst st
     = let (lst', h) := Entry._add_futures lst fields (heap st) in
       (State h (cache st) (lookups st)
              (Entry.run_sublists mk lst' (pool st)) (calls st), Ok tt)) ->
  heap st !! self = Some o -> k ∈ fields ->
  exists st1 o1 f,
    load_info [self] st = (st1, Ok tt) /\ calls st1 = calls st
    /\ heap st1 !! self = Some o1
    /\ o_dict o1 !! Entry.future_name k = Some f.
Proof.
  intros Hdef E Hk. rewrite Hdef. simpl. rewrite E.
  pose proof (add_present fields (o_dict o) k Hk) as [f Hf].
  destruct (Entry.add fields (o_dict o)) as [d added]. simpl in Hf.
  eexists _, (Obj (o_cls o) (o_id o) d), f. split_and!; [done..| |done].
  simpl. apply list_lookup_insert_eq. by eapply lookup_lt_Some.
Qed.

Lemma new_future_then name (k : ref -> M unit) self st o :
  heap st !! self = Some o ->
  (forall st0, exists st1,
     k self st0 = (st1, Ok tt) /\ calls st1 = calls st0
     /\ heap st1 = heap st0) ->
  exists st1 o1 f,
    (new_future self name;; k self) st = (st1, Ok tt) /\ calls st1 = calls st
    /\ heap st1 !! self = Some o1 /\ o_dict o1 !! name = Some f.
Proof.
  intros E Hk. unfold mbind, M_bind, new_future. rewrite E.
  match goal with
  | |- context [k self ?s] => destruct (Hk s) as (st1 & -> & Hc & Hh)
  end.
  eexists st1, (Obj (o_cls o) (o_id o) (<[name := None]> (o_dict o))), None.
  split_and!; [done|done| |].
  - rewrite Hh. simpl. apply list_lookup_insert_eq. by eapply lookup_lt_Some.
  - simpl. apply lookup_insert_eq.
Qed.

(** X3. Reading an asynchronous property of an instance never raises and
    never calls the collaborator: it returns the future.  When the future is
    there already, nothing changes; and a second read returns the same
    future and changes nothing. *)
Theorem property_read_returns_future attr p self st o :
  heap st !! self = Some o -> property (o_cls o) attr = Some p ->
  exists st' f,
    p self st = (st', Ok f)
    /\ calls st' = calls st
    /\ (is_Some (o_dict o !! Entry.future_name attr) -> st' = st)
    /\ p self st' = (st', Ok f).
Proof.
  intros E Hp.
  assert (forall k, k ∈ Video.fields ->
            forall p0, p0 = async_property (Entry.future_name k)
                              (fun self => Video.load_info [self]) ->
            exists st' f,
              p0 self st = (st', Ok f) /\ calls st' = calls st
              /\ (is_Some (o_dict o !! Entry.future_name k) -> st' = st)
              /\ p0 self st' = (st', Ok f)) as HV.
  { intros k Hk p0 ->. apply (async_property_read _ _ _ _ o E). intros _.
    by eapply (load_info_self Video.fields video_batch). }
  assert (forall k, k ∈ Playlist.fields ->
            forall p0, p0 = async_property (Entry.future_name k)
                              (fun self => Playlist.load_info [self]) ->
            exists st' f,
              p0 self st = (st', Ok f) /\ calls st' = calls st
              /\ (is_Some (o_dict o !! Entry.future_name k) -> st' = st)
              /\ p0 self st' = (st', Ok f)) as HP.
  { intros k Hk p0 ->. apply (async_property_read _ _ _ _ o E). intros _.
    by eapply (load_info_self Playlist.fields playlist_batch). }
  assert (forall f0,
            exists st' f,
              async_property (Entry.future_name attr)
                (fun self => new_future self (Entry.future_name attr);;
                             submit (f0 self)) self st = (st', Ok f)
              /\ calls st' = calls st
              /\ (is_Some (o_dict o !! Entry.future_name attr) -> st' = st)
              /\ async_property (Entry.future_name attr)
                   (fun self => new_future self (Entry.future_name attr);;
                                submit (f0 self)) self st' = (st', Ok f))
    as HS.
  { intros f0. apply (async_property_read _ _ _ _ o E). intros _.
    apply (new_future_then _ (fun self => submit (f0 self)) _ _ o E).
    intros st0. by eexists. }
  revert Hp. unfold property.
  destruct (o_cls o);
    repeat match goal with
           | |- context [String.eqb attr ?s] =>
               destruct (String.eqb_spec attr s) as [->|_]; cbv iota
           end;
    intros [= <-];
    try (apply (HV _); [|reflexivity]; unfold Video.fields; in_list);
    try (apply (HP _); [|reflexivity]; unfold Playlist.fields; in_list);
    try apply HS.
  (* Video.thumbnails *)
  apply (async_property_read _ _ _ _ o E). intros E'. rewrite E.
  unfold mbind, M_bind, new_future, future_set. rewrite E. simpl.
  rewrite list_lookup_insert_eq by by eapply lookup_lt_Some. simpl.
  rewrite lookup_insert_eq.
  eexists _, _, _. split_and!; [done|done| |].
  - simpl. apply list_lookup_insert_eq. rewrite length_insert.
    by eapply lookup_lt_Some.
  - simpl. apply lookup_insert_eq.
Qed.

End Reads.

(** The title of a video that was just fetched. *)
Lemma property_read_returns_future_witness :
  exists st' f,
    Video.title 0%nat (one_video failing_world) = (st', Ok f)
    /\ calls st' = calls (one_video failing_world)
    /\ (is_Some (o_dict (Obj cVideo (IStr "7uj0hOIm2kY") ∅)
                    !! Entry.future_name "title") ->
        st' = one_video failing_world)
    /\ Video.title 0%nat st' = (st', Ok f).
Proof.
  apply (property_read_returns_future "title" Video.title 0%nat
           (one_video failing_world) (Obj cVideo (IStr "7uj0hOIm2kY") ∅)).
  - reflexivity.
  - reflexivity.
Defined.

Section FirstRead.
Implicit Types (st : state) (r self : ref) (h : list obj) (o : obj).
Implicit Types (d : gmap string (option pyval)).

(** [add] gives an unset future to the fields that have none, and touches
    nothing else. *)
Lemma add_lookup fields d name :
  (Entry.add fields d).1 !! name
  = match d !! name with
    | Some f => Some f
    | None => if decide (name ∈ map Entry.future_name fields)
              then Some None else None
    end.
Proof.
  revert d. induction fields as [|k fields IH]; intros d.
  - change ((Entry.add [] d).1) with d.
    destruct (d !! name); [done|]. case_decide as H; [|done].
    by apply elem_of_nil in H.
  - cbn [Entry.add map]. assert ((Entry.add fields d).1 !! name
            = match d !! name with
              | Some f => Some f
              | None => if decide (name ∈ Entry.future_name k
                                          :: map Entry.future_name fields)
                        then Some None else None
              end
            \/ (name = Entry.future_name k /\ d !! name = None)) as Hsame.
    { rewrite IH. destruct (d !! name) as [f|] eqn:E; [by left|].
      destruct (decide (name = Entry.future_name k)) as [->|Hne];
        [by right|left].
      destruct (decide (name ∈ map Entry.future_name fields)) as [H1|H1],
        (decide (name ∈ Entry.future_name k :: map Entry.future_name fields))
        as [H2|H2]; try done; exfalso.
      - apply H2. by apply list_elem_of_further.
      - apply elem_of_cons in H2 as [?|?]; done. }
    destruct (d !! Entry.future_name k) as [f|] eqn:E.
    + destruct Hsame as [H|[-> H]]; [done|congruence].
    + specialize (IH (<[Entry.future_name k := None]> d)).
      destruct (Entry.add fields _) as [d' b]. cbn [fst] in *. rewrite IH.
      destruct (decide (name = Entry.future_name k)) as [->|Hne].
      * rewrite lookup_insert_eq, E. cbv iota.
        destruct (decide _) as [H|H]; [done|].
        exfalso. apply H, list_elem_of_here.
      * rewrite lookup_insert_ne by done.
        clear Hsame IH. destruct (d !! name); [done|].
        destruct (decide (name ∈ map Entry.future_name fields)) as [H1|H1],
          (decide (name ∈ Entry.future_name k :: map Entry.future_name fields))
          as [H2|H2]; try done; exfalso.
        -- apply H2. by apply list_elem_of_further.
        -- apply elem_of_cons in H2 as [?|?]; done.
Qed.

(** X4. The first read of a batch-loaded property of an instance that has
    no future for it returns a future that is not set yet, and hands the
    pool exactly one batch job, for that instance alone, without calling the
    collaborator; the instance then has a future for every field of the
    batch, so that reading any of them hands in no further job. *)
Theorem first_read_submits_one_batch attr p self st o :
  heap st !! self = Some o -> attr ∈ batch_fields (o_cls o) ->
  property (o_cls o) attr = Some p ->
  o_dict o !! Entry.future_name attr = None ->
  exists st',
    p self st = (st', Ok None)
    /\ ThreadPool.jobs (pool st')
       = ThreadPool.jobs (pool st) ++ [batch_job (o_cls o) [self]]
    /\ calls st' = calls st
    /\ forall k p', k ∈ batch_fields (o_cls o) ->
         property (o_cls o) k = Some p' ->
         exists f, p' self st' = (st', Ok f).
Proof.
  intros E Hattr Hp Hnone.
  remember (o_cls o) as c eqn:Hc.
  set (d' := (Entry.add (batch_fields c) (o_dict o)).1).
  set (st' := State (<[self := Obj (o_cls o) (o_id o) d']> (heap st))
                    (cache st) (lookups st)
                    (ThreadPool.run (batch_job c [self]) (pool st))
                    (calls st)).
  assert (heap st' !! self = Some (Obj (o_cls o) (o_id o) d')) as E'.
  { simpl. apply list_lookup_insert_eq. by eapply lookup_lt_Some. }
  assert (forall (load : list ref -> M unit),
            load = match c with
                   | cVideo => Video.load_info
                   | cPlaylist => Playlist.load_info
                   end ->
            load [self] st = (st', Ok tt)) as Hload.
  { intros load ->.
    assert ((Entry.add (batch_fields c) (o_dict o)).2 = true) as Hadded.
    { rewrite add_added. apply existsb_exists. exists attr.
      split; [by apply list_elem_of_In|]. by apply bool_decide_eq_true. }
    unfold st', d'. revert Hadded. rewrite <- Hc. clear Hattr Hp.
    destruct c; unfold Video.load_info, Playlist.load_info, batch_fields;
      cbn [Entry._add_futures]; rewrite E, <- ?Hc;
      destruct (Entry.add _ (o_dict o)) as [d b];
      cbn [Entry._add_futures fst snd]; by intros ->. }
  assert (forall k, k ∈ batch_fields c ->
            d' !! Entry.future_name k
            = Some (default None (o_dict o !! Entry.future_name k))) as Hd'.
  { intros k Hk. unfold d'. rewrite add_lookup.
    destruct (o_dict o !! Entry.future_name k); [done|].
    case_decide as H; [done|]. exfalso. apply H.
    by apply list_elem_of_fmap_2. }
  assert (forall k (load : list ref -> M unit),
            k ∈ batch_fields c ->
            load = match c with
                   | cVideo => Video.load_info
                   | cPlaylist => Playlist.load_info
                   end ->
            (o_dict o !! Entry.future_name k = None ->
             async_property (Entry.future_name k)
               (fun self => load [self]) self st = (st', Ok None))
            /\ exists f,
                 async_property (Entry.future_name k)
                   (fun self => load [self]) self st' = (st', Ok f))
    as Hread.
  { intros k load Hk Hl. split.
    - intros Hn. unfold async_property, mbind, M_bind, dict_of.
      rewrite E, Hn, (Hload load Hl), E'. simpl.
      rewrite (Hd' k Hk), Hn. done.
    - pose proof (async_property_spec (Entry.future_name k)
                    (fun self => load [self]) self st' _ E') as H.
      simpl in H. rewrite (Hd' k Hk) in H. by eexists. }
  exists st'. split_and!.
  - revert Hp Hattr Hnone. unfold property. clear Hc.
    destruct c;
      repeat match goal with
             | |- context [String.eqb attr ?s] =>
                 destruct (String.eqb_spec attr s) as [->|_]; cbv iota
             end;
      intros [= <-] Hin Hn;
      try (by apply (Hread _ _ Hin eq_refl));
      exfalso; clear -Hin; unfold batch_fields, Video.fields, Playlist.fields in Hin;
      not_in_list Hin.
  - simpl. apply run_jobs.
  - done.
  - intros k p' Hk. unfold property. revert Hk. clear Hc Hattr Hp.
    destruct c;
      repeat match goal with
             | |- context [String.eqb k ?s] =>
                 destruct (String.eqb_spec k s) as [->|_]; cbv iota
             end;
      intros Hin [= <-];
      try (by apply (Hread _ _ Hin eq_refl));
      exfalso; clear -Hin; unfold batch_fields, Video.fields, Playlist.fields in Hin;
      not_in_list Hin.
Qed.

End FirstRead.

(** The length of a video that was just fetched. *)
Lemma first_read_submits_one_batch_witness :
  exists st',
    Video.length 0%nat (one_video failing_world) = (st', Ok None)
    /\ ThreadPool.jobs (pool st')
       = ThreadPool.jobs (pool (one_video failing_world))
         ++ [video_batch [0%nat]]
    /\ calls st' = calls (one_video failing_world)
    /\ forall k p', k ∈ Video.fields ->
         property cVideo k = Some p' ->
         exists f, p' 0%nat st' = (st', Ok f).
Proof.
  apply (first_read_submits_one_batch "length" Video.length 0%nat
           (one_video failing_world) (Obj cVideo (IStr "7uj0hOIm2kY") ∅)).
  - reflexivity.
  - simpl. unfold Video.fields. in_list.
  - reflexivity.
  - reflexivity.
Defined.

Section AudioUrl.
Context (W : world).
Implicit Types (st : state) (r self : ref) (h : list obj) (o : obj).

(** X5. Reading [audio_url] of a video that has no such future creates the
    future, unset, and hands the pool one job, without calling the
    extractor.  The job, applied while the future is unset, calls the
    extractor once, for the id of the video: when the call raises the future
    is set to [None]; when it returns a dict with a ['url'] the future is
    set to that url; when the dict has no ['url'] the job raises
    [KeyError] and the future stays unset. *)
Theorem audio_url_resolves self st o :
  heap st !! self = Some o ->
  (o_dict o !! "_audio_url" = None ->
   exists st',
     Video.audio_url self st = (st', Ok None)
     /\ ThreadPool.jobs (pool st')
        = ThreadPool.jobs (pool st) ++ [video_audio_url self]
     /\ calls st' = calls st
     /\ future_at st' self "_audio_url" = Some None)
  /\ (o_dict o !! "_audio_url" = Some None ->
      exists st',
        Video.audio_url_job W self st
        = (st', (audio_url_outcome
                   (remote W (length (calls st)) (extract_info (o_id o)))).1)
        /\ calls st' = calls st ++ [extract_info (o_id o)]
        /\ pool st' = pool st
        /\ future_at st' self "_audio_url"
           = (audio_url_outcome
                (remote W (length (calls st)) (extract_info (o_id o)))).2).
Proof.
  intros E. split; intros E'.
  - unfold Video.audio_url, async_property, mbind, M_bind, dict_of,
      new_future, submit.
    rewrite E, E'. simpl. rewrite E. simpl.
    rewrite list_lookup_insert_eq by by eapply lookup_lt_Some. simpl.
    rewrite lookup_insert_eq.
    eexists. split_and!; [done|apply run_jobs|done|].
    unfold future_at. simpl.
    rewrite list_lookup_insert_eq by by eapply lookup_lt_Some. simpl.
    apply lookup_insert_eq.
  - unfold Video.audio_url_job. rewrite E.
    unfold mbind, M_bind, try_except, fmap, M_fmap, Entry.ask,
      audio_url_outcome.
    destruct (remote W (length (calls st)) (extract_info (o_id o)))
      as [info|e]; simpl.
    + unfold lift. destruct (subscript info "url") as [url|e]; simpl.
      * unfold future_set. simpl. rewrite E, E'.
        eexists. split_and!; [done..|].
        unfold future_at. simpl.
        rewrite list_lookup_insert_eq by by eapply lookup_lt_Some. simpl.
        apply lookup_insert_eq.
      * eexists. split_and!; [done..|].
        unfold future_at. simpl. by rewrite E.
    + unfold future_set. simpl. rewrite E, E'.
      eexists. split_and!; [done..|].
      unfold future_at. simpl.
      rewrite list_lookup_insert_eq by by eapply lookup_lt_Some. simpl.
      apply lookup_insert_eq.
Qed.

End AudioUrl.

(** The audio url of a video that was just fetched, when the extractor
    fails. *)
Lemma audio_url_resolves_witness :
  exists st',
    Video.audio_url 0%nat (one_video failing_world) = (st', Ok None)
    /\ ThreadPool.jobs (pool st')
       = ThreadPool.jobs (pool (one_video failing_world))
         ++ [video_audio_url 0%nat]
    /\ calls st' = calls (one_video failing_world)
    /\ future_at st' 0%nat "_audio_url" = Some None.
Proof.
  apply (proj1 (audio_url_resolves failing_world 0%nat
                  (one_video failing_world)
                  (Obj cVideo (IStr "7uj0hOIm2kY") ∅) eq_refl)).
  reflexivity.
Defined.

Section Fill.
Context (W : world).
Implicit Types (st : state) (r self : ref) (h : list obj) (o : obj).
Implicit Types (d : gmap string (option pyval)).

Lemma fill_idem v f : fill v (fill v f) = fill v f.
Proof. by destruct f as [[?|]|]. Qed.

Lemma fill_set v f : exists v', fill v f = Some (Some v').
Proof. destruct f as [[?|]|]; by eexists. Qed.

Lemma absent_fill_fill f : absent_fill f = fill pyNone f.
Proof. done. Qed.

(** [_set_api_data] when every field can be computed: no field is left
    unset, no set field is changed, and nothing else is touched. *)
Lemma set_fields_fill c item fields (value : string -> pyval) d val :
  (forall k val', k ∈ fields ->
     Entry.field_value W c k item val' = Ok (value k)) ->
  exists d',
    Entry.set_fields W c item fields d val = (d', Ok tt)
    /\ (forall k, k ∈ fields ->
          d' !! Entry.future_name k
          = fill (value k) (d !! Entry.future_name k))
    /\ (forall name, name ∉ map Entry.future_name fields ->
          d' !! name = d !! name).
Proof.
  revert d val. induction fields as [|k fields IH]; intros d val Hok.
  - exists d. split_and!; [done| |done].
    intros k Hk. by apply elem_of_nil in Hk.
  - assert (forall k' val', k' ∈ fields ->
              Entry.field_value W c k' item val' = Ok (value k')) as Hok'.
    { intros k' val' Hk'. apply Hok. by apply list_elem_of_further. }
    assert (forall name, name ∉ map Entry.future_name (k :: fields) ->
              name <> Entry.future_name k
              /\ name ∉ map Entry.future_name fields) as Hnot.
    { intros name Hn. split.
      - intros ->. apply Hn, list_elem_of_here.
      - intros Hin. by apply Hn, list_elem_of_further. }
    assert (forall d0 val0,
              d0 !! Entry.future_name k
              = fill (value k) (d !! Entry.future_name k) ->
              (forall name, name <> Entry.future_name k ->
                 d0 !! name = d !! name) ->
              exists d',
                Entry.set_fields W c item fields d0 val0 = (d', Ok tt)
                /\ (forall k', k' ∈ k :: fields ->
                      d' !! Entry.future_name k'
                      = fill (value k') (d !! Entry.future_name k'))
                /\ (forall name,
                      name ∉ map Entry.future_name (k :: fields) ->
                      d' !! name = d !! name)) as Hrest.
    { intros d0 val0 Hk Hother.
      destruct (IH d0 val0 Hok') as (d' & E' & Hin & Hout).
      exists d'. split_and!; [done| |].
      - intros k' Hk'.
        destruct (decide (k' ∈ fields)) as [Hf|Hf].
        + rewrite (Hin k' Hf).
          destruct (decide (k' = k)) as [->|Hne].
          * by rewrite Hk, fill_idem.
          * rewrite Hother; [done|]. by intros [= ?].
        + apply elem_of_cons in Hk' as [->|?]; [|done].
          rewrite Hout.
          * rewrite Hk. destruct (fill_set (value k) (d !! Entry.future_name k))
              as [v' ->]. done.
          * intros (k' & E & Hk')%list_elem_of_fmap.
            apply future_name_inj in E as ->. done.
      - intros name Hn. destruct (Hnot name Hn) as [Hne Hn'].
        rewrite (Hout name Hn'). by apply Hother. }
    simpl. destruct (d !! Entry.future_name k) as [[v0|]|] eqn:E.
    + apply Hrest; [by rewrite E|done].
    + rewrite (Hok k val) by apply list_elem_of_here.
      apply Hrest.
      * by rewrite lookup_insert_eq.
      * intros name Hne. by rewrite lookup_insert_ne.
    + rewrite (Hok k val) by apply list_elem_of_here.
      apply Hrest.
      * by rewrite lookup_insert_eq.
      * intros name Hne. by rewrite !lookup_insert_ne.
Qed.

(** The loop of a batch job when, for every entity, every field can be
    computed from the item the answer has for it. *)
Lemma set_batch_fill (fields : list string) (items : gmap hkey json)
    (value : cls -> pyid -> string -> pyval) (sublist : list ref) : forall st,
  (forall r, r ∈ sublist -> is_Some (heap st !! r)) ->
  (forall r o k val, r ∈ sublist -> heap st !! r = Some o -> k ∈ fields ->
     Entry.field_value W (o_cls o) k
       (default JNull (items !! key_of (o_id o))) val
     = Ok (value (o_cls o) (o_id o) k)) ->
  exists st',
    Entry.set_batch W fields items sublist st = (st', Ok tt)
    /\ pool st' = pool st /\ calls st' = calls st /\ cache st' = cache st
    /\ forall r o k, r ∈ sublist -> heap st !! r = Some o -> k ∈ fields ->
         future_at st' r (Entry.future_name k)
         = fill (value (o_cls o) (o_id o) k)
                (future_at st r (Entry.future_name k)).
Proof.
  induction sublist as [|r0 sublist IH]; intros st Hvalid Hval.
  - exists st. split_and!; try done. intros r o k Hr.
    by apply elem_of_nil in Hr.
  - destruct (Hvalid r0 (list_elem_of_here _ _)) as [o0 E0].
    cbn [Entry.set_batch]. rewrite E0.
    destruct (set_fields_fill (o_cls o0)
                (default JNull (items !! key_of (o_id o0))) fields
                (value (o_cls o0) (o_id o0)) (o_dict o0) None)
      as (d0 & Ed0 & Hin0 & Hout0).
    { intros k val' Hk. by apply (Hval r0 o0 k val' (list_elem_of_here _ _)). }
    set (st1 := with_heap (<[r0 := Obj (o_cls o0) (o_id o0) d0]> (heap st)) st).
    assert (Entry.set_api_data W r0 fields
              (default JNull (items !! key_of (o_id o0))) st = (st1, Ok tt))
      as E1.
    { unfold Entry.set_api_data, Entry._set_api_data. by rewrite E0, Ed0. }
    assert (heap st1 !! r0 = Some (Obj (o_cls o0) (o_id o0) d0)) as E10.
    { unfold st1; simpl. apply list_lookup_insert_eq. by eapply lookup_lt_Some. }
    assert (forall r, r <> r0 -> heap st1 !! r = heap st !! r) as E1ne.
    { intros r Hne. unfold st1; simpl. by apply list_lookup_insert_ne. }
    destruct (IH st1) as (st' & E' & Hp & Hc & Hk & Hfut).
    { intros r Hr. destruct (decide (r = r0)) as [->|Hne]; [by rewrite E10|].
      rewrite (E1ne r Hne). by apply Hvalid, list_elem_of_further. }
    { intros r o k val Hr Eo Hin.
      destruct (decide (r = r0)) as [->|Hne].
      - rewrite E10 in Eo. injection Eo as <-. simpl.
        by apply (Hval r0 o0 k val (list_elem_of_here _ _)).
      - rewrite (E1ne r Hne) in Eo.
        by apply (Hval r o k val (list_elem_of_further _ _ _ Hr)). }
    exists st'. split_and!; try done.
    + unfold mbind, M_bind. by rewrite E1.
    + clear Hk. intros r o k Hr Eo Hk.
      destruct (decide (r = r0)) as [->|Hne].
      * assert (Some o = Some o0) as [= ->] by exact (eq_trans (eq_sym Eo) E0).
        assert (future_at st1 r0 (Entry.future_name k)
                = fill (value (o_cls o0) (o_id o0) k)
                       (future_at st r0 (Entry.future_name k))) as H1.
        { unfold future_at. rewrite E10, E0. simpl. by apply Hin0. }
        destruct (decide (r0 ∈ sublist)) as [Hin|Hin].
        -- rewrite (Hfut r0 _ k Hin E10 Hk). simpl.
           by rewrite H1, fill_idem.
        -- destruct (fill_set (value (o_cls o0) (o_id o0) k)
                       (future_at st r0 (Entry.future_name k))) as [v' Hv'].
           rewrite Hv' in *.
           eapply heap_grows_future; [reflexivity|reflexivity| |exact H1].
           eapply set_batch_grows. exact E'.
      * apply elem_of_cons in Hr as [?|Hr]; [done|].
        assert (heap st1 !! r = Some o) as Eo1 by by rewrite (E1ne r Hne).
        rewrite (Hfut r o k Hr Eo1 Hk). unfold future_at.
        by rewrite Eo1, Eo.
Qed.

(** The dict comprehension of a batch job over items with distinct string
    ids. *)
Lemma items_by_id_lookup (items : list json) (ids : list string) :
  forall (m : gmap hkey json),
  Forall2 (fun item id => subscript item "id" = Ok (JStr id)) items ids ->
  NoDup ids ->
  exists m' : gmap hkey json,
    Entry.items_by_id items m = Ok m'
    /\ (forall i item id, items !! i = Some item -> ids !! i = Some id ->
          m' !! key_of (IStr id) = Some item)
    /\ (forall k, (forall id, id ∈ ids -> k <> key_of (IStr id)) ->
          m' !! k = m !! k).
Proof.
  intros m H. revert m.
  induction H as [|item id items ids Hid _ IH]; intros m Hnd.
  - exists m. split_and!; [done| |done]. intros i item id Hi.
    by rewrite lookup_nil in Hi.
  - apply NoDup_cons in Hnd as [Hnotin Hnd].
    cbn [Entry.items_by_id]. rewrite Hid.
    unfold mbind at 1. unfold res_bind. cbn [Py.bind hashable].
    unfold mbind at 1. unfold res_bind. cbn [Py.bind].
    destruct (IH (<[key_of (IStr id) := item]> m) Hnd)
      as (m' & -> & Hin & Hout).
    exists m'. split_and!; [done| |].
    + intros [|i] item' id'; simpl.
      * intros [= <-] [= <-]. rewrite Hout; [apply lookup_insert_eq|].
        intros id' Hid' [= ->]. done.
      * apply Hin.
    + intros k Hk. rewrite Hout.
      * apply lookup_insert_ne. intros <-.
        by apply (Hk id (list_elem_of_here _ _)).
      * intros id' Hid'. by apply Hk, list_elem_of_further.
Qed.

End Fill.

Section BatchAnswers.
Context (W : world).
Implicit Types (st : state) (r self : ref) (h : list obj) (o : obj).

Lemma entry_of_Some {A} (id_of : A -> string) i (entries : list A) e :
  entry_of id_of i entries = Some e ->
  i = IStr (id_of e) /\ exists n, entries !! n = Some e.
Proof.
  unfold entry_of. intros [Hin Hb]%find_some.
  apply bool_decide_eq_true in Hb. split; [done|].
  by apply list_elem_of_In, list_elem_of_lookup in Hin.
Qed.

Lemma entry_of_None {A} (id_of : A -> string) i (entries : list A) :
  entry_of id_of i entries = None ->
  forall id, id ∈ map id_of entries -> key_of i <> key_of (IStr id).
Proof.
  unfold entry_of. intros Hnone id (e & -> & He)%list_elem_of_fmap Hk.
  apply key_of_IStr in Hk.
  apply list_elem_of_In in He.
  pose proof (find_none _ _ Hnone e He) as Hb. simpl in Hb.
  apply bool_decide_eq_false in Hb. by apply Hb.
Qed.

(** The item a batch dict holds for an instance, given the entries of the
    answer. *)
Lemma answer_item {A} (id_of : A -> string) (to_json : A -> json)
    (entries : list A) :
  (forall e, subscript (to_json e) "id" = Ok (JStr (id_of e))) ->
  NoDup (map id_of entries) ->
  exists m : gmap hkey json,
    Entry.items_by_id (map to_json entries) ∅ = Ok m
    /\ forall i, default JNull (m !! key_of i)
                 = from_option to_json JNull (entry_of id_of i entries).
Proof.
  intros Hid Hnd.
  destruct (items_by_id_lookup (map to_json entries) (map id_of entries) ∅)
    as (m & Em & Hin & Hout); [|done|].
  { apply Forall2_fmap, Forall_Forall2_diag, Forall_forall. intros e _.
    apply Hid. }
  exists m. split; [done|]. intros i.
  destruct (entry_of id_of i entries) as [e|] eqn:E; simpl.
  - apply entry_of_Some in E as [-> [n En]].
    rewrite (Hin n (to_json e) (id_of e)); [done|..];
      by rewrite list_lookup_fmap, En.
  - rewrite Hout; [by rewrite lookup_empty|].
    by apply entry_of_None.
Qed.

Lemma batch_dict_answer {A} (id_of : A -> string) (to_json : A -> json)
    (entries : list A) (c : call) st :
  (forall e, subscript (to_json e) "id" = Ok (JStr (id_of e))) ->
  NoDup (map id_of entries) ->
  remote W (length (calls st)) c = answer (map to_json entries) ->
  exists m : gmap hkey json,
    Entry.batch_dict W c st
    = (State (heap st) (cache st) (lookups st) (pool st) (calls st ++ [c]),
       Ok m)
    /\ forall i, default JNull (m !! key_of i)
                 = from_option to_json JNull (entry_of id_of i entries).
Proof.
  intros Hid Hnd Ha.
  destruct (answer_item id_of to_json entries Hid Hnd) as (m & Em & Hm).
  exists m. split; [|done].
  unfold Entry.batch_dict. rewrite Ha. unfold answer.
  unfold mbind, res_bind. cbn [Py.bind subscript assoc String.eqb iter].
  simpl. unfold mbind, res_bind in Em. by rewrite Em.
Qed.


(** X6. When [list_videos] answers with well-formed items of distinct
    ids, the batch job of [Video.load_info] returns after that one call, and
    every title, length and channel future of every video of the batch is
    set: a future that was set before keeps its value; the others get the
    value of the item that carries the id of the video, wherever it stands
    in the answer (the length being the seconds of its duration), or [None]
    when the answer has no item with that id. *)
Theorem video_batch_fills_by_id st sublist entries :
  (forall r, r ∈ sublist -> is_Some (heap st !! r)) ->
  NoDup (map v_id entries) ->
  Forall (fun e => exists n,
            duration_seconds (JStr (v_duration e)) = Ok n) entries ->
  remote W (length (calls st))
         (list_videos (Entry.ids_of (heap st) sublist))
  = answer (map video_json entries) ->
  exists st',
    Video.load_info_job W sublist st = (st', Ok tt)
    /\ calls st'
       = calls st ++ [list_videos (Entry.ids_of (heap st) sublist)]
    /\ pool st' = pool st
    /\ forall r o k, r ∈ sublist -> heap st !! r = Some o ->
         k ∈ Video.fields ->
         future_at st' r (Entry.future_name k)
         = fill (video_value entries (o_id o) k)
                (future_at st r (Entry.future_name k)).
Proof.
  intros Hvalid Hnd Hdur Ha.
  destruct (batch_dict_answer v_id video_json entries _ st (fun _ => eq_refl)
              Hnd Ha) as (m & Em & Hm).
  set (st1 := State _ _ _ _ _) in Em.
  destruct (set_batch_fill W Video.fields m
              (fun _ i k => video_value entries i k) sublist st1)
    as (st' & E' & Hp & Hc & _ & Hfut).
  { done. }
  { intros r o k val Hr Eo Hk. rewrite Hm. unfold video_value.
    destruct (entry_of v_id (o_id o) entries) as [e|] eqn:E; simpl.
    - apply entry_of_Some in E as [_ [n En]].
      assert (exists s, duration_seconds (JStr (v_duration e)) = Ok s)
        as [s Hs].
      { eapply Forall_forall in Hdur; [done|].
        by eapply list_elem_of_lookup_2. }
      unfold Video.fields in Hk.
      repeat (apply elem_of_cons in Hk as [->|Hk]); try done.
      + unfold Entry.field_value, video_json, video_item.
        cbn -[duration_seconds].
        unfold seconds_of, fmap, res_fmap. by rewrite Hs.
      + by apply elem_of_nil in Hk.
    - by apply field_value_falsy. }
  exists st'. split_and!; [|done|done|].
  - unfold Video.load_info_job, mbind, M_bind. by rewrite Em, E'.
  - intros r o k Hr Eo Hk. by apply (Hfut r o k Hr Eo Hk).
Qed.


End BatchAnswers.

(** Two fresh videos, and an answer that has the second only. *)
Lemma video_batch_fills_by_id_witness :
  let W := scripted_world [answer (map video_json answer_for_b)] in
  let st := two_videos W in
  exists st',
    Video.load_info_job W [0%nat; 1%nat] st = (st', Ok tt)
    /\ calls st'
       = calls st ++ [list_videos (Entry.ids_of (heap st) [0%nat; 1%nat])]
    /\ pool st' = pool st
    /\ forall r o k, r ∈ [0%nat; 1%nat] -> heap st !! r = Some o ->
         k ∈ Video.fields ->
         future_at st' r (Entry.future_name k)
         = fill (video_value answer_for_b (o_id o) k)
                (future_at st r (Entry.future_name k)).
Proof.
  intros W st.
  apply (video_batch_fills_by_id W st [0%nat; 1%nat] answer_for_b).
  - intros r Hr.
    apply elem_of_cons in Hr as [->|Hr]; [eexists; reflexivity|].
    apply elem_of_cons in Hr as [->|Hr]; [eexists; reflexivity|].
    by apply elem_of_nil in Hr.
  - apply NoDup_singleton.
  - repeat constructor. eexists. reflexivity.
  - reflexivity.
Defined.


(** What the two answers leave: the second entity has the values of its
    item, the first has [None]. *)
Example batch_answers_for_b :
  let W := scripted_world [answer (map video_json answer_for_b)] in
  let st' := after (Video.load_info_job W [0%nat; 1%nat]) (two_videos W) in
  let V := scripted_world [answer (map playlist_json answer_for_playlist_b)] in
  let pt' := after (Playlist.load_info_job V [0%nat; 1%nat])
                   (two_playlists V) in
  future_at st' 0%nat "_title" = Some (Some pyNone)
  /\ future_at st' 1%nat "_title" = Some (Some (VJson (JStr "B")))
  /\ future_at st' 1%nat "_length" = Some (Some (VJson (JNum 3730)))
  /\ future_at pt' 0%nat "_video_count" = Some (Some pyNone)
  /\ future_at pt' 1%nat "_video_count" = Some (Some (VJson (JNum 60)))
  /\ future_at pt' 1%nat "_thumbnails"
     = Some (Some (VJson (JArr [JStr "u1"]))).
Proof. vm_compute. split_and!; done. Qed.

Section Pages.
Context (W : world).
Implicit Types (st : state) (r self : ref) (h : list obj) (o : obj).

(** The loop stops without a call when there is no token or enough videos
    are gathered. *)
Lemma videos_loop_stop fuel self all page st o :
  heap st !! self = Some o -> o_cls o = cPlaylist ->
  page = JNull \/ max_videos W <= Z.of_nat (length all) ->
  Playlist.videos_loop W (S fuel) self all page st = (st, Ok (Some all)).
Proof.
  intros Eo Hc Hstop. simpl. rewrite Eo, Hc. simpl.
  destruct Hstop as [->|Hge]; [done|].
  destruct (Z.ltb_spec (Z.of_nat (length all)) (max_videos W)); [lia|].
  by destruct page.
Qed.

Lemma titled_grows P h h' r e :
  heap_grows P h h' -> titled h r e -> titled h' r e.
Proof.
  intros Hg (o & E & Hc & Hi & [v Hv]).
  destruct (Hg r o E) as (o' & E' & Hc' & Hi' & Hd).
  exists o'. split_and!; [done|congruence|congruence|].
  exists v. by eapply dict_grows_set.
Qed.

(** The videos of a page: made or found again, their title set. *)
Lemma page_videos_titled entries : forall st acc,
  Inv W st ->
  exists st' vs,
    Playlist.page_videos W (map (fun e => page_item e.1 e.2) entries) acc st
    = (st', Ok (acc ++ vs))
    /\ Inv W st' /\ calls st' = calls st
    /\ Forall2 (titled (heap st')) vs entries.
Proof.
  induction entries as [|[id title] entries IH]; intros st acc HI.
  - exists st, []. rewrite app_nil_r. by split_and!.
  - simpl. unfold mbind at 1. unfold M_bind at 1. unfold lift at 1.
    simpl. unfold mbind at 1. unfold M_bind at 1.
    destruct (get_entity W cVideo id st HI)
      as (st1 & r & o & Eg & HI1 & Eo & Hc & Hi).
    rewrite Eg.
    assert (calls st1 = calls st) as Hc1.
    { by destruct (quiet_get W _ _ _ _ _ Eg). }
    unfold mbind at 1. unfold M_bind at 1.
    destruct (set_api_data_resolved W r ["title"] (page_item id title) st1 o
                Eo) as (st2 & o2 & E2 & Eo2 & Hc2 & Hi2 & Hres).
    { intros k val' Hk. apply list_elem_of_singleton in Hk as ->.
      by eexists. }
    rewrite E2.
    assert (calls st2 = calls st1) as Hcalls2.
    { by destruct (quiet_set_api_data W _ _ _ _ _ _ E2). }
    destruct (keeps_set_api_data W r ["title"] (page_item id title))
      with (st := st1) (st' := st2) (r := Ok tt) as [HI2 _]; try done.
    { intros Hin. apply list_elem_of_singleton in Hin. discriminate. }
    { intros Hin. apply list_elem_of_singleton in Hin. discriminate. }
    destruct (IH st2 (acc ++ [r]) HI2) as (st' & vs & E' & HI' & Hc' & Hvs).
    rewrite E'. exists st', (r :: vs). split_and!.
    + by rewrite <- app_assoc.
    + done.
    + congruence.
    + constructor; [|done].
      eapply titled_grows; [eapply page_videos_grows; exact E'|].
      exists o2. simpl. split_and!; [done|congruence|congruence|].
      apply (Hres "title"), list_elem_of_here.
Qed.

(** One round of the loop on a page that the collaborator answers. *)
Lemma videos_loop_round self fuel st all tok o next entries :
  Inv W st -> heap st !! self = Some o -> o_cls o = cPlaylist ->
  Z.of_nat (length all) < max_videos W ->
  remote W (length (calls st))
         (list_playlistitems (o_id o) (JStr tok)
            (Z.min (max_videos W - Z.of_nat (length all)) 50))
  = Ok (page_json next entries) ->
  exists st2 vs,
    Playlist.videos_loop W (S fuel) self all (JStr tok) st
    = Playlist.videos_loop W fuel self (all ++ vs) (or_None (JStr next)) st2
    /\ Inv W st2
    /\ calls st2
       = calls st ++ [list_playlistitems (o_id o) (JStr tok)
                        (Z.min (max_videos W - Z.of_nat (length all)) 50)]
    /\ Forall2 (titled (heap st2)) vs entries
    /\ heap_grows any_name (heap st) (heap st2).
Proof.
  intros HI Eo Hc Hlt He.
  cbn [Playlist.videos_loop]. rewrite Eo, Hc. cbn [Entry.self_max_videos].
  destruct (Z.ltb_spec (Z.of_nat (length all)) (max_videos W)) as [_|Hge];
    [|lia].
  rewrite He. simpl.
  set (st0 := State _ _ _ _ _).
  assert (Inv W st0) as HI0 by (by apply (Inv_same W st)).
  unfold mbind at 1. unfold M_bind at 1. unfold lift at 1.
  unfold mbind at 1. unfold M_bind at 1. unfold lift at 1.
  unfold mbind at 1. unfold M_bind at 1.
  destruct (page_videos_titled entries st0 [] HI0)
    as (st1 & vs1 & E1 & HI1 & Hc1 & Hv1).
  simpl in E1. rewrite E1.
  unfold mbind at 1. unfold M_bind at 1.
  destruct (load_info_ok vs1 st1) as (st2 & E2 & Hc2). rewrite E2.
  destruct (keeps_video_load_info W vs1 _ _ _ HI1 I E2) as [HI2 _].
  assert (heap_grows any_name (heap st0) (heap st1)) as Hs1.
  { eapply heap_grows_weaken; [|exact (page_videos_grows W _ _ _ _ _ E1)].
    done. }
  assert (heap_grows any_name (heap st1) (heap st2)) as Hs2.
  { eapply heap_grows_weaken; [|exact (video_load_info_grows _ _ _ _ E2)].
    done. }
  exists st2, vs1. split_and!; [done|done| | |].
  - by rewrite Hc2, Hc1.
  - eapply Forall2_impl; [exact Hv1|]. intros r e.
    by apply (titled_grows any_name).
  - by eapply heap_grows_trans.
Qed.

Lemma or_None_token next : next <> "" -> or_None (JStr next) = JStr next.
Proof.
  intros Hne. unfold or_None. simpl. by destruct (String.eqb_spec next "").
Qed.

Lemma videos_loop_complete self : forall init last fuel st all tok o,
  Inv W st -> heap st !! self = Some o -> o_cls o = cPlaylist ->
  Forall (fun p : string * list (string * string) => p.1 <> "") init ->
  Z.of_nat (length all + length (concat (map snd init))) < max_videos W ->
  (last.1 = ""
   \/ max_videos W
      <= Z.of_nat (length all
                   + length (concat (map snd (init ++ [last]))))) ->
  (forall k p c, (init ++ [last]) !! k = Some p ->
     page_calls (max_videos W) (o_id o) tok (length all) (init ++ [last])
       !! k = Some c ->
     remote W (length (calls st) + k) c = Ok (page_json p.1 p.2)) ->
  (S (length init) < fuel)%nat ->
  exists st' vs,
    Playlist.videos_loop W fuel self all (JStr tok) st
    = (st', Ok (Some (all ++ vs)))
    /\ Forall2 (titled (heap st')) vs (concat (map snd (init ++ [last])))
    /\ calls st'
       = calls st
         ++ page_calls (max_videos W) (o_id o) tok (length all)
                       (init ++ [last])
    /\ heap_grows any_name (heap st) (heap st').
Proof.
  induction init as [|[next entries] init IH];
    intros [lnext lentries] fuel st all tok o HI Eo Hc Hne Hlt Hend Hok Hfuel.
  - destruct fuel as [|[|fuel]]; [simpl in Hfuel; lia..|].
    destruct (videos_loop_round self (S fuel) st all tok o lnext lentries)
      as (st2 & vs & E & HI2 & Hc2 & Hv & Hs); try done.
    { simpl in Hlt. lia. }
    { specialize (Hok 0%nat (lnext, lentries) _ eq_refl eq_refl).
      by rewrite Nat.add_0_r in Hok. }
    destruct (Hs self o Eo) as (o2 & Eo2 & Hc2' & Hi2 & _).
    rewrite E, (videos_loop_stop _ _ _ _ _ o2 Eo2); [|congruence|].
    + exists st2, vs. simpl. rewrite app_nil_r. done.
    + simpl in Hend. destruct Hend as [->|Hge]; [by left|right].
      rewrite app_nil_r in Hge. rewrite length_app.
      by rewrite (Forall2_length _ _ _ Hv).
  - destruct fuel as [|fuel]; [simpl in Hfuel; lia|].
    apply Forall_cons in Hne as [Hnext Hne]. simpl in Hnext.
    simpl in Hlt. rewrite length_app in Hlt.
    destruct (videos_loop_round self fuel st all tok o next entries)
      as (st2 & vs & E & HI2 & Hc2 & Hv & Hs); try done.
    { lia. }
    { specialize (Hok 0%nat (next, entries) _ eq_refl eq_refl).
      by rewrite Nat.add_0_r in Hok. }
    destruct (Hs self o Eo) as (o2 & Eo2 & Hc2' & Hi2 & _).
    pose proof (Forall2_length _ _ _ Hv) as Hlen.
    rewrite E, (or_None_token next Hnext).
    destruct (IH (lnext, lentries) fuel st2 (all ++ vs) next o2 HI2 Eo2)
      as (st' & vs' & E' & Hv' & Hc' & Hs'); try done.
    + congruence.
    + rewrite length_app, Hlen. lia.
    + simpl in Hend. rewrite length_app, Hlen.
      destruct Hend as [?|Hge]; [by left|right].
      rewrite length_app in Hge. lia.
    + intros k p c Hp Hcall. rewrite Hc2, length_app. simpl.
      replace (length (calls st) + 1 + k)%nat
        with (length (calls st) + S k)%nat by lia.
      apply Hok; [done|]. simpl.
      rewrite length_app, Hlen, Hi2 in Hcall. done.
    + simpl in Hfuel. lia.
    + rewrite E'. exists st', (vs ++ vs'). split_and!.
      * by rewrite app_assoc.
      * simpl. apply Forall2_app; [|done].
        eapply Forall2_impl; [exact Hv|]. intros r e.
        by apply (titled_grows any_name).
      * rewrite Hc', Hc2, <- app_assoc. simpl.
        by rewrite length_app, Hlen, Hi2.
      * by eapply heap_grows_trans.
Qed.

(** X8. When the pages of a playlist come in, each with a token for the
    next, until one has no such token or until [max_videos] videos are
    gathered, the [videos] job sets the future to the videos of all these
    pages, in their order, each with its title set, after exactly one call
    per page: each call carries the token of the page before it (the empty
    string at first) and asks for what is missing to [max_videos], at most
    50. *)
Theorem videos_of_all_pages fuel self st o
    (init : list (string * list (string * string)))
    (last : string * list (string * string)) :
  prog_reachable W st ->
  heap st !! self = Some o -> o_cls o = cPlaylist ->
  o_dict o !! "_videos" = Some None ->
  Forall (fun p => p.1 <> "") init ->
  Z.of_nat (length (concat (map snd init))) < max_videos W ->
  (last.1 = ""
   \/ max_videos W
      <= Z.of_nat (length (concat (map snd (init ++ [last]))))) ->
  (forall k p c, (init ++ [last]) !! k = Some p ->
     page_calls (max_videos W) (o_id o) "" 0 (init ++ [last]) !! k = Some c ->
     remote W (length (calls st) + k) c = Ok (page_json p.1 p.2)) ->
  (S (length init) < fuel)%nat ->
  exists st' vids,
    Playlist.videos_job W fuel self st = (st', Ok (Some tt))
    /\ future_at st' self "_videos" = Some (Some (VVideos vids))
    /\ Forall2 (titled (heap st')) vids
               (concat (map snd (init ++ [last])))
    /\ calls st'
       = calls st ++ page_calls (max_videos W) (o_id o) "" 0 (init ++ [last]).
Proof.
  intros Hr Eo Hc Hv Hne Hlt Hend Hok Hfuel. apply Inv_reachable in Hr.
  destruct (videos_loop_complete self init last fuel st [] "" o Hr)
    as (st1 & vids & E1 & Hvids & Hcalls & _); try done.
  simpl in E1.
  pose proof (videos_loop_grows W _ _ _ _ _ _ _ E1) as Hg.
  destruct (Hg self o Eo) as (o1 & Eo1 & Hc1 & Hi1 & Hd).
  pose proof (dict_grows_frame _ _ _ _ Hd not_videos_future) as Hv1.
  rewrite Hv in Hv1.
  unfold Playlist.videos_job, mbind, M_bind. rewrite E1.
  unfold future_set. rewrite Eo1, Hv1. simpl.
  eexists _, vids. split_and!; [done| | |done].
  - unfold future_at. simpl.
    rewrite list_lookup_insert_eq by by eapply lookup_lt_Some.
    simpl. by rewrite lookup_insert_eq.
  - simpl. eapply Forall2_impl; [exact Hvids|]. intros r e.
    apply (titled_grows any_name).
    apply heap_grows_update; [done|].
    apply dict_grows_insert; [done|by right].
Qed.

End Pages.

(** Two pages of a playlist: two calls, three videos. *)
Lemma videos_of_all_pages_witness :
  exists st' vids,
    Playlist.videos_job two_pages 3 0%nat (videos_requested two_pages)
    = (st', Ok (Some tt))
    /\ future_at st' 0%nat "_videos" = Some (Some (VVideos vids))
    /\ Forall2 (titled (heap st')) vids [("a", "A"); ("b", "B"); ("c", "C")]
    /\ calls st'
       = calls (videos_requested two_pages)
         ++ [list_playlistitems (IStr "PL") (JStr "") 50;
             list_playlistitems (IStr "PL") (JStr "t2") 50].
Proof.
  apply (videos_of_all_pages two_pages 3 0%nat (videos_requested two_pages)
           (Obj cPlaylist (IStr "PL") {["_videos" := None]})
           [("t2", [("a", "A"); ("b", "B")])] ("", [("c", "C")])).
  - unfold videos_requested.
    eapply prog_next; [eapply prog_next; [apply prog_init|]|];
      apply serve_move.
  - vm_compute. reflexivity.
  - reflexivity.
  - vm_compute. reflexivity.
  - by repeat constructor.
  - simpl. lia.
  - by left.
  - intros [|[|k]] p c; [| |done]; by intros [= <-] _.
  - simpl. lia.
Defined.

Section Rounds.
Context (W : world).
Implicit Types (st : state) (self : ref) (h : list obj) (o : obj).

Lemma page_videos_length items : forall acc st st' vs,
  Playlist.page_videos W items acc st = (st', Ok vs) ->
  length vs = (length acc + length items)%nat.
Proof.
  induction items as [|item items IH]; intros acc st st' vs.
  - intros [= _ <-]. simpl. lia.
  - cbn [Playlist.page_videos]. unfold mbind at 1. unfold M_bind at 1.
    destruct (lift _ st) as [st0 [id|e]]; [|done].
    unfold mbind at 1. unfold M_bind at 1.
    destruct (Entry.get W cVideo id st0) as [st1 [video|e]]; [|done].
    unfold mbind at 1. unfold M_bind at 1.
    destruct (Entry.set_api_data W video ["title"] item st1)
      as [st2 [[]|e]]; [|done].
    intros E. apply IH in E. rewrite length_app in E. simpl in *. lia.
Qed.

Lemma quiet_page_videos items acc : quiet (Playlist.page_videos W items acc).
Proof.
  revert acc. induction items as [|item items IH]; intros acc.
  - apply quiet_ret.
  - cbn [Playlist.page_videos].
    apply quiet_bind; [apply quiet_lift|]. intros id.
    apply quiet_bind; [apply quiet_get|]. intros video.
    apply quiet_bind; [apply quiet_set_api_data|]. intros _. apply IH.
Qed.

(** One round of the loop: it ends the loop, or it has made one call and
    goes on with the videos of the page and its token. *)
Lemma videos_loop_unfold fuel self all page st :
  (exists st' r,
     Playlist.videos_loop W (S fuel) self all page st = (st', r)
     /\ r <> Ok None
     /\ (length (calls st') <= length (calls st) + 1)%nat
     /\ (length (calls st') = length (calls st)
         \/ Z.of_nat (length all) < max_videos W))
  \/ (exists st2 data page' items myvideos,
        Z.of_nat (length all) < max_videos W
        /\ remote W (length (calls st))
             (list_playlistitems
                (from_option o_id INone (heap st !! self)) page
                (Z.min (max_videos W - Z.of_nat (length all)) 50))
           = Ok data
        /\ or_None <$> dict_get data "nextPageToken" = Ok page'
        /\ subscript data "items" ≫= iter = Ok items
        /\ length myvideos = length items
        /\ length (calls st2) = S (length (calls st))
        /\ heap_grows (futures_of Video.fields) (heap st) (heap st2)
        /\ Playlist.videos_loop W (S fuel) self all page st
           = Playlist.videos_loop W fuel self (all ++ myvideos) page' st2).
Proof.
  cbn [Playlist.videos_loop].
  destruct (heap st !! self) as [o|] eqn:Eo;
    [|left; eexists _, _; split_and!; [done..|lia|by left]].
  assert (page = JNull \/ page <> JNull) as [->|Hpage]
    by (destruct page; (by left) || (by right));
    [left; eexists _, _; split_and!; [done..|lia|by left]|].
  assert (forall (x y : state * res (option (list ref))),
            (if page is JNull then x else y) = y) as Hif
    by (intros; by destruct page).
  rewrite Hif.
  destruct (Entry.self_max_videos W (o_cls o)) as [limit|e] eqn:El.
  2:{ left. eexists _, _. split_and!; [done|done|lia|by left]. }
  assert (limit = max_videos W) as ->.
  { destruct (o_cls o); [done|]. by injection El as <-. }
  destruct (Z.ltb_spec (Z.of_nat (length all)) (max_videos W)) as [Hlt|Hge].
  2:{ left. eexists _, _. split_and!; [done|done|lia|by left]. }
  simpl.
  destruct (remote W (length (calls st)) _) as [data|e] eqn:Ed.
  2:{ left. eexists _, _. split_and!; [done|done| |by right].
      simpl. rewrite length_app. simpl. lia. }
  set (st0 := State _ _ _ _ _).
  assert (length (calls st0) = S (length (calls st))) as Hc0.
  { unfold st0. simpl. rewrite length_app. simpl. lia. }
  assert (forall st' (r : res (option (list ref))),
            length (calls st') = S (length (calls st)) ->
            r <> Ok None ->
            exists st'0 r0,
              (st', r) = (st'0, r0) /\ r0 <> Ok None
              /\ (length (calls st'0) <= length (calls st) + 1)%nat
              /\ (length (calls st'0) = length (calls st)
                  \/ Z.of_nat (length all) < max_videos W)) as Hraise.
  { intros st' r Hc Hr. exists st', r. split_and!; [done..|lia|by right]. }
  unfold mbind at 1. unfold M_bind at 1. unfold lift at 1.
  destruct (or_None <$> dict_get data "nextPageToken") as [page'|e] eqn:Ep.
  2:{ left. by apply Hraise. }
  unfold mbind at 1. unfold M_bind at 1. unfold lift at 1.
  destruct (subscript data "items" ≫= iter) as [items|e] eqn:Ei.
  2:{ left. by apply Hraise. }
  unfold mbind at 1. unfold M_bind at 1.
  destruct (Playlist.page_videos W items [] st0) as [st1 [myvideos|e]] eqn:E1.
  2:{ left. destruct (quiet_page_videos _ _ _ _ _ E1) as [Hc1 _].
      apply Hraise; try done; by rewrite Hc1. }
  unfold mbind at 1. unfold M_bind at 1.
  destruct (load_info_ok myvideos st1) as (st2 & E2 & Hc2). rewrite E2.
  right. exists st2, data, page', items, myvideos.
  destruct (quiet_page_videos _ _ _ _ _ E1) as [Hc1 _].
  split_and!; try done.
  - by apply page_videos_length in E1.
  - by rewrite Hc2, Hc1.
  - change (heap st) with (heap st0). eapply heap_grows_trans.
    + eapply (page_videos_grows W). exact E1.
    + eapply video_load_info_grows. exact E2.
  - unfold mbind, M_bind, lift. by rewrite E1, E2.
Qed.

Lemma videos_loop_no_token fuel self all st :
  exists r,
    Playlist.videos_loop W (S fuel) self all JNull st = (st, r)
    /\ r <> Ok None.
Proof.
  cbn [Playlist.videos_loop]. destruct (heap st !! self); by eexists.
Qed.

Lemma videos_loop_ends : forall fuel self all page st,
  progressing W ->
  (Z.to_nat (max_videos W - Z.of_nat (length all)) < fuel)%nat ->
  exists st' r,
    Playlist.videos_loop W fuel self all page st = (st', r)
    /\ r <> Ok None
    /\ (length (calls st')
        <= length (calls st)
           + Z.to_nat (max_videos W - Z.of_nat (length all)))%nat.
Proof.
  induction fuel as [|fuel IH]; intros self all page st Hprog Hfuel; [lia|].
  destruct (videos_loop_unfold fuel self all page st)
    as [(st' & r & E & Hr & Hc & Hcase)
       |(st2 & data & page' & items & myvideos & Hlt & Ed & Ep & Ei & Hlen
         & Hc2 & _ & E)].
  - exists st', r. split_and!; [done..|].
    destruct Hcase as [->|Hlt]; lia.
  - rewrite E. destruct (decide (items = [])) as [->|Hne].
    + rewrite (Hprog _ _ _ _ _ Ed Ei) in Ep. injection Ep as <-.
      destruct fuel as [|fuel]; [lia|].
      destruct (videos_loop_no_token fuel self (all ++ myvideos) st2)
        as (r & E' & Hr).
      exists st2, r. split_and!; [done..|lia].
    + assert (0 < length items)%nat by (destruct items; [done|simpl; lia]).
      destruct (IH self (all ++ myvideos) page' st2 Hprog)
        as (st' & r & E' & Hr & Hc).
      { rewrite length_app. lia. }
      exists st', r. split_and!; [done..|].
      rewrite length_app in Hc. lia.
Qed.

(** X9. When the collaborator never answers with a token for a next page
    and no item at all, the [videos] job ends, by returning or by raising,
    after at most [max_videos] calls (none when [max_videos] is not
    positive): the loop needs no more rounds than that, however many pages
    the playlist has. *)
Theorem videos_job_ends fuel self st :
  progressing W ->
  (Z.to_nat (max_videos W) < fuel)%nat ->
  exists st' r,
    Playlist.videos_job W fuel self st = (st', r)
    /\ r <> Ok None
    /\ (length (calls st')
        <= length (calls st) + Z.to_nat (max_videos W))%nat.
Proof.
  intros Hprog Hfuel.
  destruct (videos_loop_ends fuel self [] (JStr "") st Hprog)
    as (st1 & r & E & Hr & Hc).
  { simpl. by rewrite Z.sub_0_r. }
  simpl in Hc. rewrite Z.sub_0_r in Hc.
  unfold Playlist.videos_job, mbind, M_bind. rewrite E.
  destruct r as [[vids|]|e]; [|done|].
  - destruct (future_set self "_videos" (VVideos vids) st1)
      as [st2 [[]|e]] eqn:E2.
    + exists st2, (Ok (Some tt)). split_and!; [done..|].
      assert (calls st2 = calls st1) as ->; [|done].
      revert E2. unfold future_set. repeat case_match; by intros [= <-].
    + exists st2, (Raise e). split_and!; [done..|].
      assert (calls st2 = calls st1) as ->; [|done].
      revert E2. unfold future_set. repeat case_match; by intros [= <-].
  - exists st1, (Raise e). by split_and!.
Qed.

(** X10. When the collaborator keeps answering with an empty page and a
    token for the next one, the [videos] job of a playlist never ends (for
    a positive [max_videos]): whatever the number of rounds, the loop is
    not over after them, and it has made one call in every round. *)
Theorem videos_job_loops_on_empty_pages self st o next :
  heap st !! self = Some o -> o_cls o = cPlaylist ->
  0 < max_videos W -> next <> "" ->
  (forall n c, remote W n c = Ok (page_json next [])) ->
  forall fuel,
    exists st',
      Playlist.videos_job W fuel self st = (st', Ok None)
      /\ length (calls st') = (length (calls st) + fuel)%nat.
Proof.
  intros Eo Hc Hmax Hnext Hremote fuel.
  assert (forall tok st0,
            heap st0 = heap st ->
            exists st',
              Playlist.videos_loop W fuel self [] (JStr tok) st0
              = (st', Ok None)
              /\ length (calls st') = (length (calls st0) + fuel)%nat)
    as Hloop.
  { induction fuel as [|fuel IH]; intros tok st0 Hh.
    - exists st0. split; [done|lia].
    - cbn [Playlist.videos_loop]. rewrite Hh, Eo, Hc.
      cbn [Entry.self_max_videos length].
      destruct (Z.ltb_spec (Z.of_nat 0) (max_videos W)); [|lia].
      rewrite Hremote. simpl. rewrite (or_None_token next Hnext).
      unfold mbind, M_bind, lift, Video.load_info. simpl.
      match goal with
      | |- context [Playlist.videos_loop W fuel self [] (JStr next) ?s] =>
          destruct (IH next s) as (st' & -> & Hlen); [by simpl|]
      end.
      exists st'. split; [done|]. rewrite Hlen. simpl.
      rewrite length_app. simpl. lia. }
  destruct (Hloop "" st eq_refl) as (st' & E & Hlen).
  exists st'. unfold Playlist.videos_job, mbind, M_bind. by rewrite E.
Qed.

End Rounds.

Lemma two_pages_progressing : progressing two_pages.
Proof.
  intros [|[|n]] id page max_results data; simpl; intros [= <-]; done.
Qed.

(** The two pages again: the job is over within 61 rounds. *)
Lemma videos_job_ends_witness :
  exists st' r,
    Playlist.videos_job two_pages 61 0%nat (videos_requested two_pages)
    = (st', r)
    /\ r <> Ok None
    /\ (length (calls st')
        <= length (calls (videos_requested two_pages))
           + Z.to_nat (max_videos two_pages))%nat.
Proof.
  apply (videos_job_ends two_pages 61 0%nat (videos_requested two_pages)).
  - apply two_pages_progressing.
  - simpl. lia.
Defined.

(** Empty pages without end: three rounds, three calls, and no end. *)
Lemma videos_job_loops_on_empty_pages_witness :
  exists st',
    Playlist.videos_job endless_world 3 0%nat (videos_requested endless_world)
    = (st', Ok None)
    /\ length (calls st')
       = (length (calls (videos_requested endless_world)) + 3)%nat.
Proof.
  apply (videos_job_loops_on_empty_pages endless_world 0%nat
           (videos_requested endless_world)
           (Obj cPlaylist (IStr "PL") {["_videos" := None]}) "t").
  - vm_compute. reflexivity.
  - reflexivity.
  - simpl. lia.
  - discriminate.
  - reflexivity.
Defined.

Module ThreadPoolOrder.
Import ThreadPool ThreadPoolFacts.

Section Order.
Context {J : Type}.
Implicit Types (p q : pool J) (t : thread J) (ts : list (thread J)).

Lemma pop_snoc (l : list J) f : pop (l ++ [f]) = Some (l, f).
Proof. unfold pop. by rewrite last_snoc, removelast_last. Qed.

Lemma run_appends (f : J) p : jobs (run f p) = jobs p ++ [f].
Proof. unfold run. by destruct (_ <? _). Qed.

(** X11. In every reachable state of the pool, a job waiting in the queue
    is never left without a worker: while the queue is not empty at least
    one worker thread is alive, and it is counted in [threads_active]. *)
Theorem waiting_job_has_worker p :
  reachable p -> jobs p <> [] ->
  threads p <> [] /\ 0 < threads_active p.
Proof.
  intros Hr Hjobs. destruct (pool_inv_reachable _ Hr) as (Hc & _ & Hj).
  specialize (Hj Hjobs). split; [|done].
  intros Hnil. rewrite Hnil in Hc. simpl in Hc. lia.
Qed.

(** X12. A worker takes the job that was handed in last: going through
    its locked section with a queue [l ++ [f]] it leaves the queue [l] and
    applies [f], and the count of active workers is as it was; in
    particular the job of a [run] is the next one taken, before the jobs
    that were waiting.  With an empty queue the worker leaves, and the
    count goes down by one. *)
Theorem worker_takes_last_job i p q :
  worker_lock i p = Some q ->
  (forall l f, jobs p = l ++ [f] ->
     jobs q = l /\ threads q = <[i := Applying f]> (threads p)
     /\ threads_active q = threads_active p /\ applied q = applied p)
  /\ (jobs p = [] ->
      jobs q = [] /\ threads q = delete i (threads p)
      /\ threads_active q = threads_active p - 1)
  /\ (forall f q', worker_lock i (run f p) = Some q' ->
        jobs q' = jobs p /\ threads q' !! i = Some (Applying f)).
Proof.
  unfold worker_lock.
  destruct (threads p !! i) as [[|g]|] eqn:Ei; try discriminate.
  intros Hq. split_and!.
  - intros l f Hl. rewrite Hl, pop_snoc in Hq. by injection Hq as <-.
  - intros Hnil. rewrite Hnil in Hq. by injection Hq as <-.
  - intros f q'.
    assert (threads (run f p) !! i = Some AtLoop) as ->.
    { unfold run. destruct (_ <? _); simpl; [|done].
      by apply lookup_app_l_Some. }
    rewrite run_appends, pop_snoc. intros [= <-]. simpl. split; [done|].
    apply list_lookup_insert_eq.
    unfold run. destruct (_ <? _); simpl; [rewrite length_app|];
      apply lookup_lt_Some in Ei; lia.
Qed.

End Order.

(** A queue of one job and one worker. *)
Lemma waiting_job_has_worker_witness :
  threads (run 5%nat init) <> [] /\ 0 < threads_active (run 5%nat init).
Proof.
  apply (waiting_job_has_worker (run 5%nat init)).
  - apply (reach_step init); [apply reach_init|apply step_run].
  - discriminate.
Defined.

(** Two jobs and a worker: the second is taken first. *)
Lemma worker_takes_last_job_witness :
  jobs (Pool 2 [5%nat] [Applying 7%nat; AtLoop] []) = [5%nat]
  /\ threads (Pool 2 [5%nat] [Applying 7%nat; AtLoop] [])
     = <[0%nat := Applying 7%nat]> (threads (run 7%nat (run 5%nat init)))
  /\ threads_active (Pool 2 [5%nat] [Applying 7%nat; AtLoop] [])
     = threads_active (run 7%nat (run 5%nat init))
  /\ applied (Pool 2 [5%nat] [Applying 7%nat; AtLoop] [])
     = applied (run 7%nat (run 5%nat init)).
Proof.
  apply (proj1 (worker_takes_last_job 0%nat (run 7%nat (run 5%nat init))
                  (Pool 2 [5%nat] [Applying 7%nat; AtLoop] []) eq_refl)
               [5%nat] 7%nat eq_refl).
Defined.

End ThreadPoolOrder.

Section GetFacts.
Context (W : world).
Implicit Types (st : state) (self : ref) (h : list obj) (o : obj).

(** X13. [Video.get] and [Playlist.get] return an instance of the class
    they are called on whose id is the one asked for (equal to it as a dict
    key); on a miss the instance is new, with no future yet, and the
    instances there were are left as they are.  An id that cannot be hashed
    (a list or a dict) raises [TypeError] and changes nothing.  A video and
    a playlist are never the same instance, whatever their ids. *)
Theorem get_instance_of_class c (x : json) st st' res :
  prog_reachable W st ->
  Entry.get W c x st = (st', res) ->
  match res with
  | Ok r =>
      exists i o,
        hashable x = Ok i /\ heap st' !! r = Some o
        /\ o_cls o = c /\ key_of (o_id o) = key_of i
        /\ (forall s, x = JStr s -> o_id o = IStr s)
        /\ (cache st !! (c, key_of i) = None ->
            r = length (heap st) /\ o = Obj c i ∅
            /\ heap st' = heap st ++ [o])
        /\ (forall c' (x' : json) st2 r',
              c' <> c -> Entry.get W c' x' st' = (st2, Ok r') -> r' <> r)
  | Raise e =>
      e = TypeError /\ st' = st
      /\ ((exists l, x = JArr l) \/ (exists l, x = JObj l))
  end.
Proof.
  intros Hr E. apply Inv_reachable in Hr.
  destruct (keeps_get W c x _ _ _ Hr I E) as [HI' Hcls].
  revert E. unfold Entry.get.
  destruct (hashable x) as [i|e] eqn:Eh.
  2:{ intros [= <- <-]. destruct x; try discriminate; injection Eh as <-;
        split_and!; eauto. }
  assert (forall r o,
            heap st' !! r = Some o -> o_cls o = c ->
            forall c' (x' : json) st2 r',
              c' <> c -> Entry.get W c' x' st' = (st2, Ok r') -> r' <> r)
    as Hother.
  { intros r o Eo Hc c' x' st2 r' Hne E' ->.
    destruct (keeps_get W c' x' _ _ _ HI' I E') as [_ Hcls'].
    destruct (Hcls' _ eq_refl) as (o' & Eo' & Hc').
    destruct (get_grows W any_name c' x' _ _ _ E' r o Eo)
      as (o2 & Eo2 & Hc2 & _).
    assert (Some o' = Some o2) as [= ->] by exact (eq_trans (eq_sym Eo') Eo2).
    congruence. }
  destruct (cache st !! (c, key_of i)) as [r0|] eqn:Ec.
  - intros [= <- <-]. simpl in *.
    destruct (inv_cache _ _ Hr _ _ _ Ec) as (o & Eo & Hc & Hk).
    exists i, o. split_and!; [done..| | |].
    + intros s ->. injection Eh as <-. by apply key_of_IStr.
    + intros Hnone. rewrite Ec in Hnone. discriminate.
    + by eapply Hother.
  - intros [= <- <-]. simpl in *.
    assert ((heap st ++ [Obj c i ∅]) !! length (heap st) = Some (Obj c i ∅))
      as Hnew.
    { rewrite lookup_app_r by done. by rewrite Nat.sub_diag. }
    exists i, (Obj c i ∅). split_and!; [done..| | |].
    + intros s ->. by injection Eh as <-.
    + done.
    + by eapply Hother.
Qed.

End GetFacts.

(** The first video of a program. *)
Lemma get_instance_of_class_witness :
  exists i o,
    hashable (JStr "7uj0hOIm2kY") = Ok i
    /\ heap (one_video failing_world) !! 0%nat = Some o
    /\ o_cls o = cVideo /\ key_of (o_id o) = key_of i
    /\ (forall s, JStr "7uj0hOIm2kY" = JStr s -> o_id o = IStr s)
    /\ (cache init_state !! (cVideo, key_of i) = None ->
        0%nat = length (heap init_state) /\ o = Obj cVideo i ∅
        /\ heap (one_video failing_world) = heap init_state ++ [o])
    /\ (forall c' (x' : json) st2 r',
          c' <> cVideo ->
          Entry.get failing_world c' x' (one_video failing_world)
          = (st2, Ok r') -> r' <> 0%nat).
Proof.
  apply (get_instance_of_class failing_world cVideo (JStr "7uj0hOIm2kY")
           init_state (one_video failing_world) (Ok 0%nat)).
  - apply prog_init.
  - reflexivity.
Defined.

Section Scraped.
Context (Y : site) (limit : Z)
        (victim : list (cls * hkey) -> gmap (cls * hkey) ref -> cls * hkey).
Implicit Types (st : state) (self : ref) (h : list obj) (o : obj).

Let W : world := site_world limit Y victim.

(** What [scrAPI.list_playlistitems] answers, when it answers. *)
Lemma scraped_page n id page max_results data :
  api_enabled Y = false ->
  remote W n (list_playlistitems id page max_results) = Ok data ->
  exists ms,
    data = JObj [("nextPageToken", JNull);
                 ("items", JArr (map scrAPI.playlistitem_match ms))]
    /\ Z.of_nat (length ms) <= max_results.
Proof.
  intros Hscr. unfold W. simpl. rewrite Hscr.
  unfold scrAPI.list_playlistitems. simpl.
  destruct (session_text Y n 0 _) as [text|e]; [|done]. simpl.
  unfold scrAPI.islice.
  destruct (Z.ltb_spec max_results 0) as [|Hpos]; [done|]. simpl.
  intros [= <-]. eexists. split; [done|].
  rewrite length_take. lia.
Qed.

(** X14. With the scraping collaborator ([api_enabled] false),
    [list_playlistitems] answers with at most [max_results] items and
    never with a token for a next page.  So the collaborator is of the kind
    the bound on [videos] asks for, and the [videos] job of a playlist ends,
    by returning or by raising, after at most one call. *)
Theorem scraped_playlist_is_one_page :
  api_enabled Y = false ->
  page_sized W
  /\ progressing W
  /\ (forall fuel self st st' r,
        (2 <= fuel)%nat ->
        Playlist.videos_job W fuel self st = (st', r) ->
        r <> Ok None
        /\ (length (calls st') <= length (calls st) + 1)%nat).
Proof.
  intros Hscr.
  assert (forall n id page max_results data,
            remote W n (list_playlistitems id page max_results) = Ok data ->
            or_None <$> dict_get data "nextPageToken" = Ok JNull) as Htok.
  { intros n id page max_results data Hd.
    by destruct (scraped_page _ _ _ _ _ Hscr Hd) as (ms & -> & _). }
  split_and!.
  - intros n id page max_results data items Hpos Hd Hi.
    destruct (scraped_page _ _ _ _ _ Hscr Hd) as (ms & -> & Hlen).
    simpl in Hi. injection Hi as <-. by rewrite length_map.
  - intros n id page max_results data Hd _. by eapply Htok.
  - intros [|[|fuel]] self st st' r Hfuel; [lia..|]. intros E.
    assert (exists st1 r1,
              Playlist.videos_loop W (S (S fuel)) self [] (JStr "") st
              = (st1, r1)
              /\ r1 <> Ok None
              /\ (length (calls st1) <= length (calls st) + 1)%nat)
      as (st1 & r1 & E1 & Hr1 & Hc1).
    { destruct (videos_loop_unfold W (S fuel) self [] (JStr "") st)
        as [(st1 & r1 & E1 & Hr1 & Hc1 & _)
           |(st2 & data & page' & items & myvideos & _ & Ed & Ep & _ & _
             & Hc2 & _ & E1)].
      - by exists st1, r1.
      - rewrite (Htok _ _ _ _ _ Ed) in Ep. injection Ep as <-.
        destruct (videos_loop_no_token W fuel self ([] ++ myvideos) st2)
          as (r1 & E2 & Hr1).
        exists st2, r1. split_and!; [by rewrite E1|done|lia]. }
    revert E. unfold Playlist.videos_job, mbind, M_bind. rewrite E1.
    destruct r1 as [[vids|]|e]; [|done|].
    + destruct (future_set self "_videos" (VVideos vids) st1)
        as [st2 [[]|e]] eqn:E2; intros [= <- <-];
        (split; [done|]);
        (assert (calls st2 = calls st1) as ->; [|done]);
        revert E2; unfold future_set; repeat case_match; by intros [= <-].
    + by intros [= <- <-].
Qed.

(** X15. An item of [scrAPI.list_playlists] holds the item count as the
    text that was matched and the default thumbnail only.  So, for a
    playlist loaded through the scraping collaborator, [_set_api_data] sets
    the video count to [max_videos], whatever the count on the page (a
    string is never smaller than an int), and the thumbnails to the empty
    list; title and channel are the groups of the match. *)
Theorem scraped_playlist_fields (V : world) id m item val :
  scrAPI.playlist_match id m = Ok item ->
  is_Some (group m "itemCount") ->
  Entry.field_value V cPlaylist "video_count" item val
  = Ok (VJson (JNum (max_videos V)))
  /\ Entry.field_value V cPlaylist "thumbnails" item val
     = Ok (VJson (JArr []))
  /\ Entry.field_value V cPlaylist "title" item val
     = Ok (VJson (json_of_group (group m "title")))
  /\ Entry.field_value V cPlaylist "channel" item val
     = Ok (VJson (json_of_group (group m "channelTitle"))).
Proof.
  unfold scrAPI.playlist_match, concat_group.
  destruct (group m "thumbnail") as [thumbnail|]; [|done].
  intros [= <-] [count Hcount]. rewrite Hcount. done.
Qed.

End Scraped.

(** A scraped playlist of three videos: its [videos] job is over in two
    rounds, after one call. *)
Lemma scraped_playlist_is_one_page_witness :
  let W := site_world 60 (scraped_site three_items) first_resident in
  page_sized W
  /\ progressing W
  /\ (forall fuel self st st' r,
        (2 <= fuel)%nat ->
        Playlist.videos_job W fuel self st = (st', r) ->
        r <> Ok None
        /\ (length (calls st') <= length (calls st) + 1)%nat).
Proof.
  intros W.
  apply (scraped_playlist_is_one_page (scraped_site three_items) 60
           first_resident).
  reflexivity.
Defined.

(** The header of a scraped playlist of 12 videos: the count becomes 60. *)
Lemma scraped_playlist_fields_witness :
  let item :=
    JObj [("id", JStr "PL");
          ("snippet",
           JObj [("title", JStr "P"); ("channelTitle", JStr "C");
                 ("thumbnails",
                  JObj [("default",
                         JObj [("url",
                                JStr "https://i.ytimg.com/vi/a/default.jpg");
                               ("width", JNum 120); ("height", JNum 90)])])]);
          ("contentDetails", JObj [("itemCount", JStr "12")])] in
  Entry.field_value failing_world cPlaylist "video_count" item None
  = Ok (VJson (JNum 60))
  /\ Entry.field_value failing_world cPlaylist "thumbnails" item None
     = Ok (VJson (JArr []))
  /\ Entry.field_value failing_world cPlaylist "title" item None
     = Ok (VJson (JStr "P"))
  /\ Entry.field_value failing_world cPlaylist "channel" item None
     = Ok (VJson (JStr "C")).
Proof.
  intros item.
  apply (scraped_playlist_fields failing_world (IStr "PL")
           [("thumbnail", "https://i.ytimg.com/vi/a/"); ("title", "P");
            ("channelTitle", "C"); ("itemCount", "12")] item None).
  - reflexivity.
  - by eexists.
Defined.

(** The scraped playlist, end to end: fetched, its [videos] read, the job
    applied. *)
Example scraped_playlist_videos :
  let W := site_world 60 (scraped_site three_items) first_resident in
  let st := videos_requested W in
  let st' := after (Playlist.videos_job W 2 0%nat) st in
  future_at st' 0%nat "_videos" = Some (Some (VVideos [1; 2; 3]%nat))
  /\ calls st' = [list_playlistitems (IStr "PL") (JStr "") 50]
  /\ Entry.ids_of (heap st') [1; 2; 3]%nat = [IStr "a"; IStr "b"; IStr "c"].
Proof. vm_compute. split_and!; done. Qed.

Section Requests.
Context (Y : site).
Implicit Types (st : state) (self : ref) (h : list obj) (o : obj).

Lemma str_join_strings sep (ss : list string) :
  API.str_join sep (map IStr ss) = Ok (String.concat sep ss).
Proof.
  induction ss as [|s ss IH]; [done|].
  cbn [map API.str_join String.concat].
  destruct ss as [|s' ss]; [done|].
  cbn [map] in *. rewrite IH. done.
Qed.

Lemma str_join_not_string sep (ids : list pyid) i :
  i ∈ ids -> (forall s, i <> IStr s) ->
  API.str_join sep ids = Raise TypeError.
Proof.
  intros Hin Hi. induction ids as [|j ids IH]; [by apply elem_of_nil in Hin|].
  apply elem_of_cons in Hin as [<-|Hin].
  - cbn [API.str_join]. destruct i; try done. by destruct (Hi s).
  - specialize (IH Hin). cbn [API.str_join].
    destruct j; try done. destruct ids; [by apply elem_of_nil in Hin|].
    by rewrite IH.
Qed.

(** X16. With the Data API ([api_enabled] true), [list_videos] makes one
    request, with the ids joined by commas in their order.  When one of the
    ids is not a string, [','.join] raises [TypeError] and no request is
    made; the batch job of [Video.load_info] catches it, and sets every
    title, length and channel future of the batch that was not set to
    [None]. *)
Theorem api_batch_is_one_request n (ids : list pyid) :
  api_enabled Y = true ->
  (forall ss, ids = map IStr ss ->
     perform Y n (list_videos ids)
     = ([videos_request Y (String.concat "," ss)],
        session_json Y n 0 (videos_request Y (String.concat "," ss))))
  /\ (forall i, i ∈ ids -> (forall s, i <> IStr s) ->
        perform Y n (list_videos ids) = ([], Raise TypeError))
  /\ (forall limit victim st sublist i,
        (forall r, r ∈ sublist -> is_Some (heap st !! r)) ->
        ids = Entry.ids_of (heap st) sublist ->
        i ∈ ids -> (forall s, i <> IStr s) ->
        exists st',
          Video.load_info_job (site_world limit Y victim) sublist st
          = (st', Ok tt)
          /\ forall r k, r ∈ sublist -> k ∈ Video.fields ->
               future_at st' r (Entry.future_name k)
               = absent_fill (future_at st r (Entry.future_name k))).
Proof.
  intros Hapi.
  assert (forall i, i ∈ ids -> (forall s, i <> IStr s) ->
            perform Y n (list_videos ids) = ([], Raise TypeError)) as Hbad.
  { intros i Hin Hi. cbn [perform]. rewrite Hapi. unfold API.list_videos.
    by rewrite (str_join_not_string "," ids i Hin Hi). }
  split_and!; [|done|].
  - intros ss ->. cbn [perform]. rewrite Hapi. unfold API.list_videos.
    by rewrite str_join_strings.
  - intros limit victim st sublist i Hvalid -> Hin Hi.
    set (W := site_world limit Y victim).
    destruct (failed_batch W (list_videos (Entry.ids_of (heap st) sublist))
                Video.fields sublist st TypeError Hvalid)
      as (st' & E & _ & _ & Hfut).
    + unfold W. cbn [remote site_world]. cbn [perform]. rewrite Hapi.
      unfold API.list_videos.
      by rewrite (str_join_not_string "," _ i Hin Hi).
    + by exists st'.
Qed.

Lemma watch_pages_requests n : forall ids k,
  let res := scrAPI.watch_pages Y n k ids in
  (forall items, res.2 = Ok items ->
     res.1 = map watch_request ids
     /\ Forall (fun item => exists id,
                  id ∈ ids /\ subscript item "id" = Ok (json_of_id id))
               items)
  /\ (forall e, res.2 = Raise e ->
        exists j id,
          ids !! j = Some id
          /\ session_text Y n (k + j) (watch_request id) = Raise e
          /\ res.1 = map watch_request (take (S j) ids)).
Proof.
  induction ids as [|id ids IH]; intros k.
  - simpl. split; [by intros items [= <-]|done].
  - cbn [scrAPI.watch_pages]. fold (watch_request id).
    destruct (session_text Y n k (watch_request id)) as [text|e] eqn:Et.
    + specialize (IH (S k)). cbn zeta in IH.
      destruct (scrAPI.watch_pages Y n (S k) ids) as [reqs rest].
      destruct IH as [IHok IHerr]. cbn [fst snd] in *. split.
      * destruct rest as [rest|e]; [|done]. intros items [= <-].
        destruct (IHok rest eq_refl) as [-> Hrest]. split; [done|].
        apply Forall_app. split.
        -- apply Forall_forall. intros item (m & -> & _)%list_elem_of_fmap.
           exists id. split; [apply list_elem_of_here|done].
        -- eapply Forall_impl; [exact Hrest|]. intros item (id' & Hin & E).
           exists id'. split; [by apply list_elem_of_further|done].
      * destruct rest as [rest|e']; [done|]. intros e [= <-].
        destruct (IHerr e' eq_refl) as (j & id' & Ej & Es & ->).
        exists (S j), id'. split_and!; [done| |done].
        by replace (k + S j)%nat with (S k + j)%nat by lia.
    + cbn [fst snd]. split; [done|]. intros e' [= <-].
      exists 0%nat, id. split_and!; [done| |done].
      by rewrite Nat.add_0_r.
Qed.

(** X17. [scrAPI.list_videos] fetches one page per id, in the order of the
    ids.  When all pages come, every item of its answer carries one of the
    ids asked for (the one of the page it was found on); when the fetch of a
    page raises, the call raises that error with no answer at all, and
    no page after it is fetched. *)
Theorem scraped_videos_one_page_per_id n (ids : list pyid) :
  (forall data, (scrAPI.list_videos Y n ids).2 = Ok data ->
     (scrAPI.list_videos Y n ids).1 = map watch_request ids
     /\ exists items,
          data = JObj [("items", JArr items)]
          /\ Forall (fun item => exists id,
                       id ∈ ids /\ subscript item "id" = Ok (json_of_id id))
                    items)
  /\ (forall e, (scrAPI.list_videos Y n ids).2 = Raise e ->
        exists j id,
          ids !! j = Some id
          /\ session_text Y n j (watch_request id) = Raise e
          /\ (scrAPI.list_videos Y n ids).1
             = map watch_request (take (S j) ids)).
Proof.
  pose proof (watch_pages_requests n ids 0) as [Hok Herr].
  unfold scrAPI.list_videos.
  destruct (scrAPI.watch_pages Y n 0 ids) as [reqs [items|e]];
    cbn [fst snd fmap res_fmap] in *; split; try done.
  - intros data [= <-]. destruct (Hok items eq_refl) as [-> Hitems].
    split; [done|]. by exists items.
  - intros e' [= <-]. by apply Herr.
Qed.

End Requests.

(** A video fetched under the number 42: its batch is never sent, and its
    title is set to [None]. *)
Lemma api_batch_is_one_request_witness :
  let Y := api_site [] in
  let st := numbered_video (site_world 60 Y first_resident) in
  exists st',
    Video.load_info_job (site_world 60 Y first_resident) [0%nat] st
    = (st', Ok tt)
    /\ forall r k, r ∈ [0%nat] -> k ∈ Video.fields ->
         future_at st' r (Entry.future_name k)
         = absent_fill (future_at st r (Entry.future_name k)).
Proof.
  intros Y st.
  apply (proj2 (proj2 (api_batch_is_one_request Y 0%nat [IInt 42] eq_refl))
               60 first_resident st [0%nat] (IInt 42)).
  - intros r Hr. apply list_elem_of_singleton in Hr as ->.
    eexists. reflexivity.
  - reflexivity.
  - apply list_elem_of_here.
  - discriminate.
Defined.

Section ScrapedSearch.
Context (Y : site) (limit : Z)
        (victim : list (cls * hkey) -> gmap (cls * hkey) ref -> cls * hkey).
Implicit Types (st : state) (self : ref) (h : list obj) (o : obj).

Let W : world := site_world limit Y victim.

Lemma scraped_entity_grows P h h' r m :
  heap_grows P h h' -> scraped_entity h r m -> scraped_entity h' r m.
Proof.
  intros Hg (o & E & Hc & Hi & Ht & Hch & Hth).
  destruct (Hg r o E) as (o' & E' & Hc' & Hi' & Hd).
  assert (forall name, resolved (o_dict o !! name) ->
                       resolved (o_dict o' !! name)) as Hres.
  { intros name [v Hv]. exists v. by eapply dict_grows_set. }
  exists o'. split_and!; [done|congruence|congruence|eauto..].
Qed.

(** The fields [search] asks for can be computed from an item of
    [scrAPI.search]. *)
Lemma search_match_fields m item k val :
  scrAPI.search_match m = Ok item ->
  k ∈ ["title"; "channel"; "thumbnails"] ->
  exists v, Entry.field_value W (match_cls m) k item val = Ok v.
Proof.
  unfold scrAPI.search_match, concat_group, match_cls.
  destruct (group m "id") as [id|]; [|done]. cbn [mbind res_bind Py.bind].
  intros [= <-] Hk.
  repeat (apply elem_of_cons in Hk as [->|Hk]);
    [..|by apply elem_of_nil in Hk];
    destruct (group m "playlist"), (String.eqb _ ""), (group m "itemCount");
    by eexists.
Qed.

Lemma create_object_scraped m item st :
  Inv W st -> scrAPI.search_match m = Ok item ->
  exists st1 r,
    Entry.create_object W item st = (st1, Ok r)
    /\ Inv W st1 /\ scraped_entity (heap st1) r m.
Proof.
  intros HI Hm.
  destruct (get_entity W (match_cls m) (match_id m) st HI)
    as (st0 & r & o & Eg & HI0 & Eo & Hc & Hi).
  set (fields := if group m "playlist" is Some _
                 then ["title"; "channel"; "thumbnails"]
                 else ["title"; "channel"]).
  assert (forall k, k ∈ fields -> k ∈ ["title"; "channel"; "thumbnails"])
    as Hsub.
  { intros k. unfold fields. destruct (group m "playlist"); [done|].
    intros Hk. apply elem_of_cons in Hk as [->|Hk]; [in_list|].
    apply elem_of_cons in Hk as [->|Hk]; [in_list|].
    by apply elem_of_nil in Hk. }
  destruct (set_api_data_resolved W r fields item st0 o Eo)
    as (st2 & o2 & E2 & Eo2 & Hc2 & Hi2 & Hres).
  { intros k val' Hk. rewrite Hc.
    by apply (search_match_fields m item k val' Hm), Hsub. }
  assert (Entry.create_object W item st = (st2, Ok r)) as E.
  { revert Hm Eg E2.
    unfold scrAPI.search_match, concat_group, match_cls, match_id, fields.
    destruct (group m "id") as [id|]; [|done]. cbn [mbind res_bind Py.bind].
    intros [= <-].
    destruct (group m "playlist"), (String.eqb _ ""), (group m "itemCount");
      simpl; intros Eg E2; unfold Entry.create_object, mbind, M_bind, lift;
      simpl; by rewrite Eg, E2. }
  exists st2, r. split; [done|]. split.
  - by destruct (keeps_create_object W _ _ _ _ HI I E).
  - assert (forall k, k ∈ ["title"; "channel"] -> k ∈ fields) as Hin.
    { intros k Hk. unfold fields. destruct (group m "playlist"); [|done].
      apply elem_of_cons in Hk as [->|Hk]; [in_list|].
      apply elem_of_cons in Hk as [->|Hk]; [in_list|].
      by apply elem_of_nil in Hk. }
    exists o2. split_and!; [done|congruence|congruence|..].
    + apply (Hres "title"), Hin. in_list.
    + apply (Hres "channel"), Hin. in_list.
    + intros Hp. apply (Hres "thumbnails"). unfold fields.
      unfold match_cls in Hp. destruct (group m "playlist"); [in_list|done].
Qed.

Lemma map_create_scraped : forall ms items st,
  Inv W st -> map_res scrAPI.search_match ms = Ok items ->
  exists st' rs,
    Entry.map_create W items st = (st', Ok rs)
    /\ Inv W st' /\ Forall2 (scraped_entity (heap st')) rs ms.
Proof.
  induction ms as [|m ms IH]; intros items st HI.
  - intros [= <-]. exists st, []. by split_and!.
  - cbn [map_res]. destruct (scrAPI.search_match m) as [item|] eqn:Em;
      [|done].
    cbn [mbind res_bind Py.bind].
    destruct (map_res scrAPI.search_match ms) as [rest|] eqn:Ems; [|done].
    cbn [mbind res_bind Py.bind]. intros [= <-].
    cbn [Entry.map_create]. unfold mbind at 1. unfold M_bind at 1.
    destruct (create_object_scraped m item st HI Em)
      as (st1 & r & -> & HI1 & He).
    unfold mbind at 1. unfold M_bind at 1.
    destruct (IH rest st1 HI1 eq_refl) as (st' & rs & E' & HI' & Hrs).
    rewrite E'. exists st', (r :: rs). split_and!; [done..|].
    constructor; [|done].
    eapply scraped_entity_grows; [|done]. eapply map_create_grows. exact E'.
Qed.

Lemma map_res_Ok {A B} (f : A -> res B) (l : list A) :
  Forall (fun a => exists b, f a = Ok b) l ->
  exists bs, map_res f l = Ok bs.
Proof.
  induction 1 as [|a l [b Hb] _ [bs IH]]; [by eexists|].
  cbn [map_res]. rewrite Hb, IH. by eexists.
Qed.

(** X18. With the scraping collaborator, when the results page is
    fetched and every match on it has its video id, [Entry.search] returns
    one instance per match, in the order of the page: a [Playlist], with
    the id of the playlist, for a match with a playlist and a [Video], with
    the id of the video, otherwise; with its title and channel (and for a
    playlist its thumbnails) set. *)
Theorem scraped_search_one_entity_per_match q st text :
  api_enabled Y = false ->
  prog_reachable W st ->
  session_text Y (length (calls st)) 0 (results_request q) = Ok text ->
  Forall (fun m => is_Some (group m "id")) (finditer Y re_search text) ->
  exists st' rs,
    Entry.search W q st = (st', Ok (Some rs))
    /\ Forall2 (scraped_entity (heap st')) rs (finditer Y re_search text).
Proof.
  intros Hscr Hr Ht Hid. apply Inv_reachable in Hr.
  destruct (map_res_Ok scrAPI.search_match (finditer Y re_search text))
    as [items Hitems].
  { eapply Forall_impl; [exact Hid|]. intros m [id Hm].
    unfold scrAPI.search_match, concat_group. rewrite Hm. by eexists. }
  unfold Entry.search, mbind, M_bind, try_except, fmap, M_fmap, Entry.ask.
  unfold W at 1. cbn [remote site_world perform]. rewrite Hscr.
  unfold scrAPI.search. fold (results_request q). cbn [snd]. rewrite Ht.
  unfold mbind, res_bind. cbn [Py.bind]. rewrite Hitems.
  unfold lift. simpl.
  match goal with
  | |- context [Entry.map_create W _ ?s] =>
      destruct (map_create_scraped (finditer Y re_search text) items s)
        as (st' & rs & -> & _ & Hrs); [|done|]
  end.
  - destruct Hr as [Hh Hc Hj Hs]. by split.
  - by exists st', rs.
Qed.

Lemma append_assoc (a b c : string) : (a +:+ b) +:+ c = a +:+ (b +:+ c).
Proof.
  induction a as [|x a IH]; [done|]. by rewrite !append_String, IH.
Qed.

Lemma append_not_empty (a b : string) x :
  String.eqb (a +:+ String x b) "" = false.
Proof. by destruct a. Qed.

(** X19. [scrAPI.search] writes the duration of a match, from its groups,
    in the form that [_set_api_data] reads: for a match with minutes and
    seconds, with or without hours, and no item count, the length computed
    from the item is hours * 3600 + minutes * 60 + seconds.  When the match
    has an item count, that count replaces the duration in
    [contentDetails], and the length cannot be computed: [KeyError]. *)
Theorem scraped_duration_round_trip (V : world) c m item minutes seconds val :
  scrAPI.search_match m = Ok item ->
  (forall ds, group m "durationHours" = Some ds -> numeral ds) ->
  group m "durationMinutes" = Some minutes -> numeral minutes ->
  group m "durationSeconds" = Some seconds -> numeral seconds ->
  (group m "itemCount" = None ->
   Entry.field_value V c "length" item val
   = Ok (VJson (JNum (int_group (group m "durationHours") * 3600
                      + int_group (Some minutes) * 60
                      + int_group (Some seconds)))))
  /\ (is_Some (group m "itemCount") ->
      Entry.field_value V c "length" item val = Raise KeyError).
Proof.
  intros Hm Hh Em Hmin Es Hsec.
  revert Hm. unfold scrAPI.search_match, concat_group.
  destruct (group m "id") as [id|]; [|done]. cbn [mbind res_bind Py.bind].
  rewrite Em, Es. cbv zeta.
  set (hours := group m "durationHours") in *.
  set (duration :=
         scrAPI.add_duration
           (scrAPI.add_duration (scrAPI.add_duration "" hours "H")
                                (Some minutes) "M") (Some seconds) "S").
  assert ("PT" +:+ duration = duration_of hours (Some minutes) (Some seconds))
    as Hd.
  { unfold duration, duration_of, scrAPI.add_duration, component.
    destruct hours as [h|].
    - change ("" +:+ (h +:+ "H")) with (h +:+ "H").
      by rewrite !append_assoc.
    - change ("" +:+ (minutes +:+ "M")) with (minutes +:+ "M").
      done. }
  assert (String.eqb duration "" = false) as Hne.
  { unfold duration. cbn [scrAPI.add_duration].
    rewrite <- append_assoc. apply append_not_empty. }
  rewrite Hne.
  assert (duration_seconds (JStr ("PT" +:+ duration))
          = Ok (int_group hours * 3600 + int_group (Some minutes) * 60
                + int_group (Some seconds))) as Hsecs.
  { rewrite Hd. apply duration_seconds_components; [done|..];
      by intros ds [= <-]. }
  clearbody duration. intros [= <-]. split.
  - intros ->. unfold Entry.field_value.
    destruct (group m "playlist"); cbn -[duration_seconds append];
      by rewrite Hsecs.
  - intros [count ->]. unfold Entry.field_value.
    by destruct (group m "playlist").
Qed.

End ScrapedSearch.

(** A results page with a video and a playlist. *)
Lemma scraped_search_one_entity_per_match_witness :
  let Y := scraped_site two_results in
  let W := site_world 60 Y first_resident in
  exists st' rs,
    Entry.search W "two words" init_state = (st', Ok (Some rs))
    /\ Forall2 (scraped_entity (heap st')) rs (finditer Y re_search "").
Proof.
  intros Y W.
  apply (scraped_search_one_entity_per_match Y 60 first_resident
           "two words" init_state "").
  - reflexivity.
  - apply prog_init.
  - reflexivity.
  - repeat constructor; by eexists.
Defined.

(** The video of that page: 4 minutes 13 seconds are 253 seconds. *)
Lemma scraped_duration_round_trip_witness :
  exists item,
    scrAPI.search_match
      [("id", "7uj0hOIm2kY"); ("title", "A"); ("durationMinutes", "4");
       ("durationSeconds", "13"); ("uploader", "C")] = Ok item
    /\ Entry.field_value failing_world cVideo "length" item None
       = Ok (VJson (JNum 253)).
Proof.
  eexists. split; [reflexivity|].
  apply (proj1 (scraped_duration_round_trip failing_world cVideo
                  [("id", "7uj0hOIm2kY"); ("title", "A");
                   ("durationMinutes", "4"); ("durationSeconds", "13");
                   ("uploader", "C")] _ "4" "13" None eq_refl
                  ltac:(discriminate) eq_refl ltac:(by split)
                  eq_refl ltac:(by split))).
  reflexivity.
Defined.

Section Idempotent.
Implicit Types (st : state) (self : ref) (h : list obj) (o : obj).
Implicit Types (d : gmap string (option pyval)).

Lemma add_noop fields d :
  (forall k, k ∈ fields -> is_Some (d !! Entry.future_name k)) ->
  Entry.add fields d = (d, false).
Proof.
  induction fields as [|k fields IH]; intros Hall; [done|].
  cbn [Entry.add]. destruct (Hall k (list_elem_of_here _ _)) as [f ->].
  apply IH. intros k' Hk'. by apply Hall, list_elem_of_further.
Qed.

Lemma obj_eta o : Obj (o_cls o) (o_id o) (o_dict o) = o.
Proof. by destruct o. Qed.

Lemma add_futures_noop fields lst h :
  all_futures fields lst h -> Entry._add_futures lst fields h = ([], h).
Proof.
  induction lst as [|r lst IH]; intros Hall; [done|].
  cbn [Entry._add_futures].
  assert (all_futures fields lst h) as Hall'.
  { intros r' o k Hr. by apply Hall, list_elem_of_further. }
  destruct (h !! r) as [o|] eqn:E; [|by apply IH].
  rewrite add_noop.
  - rewrite obj_eta, list_insert_id by done. by rewrite IH.
  - intros k Hk. by apply (Hall r o k (list_elem_of_here _ _)).
Qed.

Lemma add_futures_length fields lst : forall h,
  length (Entry._add_futures lst fields h).2 = length h.
Proof.
  induction lst as [|r lst IH]; intros h; [done|].
  cbn [Entry._add_futures]. destruct (h !! r) as [o|]; [|apply IH].
  destruct (Entry.add fields (o_dict o)) as [d added].
  specialize (IH (<[r := Obj (o_cls o) (o_id o) d]> h)).
  destruct (Entry._add_futures lst fields _) as [kept h'].
  simpl in *. by rewrite IH, length_insert.
Qed.

Lemma add_futures_all fields lst : forall h,
  all_futures fields lst (Entry._add_futures lst fields h).2.
Proof.
  induction lst as [|r0 lst IH]; intros h r o k Hr;
    [by apply elem_of_nil in Hr|].
  cbn [Entry._add_futures].
  destruct (h !! r0) as [o0|] eqn:E0.
  - pose proof (add_present fields (o_dict o0)) as Hpresent.
    destruct (Entry.add fields (o_dict o0)) as [d added]. simpl in Hpresent.
    set (h1 := <[r0 := Obj (o_cls o0) (o_id o0) d]> h).
    pose proof (IH h1) as IH1.
    pose proof (add_futures_grows lst fields h1) as Hg.
    destruct (Entry._add_futures lst fields h1) as [kept h'].
    simpl in *. intros Eo Hk.
    destruct (decide (r ∈ lst)) as [Hin|Hnotin]; [by eapply IH1|].
    apply elem_of_cons in Hr as [->|?]; [|done].
    destruct (Hg r0 (Obj (o_cls o0) (o_id o0) d)) as (o' & Eo' & _ & _ & Hd).
    { unfold h1. apply list_lookup_insert_eq. by eapply lookup_lt_Some. }
    assert (Some o = Some o') as [= ->] by exact (eq_trans (eq_sym Eo) Eo').
    eapply dict_grows_present; [exact Hd|]. by apply Hpresent.
  - pose proof (IH h) as IHh.
    pose proof (add_futures_length fields lst h) as Hlen.
    destruct (Entry._add_futures lst fields h) as [kept h'].
    simpl in *. intros Eo Hk.
    destruct (decide (r ∈ lst)) as [Hin|Hnotin]; [by eapply IHh|].
    apply elem_of_cons in Hr as [->|?]; [|done].
    apply lookup_lt_Some in Eo. apply lookup_ge_None in E0. lia.
Qed.

Lemma load_info_of_eq c lst st :
  load_info_of c lst st
  = let (lst', h) := Entry._add_futures lst (batch_fields c) (heap st) in
    (State h (cache st) (lookups st)
           (Entry.run_sublists (batch_job c) lst' (pool st)) (calls st),
     Ok tt).
Proof. by destruct c. Qed.

(** X20. [load_info] does its work once: on instances that have a future
    for every field of the batch it changes nothing, handing no job to the
    pool; and after a [load_info] of a list, a second [load_info] of that
    list is of that kind. *)
Theorem load_info_twice c lst st :
  (all_futures (batch_fields c) lst (heap st) ->
   load_info_of c lst st = (st, Ok tt))
  /\ (exists st1,
        load_info_of c lst st = (st1, Ok tt)
        /\ load_info_of c lst st1 = (st1, Ok tt)).
Proof.
  assert (forall st0,
            all_futures (batch_fields c) lst (heap st0) ->
            load_info_of c lst st0 = (st0, Ok tt)) as Hnoop.
  { intros st0 Hall. rewrite load_info_of_eq, add_futures_noop by done.
    by destruct st0. }
  split; [apply Hnoop|].
  pose proof (add_futures_all (batch_fields c) lst (heap st)) as Hall.
  rewrite load_info_of_eq.
  destruct (Entry._add_futures lst (batch_fields c) (heap st)) as [lst' h].
  eexists. split; [done|]. by apply Hnoop.
Qed.

End Idempotent.

(** A video that was just fetched: one [load_info], and one more. *)
Lemma load_info_twice_witness :
  exists st1,
    Video.load_info [0%nat] (one_video failing_world) = (st1, Ok tt)
    /\ Video.load_info [0%nat] st1 = (st1, Ok tt).
Proof.
  apply (proj2 (load_info_twice cVideo [0%nat] (one_video failing_world))).
Defined.
